(** * qutebrowser hints: hint strings and the hint manager

    A shallow embedding of [qutebrowser/browser/hints.py]: the hint string
    generator ([_hint_strings], [_shuffle_hints], [_number_to_hint_str]), the
    [HintManager] operations [start], [stop], [handle_partial_key] and [fire],
    and the [HintKeyParser]; and, in the module [eventfilter] at the end, of
    [qutebrowser/keyinput/eventfilter.py]: the [EventFilter] and the
    [IMEEventHandler].

    Python integers are [Z]; [str] is [string]; the list [hintstr] of
    one-character strings is a [list ascii]; the dict [_elems] is a
    [gmap string ElemTuple]. Exceptions and the signals, messages and DOM
    calls of the manager are explicit: every operation returns an [outcome]
    together with the new manager and the list of effects it performed. *)

From Stdlib Require Import ZArith String Ascii List Floats Lia.
From stdpp Require Import base option list list_numbers strings gmap.

Open Scope Z_scope.

(** ** Outcomes of Python code *)

Inductive exn : Set :=
| ZeroDivisionError
| ValueError
| OverflowError
| IndexError
| KeyError
| AttributeError
| UnboundLocalError.

(** [Diverges] is the outcome of a loop that does not leave within the fuel
    the model gives it; see [number_loop_unary] for the only way to get it. *)
Inductive outcome (A : Type) : Type :=
| Return (a : A)
| Raise (e : exn)
| Diverges.
Arguments Return {A} a.
Arguments Raise {A} e.
Arguments Diverges {A}.

#[global] Instance outcome_ret : MRet outcome := fun A a => Return a.
#[global] Instance outcome_bind : MBind outcome := fun A B f m =>
  match m with
  | Return a => f a
  | Raise e => Raise e
  | Diverges => Diverges
  end.

Definition returns {A} (m : outcome A) : Prop := exists a, m = Return a.

(** ** Python sequences *)

Definition len {A} (l : list A) : Z := Z.of_nat (length l).
Definition str_len (s : string) : Z := Z.of_nat (String.length s).

(** [s[i]] on a [str]: a negative index counts from the end, an index out of
    range raises [IndexError]. *)
Definition str_index (s : string) (i : Z) : outcome ascii :=
  let j := if i <? 0 then i + str_len s else i in
  if j <? 0 then Raise IndexError
  else match String.get (Z.to_nat j) s with
       | Some c => Return c
       | None => Raise IndexError
       end.

(** [range(a, b)]. *)
Definition range (a b : Z) : list Z := seqZ a (b - a).

(** [''.join(hintstr)]. *)
Definition join (hintstr : list ascii) : string := string_of_list_ascii hintstr.

(** [string.startswith(keystr)]. *)
Definition startswith (s keystr : string) : bool := String.prefix keystr s.

(** ** [math.log] and [math.ceil]

    [math.log(x, base)] on two integers is the IEEE quotient of two natural
    logarithms taken by the C library on doubles. The division and the
    rounding up are computed here on Rocq's binary64 floats; the C library's
    [log] is the parameter [libm_log]. *)

Definition float_of_int (x : Z) : float := PrimFloat.of_uint63 (Uint63.of_Z x).

(** [math.ceil]: [nan] raises [ValueError], an infinity [OverflowError]. *)
Definition math_ceil (f : float) : outcome Z :=
  match Prim2SF f with
  | S754_zero _ => Return 0
  | S754_infinity _ => Raise OverflowError
  | S754_nan => Raise ValueError
  | S754_finite s m e =>
      let v := if s then Z.neg m else Z.pos m in
      Return (if 0 <=? e then v * 2 ^ e else - ((- v) / 2 ^ (- e)))
  end.

Section Generator.

Variable libm_log : float -> float.

(** [loghelper]: the logarithm of a Python integer; a domain error for
    [x <= 0]. *)
Definition loghelper (x : Z) : outcome float :=
  if x <=? 0 then Raise ValueError else Return (libm_log (float_of_int x)).

Definition math_log (x base : Z) : outcome float :=
  num ← loghelper x;
  den ← loghelper base;
  if PrimFloat.eqb den 0 then Raise ZeroDivisionError
  else Return (PrimFloat.div num den).

(** Line 181: [math.ceil(math.log(len(elems), len(chars)))]. *)
Definition needed_digits (n k : Z) : outcome Z :=
  math_log n k ≫= math_ceil.

(** *** [_number_to_hint_str] *)

(** The [while True: ... if number <= 0: break] loop; [hintstr.insert(0, c)]
    is a cons. [number % base] with [base = 0] raises. *)
Fixpoint number_loop (fuel : nat) (number : Z) (chars : string)
    (hintstr : list ascii) : outcome (list ascii) :=
  match fuel with
  | O => Diverges
  | S fuel' =>
      let base := str_len chars in
      if base =? 0 then Raise ZeroDivisionError else
      let remainder := number mod base in
      c ← str_index chars remainder;
      let hintstr := c :: hintstr in
      let number := number - remainder in
      let number := number / base in
      if number <=? 0 then Return hintstr
      else number_loop fuel' number chars hintstr
  end.

(** [for _ in range(0, digits - len(hintstr)): hintstr.insert(0, chars[0])]. *)
Fixpoint pad_loop (times : nat) (chars : string) (hintstr : list ascii)
    : outcome (list ascii) :=
  match times with
  | O => Return hintstr
  | S times' =>
      c ← str_index chars 0;
      pad_loop times' chars (c :: hintstr)
  end.

Definition _number_to_hint_str (number : Z) (chars : string) (digits : Z)
    : outcome string :=
  hintstr ← number_loop (S (Z.to_nat number)) number chars [];
  hintstr ← pad_loop (length (range 0 (digits - len hintstr))) chars hintstr;
  Return (join hintstr).

(** *** [_shuffle_hints] *)

(** [buckets[j].append(hint)]. *)
Definition bucket_append (buckets : list (list string)) (j : Z) (hint : string)
    : list (list string) :=
  alter (fun b => b ++ [hint]) (Z.to_nat j) buckets.

(** [for i, hint in enumerate(hints): buckets[i % len(buckets)].append(hint)],
    entered at index [i]. *)
Fixpoint shuffle_loop (i : Z) (hints : list string) (buckets : list (list string))
    : outcome (list (list string)) :=
  match hints with
  | [] => Return buckets
  | hint :: hints' =>
      if len buckets =? 0 then Raise ZeroDivisionError else
      shuffle_loop (i + 1) hints' (bucket_append buckets (i mod len buckets) hint)
  end.

Definition _shuffle_hints (hints : list string) (length : Z) : outcome (list string) :=
  let buckets := (fun _ => @nil string) <$> range 0 length in
  buckets ← shuffle_loop 0 hints buckets;
  Return (concat buckets).

(** *** [_hint_strings]

    [chars] is [config.get("hints", "chars")]. The quotient
    [(len(chars) ** needed - len(elems)) / len(chars)] is a float division
    followed by [math.floor]; it is the integer floor division for operands
    below 2^53, and is taken as such. *)
Definition hint_strings_from (needed : Z) (n : Z) (chars : string)
    : outcome (list string) :=
  if str_len chars =? 0 then Raise ZeroDivisionError else
  let short_count := (str_len chars ^ needed - n) / str_len chars in
  let long_count := n - short_count in
  short ←
    (if 1 <? needed
     then mapM (fun i => _number_to_hint_str i chars (needed - 1)) (range 0 short_count)
     else Return []);
  let start := short_count * str_len chars in
  long ← mapM (fun i => _number_to_hint_str i chars needed)
             (range start (start + long_count));
  _shuffle_hints (short ++ long) (str_len chars).

Definition _hint_strings {A} (chars : string) (elems : list A)
    : outcome (list string) :=
  needed ← needed_digits (len elems) (str_len chars);
  hint_strings_from needed (len elems) chars.

End Generator.

(** ** Base-K numerals: the mathematical content of [_number_to_hint_str] *)

(** The characters of a [str], in order. *)
Definition alphabet (chars : string) : list ascii := list_ascii_of_string chars.

(** The character standing for digit [i]. *)
Definition digit_char (chars : string) (i : Z) : ascii :=
  nth (Z.to_nat i) (alphabet chars) "000"%char.

(** The [d] least significant base-[k] digits of [n], most significant first. *)
Fixpoint to_digits (k : Z) (d : nat) (n : Z) : list Z :=
  match d with
  | O => []
  | S d' => to_digits k d' (n / k) ++ [n mod k]
  end.

(** The label of length [d] for the number [n]. *)
Definition encode (chars : string) (d : nat) (n : Z) : string :=
  join (digit_char chars <$> to_digits (str_len chars) d n).

(** Position of a character in the alphabet (its digit value); the alphabet
    size for a character that is not in it. *)
Fixpoint char_pos (l : list ascii) (c : ascii) : Z :=
  match l with
  | [] => 0
  | x :: l' => if Ascii.eqb x c then 0 else 1 + char_pos l' c
  end.

(** Inverse base-K digit extraction: each character's alphabet position is a
    digit, most significant first. *)
Definition decode (chars : string) (label : string) : Z :=
  fold_left (fun acc c => acc * str_len chars + char_pos (alphabet chars) c)
            (list_ascii_of_string label) 0.

(** No label is a proper prefix of another one. *)
Definition prefix_free (labels : list string) : Prop :=
  forall s t, s ∈ labels -> t ∈ labels -> startswith t s = true -> s = t.

(** The exact number of digits: the least [d] with [n <= k ^ d]
    ([ceil(log_k n)] over the reals). *)
Fixpoint ceil_log_loop (fuel : nat) (n k p d : Z) : Z :=
  match fuel with
  | O => d
  | S fuel' => if n <=? p then d else ceil_log_loop fuel' n k (p * k) (d + 1)
  end.

Definition ceil_log (n k : Z) : Z := ceil_log_loop (Z.to_nat n) n k 1 0.

(** The spec's digit count: [ceil(log_K N)], and 1 when [N = 1]. *)
Definition spec_digits (n k : Z) : Z := if n =? 1 then 1 else ceil_log n k.

(** *** Strings as character lists *)

Lemma str_len_alphabet chars : str_len chars = len (alphabet chars).
Proof.
  unfold str_len, len, alphabet. f_equal.
  induction chars as [|c s IH]; simpl; congruence.
Qed.

Lemma length_join l : String.length (join l) = length l.
Proof. unfold join. induction l as [|a l IH]; simpl; [reflexivity | now rewrite IH]. Qed.

Lemma join_inj l1 l2 : join l1 = join l2 -> l1 = l2.
Proof.
  unfold join. intros H.
  rewrite <- (list_ascii_of_string_of_list_ascii l1),
          <- (list_ascii_of_string_of_list_ascii l2).
  now rewrite H.
Qed.

Lemma join_app l1 l2 : join (l1 ++ l2) = (join l1 ++ join l2)%string.
Proof. unfold join. induction l1 as [|a l1 IH]; simpl; [reflexivity | now rewrite IH]. Qed.

Lemma string_get_nth s i c :
  String.get i s = Some c -> nth i (list_ascii_of_string s) "000"%char = c.
Proof.
  revert i. induction s as [|a s IH]; intros [|i]; simpl; try congruence.
  apply IH.
Qed.

Lemma string_get_lt s i :
  (i < String.length s)%nat -> exists c, String.get i s = Some c.
Proof.
  revert i. induction s as [|a s IH]; intros [|i]; simpl; try lia; eauto.
  intros H. apply IH. lia.
Qed.

Lemma fmap_repeat {A B} (f : A -> B) (x : A) n :
  f <$> repeat x n = repeat (f x) n.
Proof. induction n as [|n IH]; simpl; [reflexivity | f_equal; exact IH]. Qed.

(** [startswith] on joined lists is the list prefix relation. *)
Lemma startswith_join l1 l2 :
  startswith (join l2) (join l1) = true <-> l1 `prefix_of` l2.
Proof.
  unfold startswith, join. revert l2.
  induction l1 as [|a l1 IH]; intros l2; simpl.
  - split; [intros _; apply prefix_nil | now destruct (string_of_list_ascii l2)].
  - destruct l2 as [|b l2]; simpl.
    + split; [discriminate | intros H; now apply prefix_nil_not in H].
    + destruct (ascii_dec a b) as [->|Hab].
      * rewrite IH. split; [apply prefix_cons | apply prefix_cons_inv_2].
      * split; [discriminate | intros H; now apply prefix_cons_inv_1 in H].
Qed.

Lemma startswith_same_length s t :
  startswith t s = true -> String.length s = String.length t -> s = t.
Proof.
  rewrite <- (string_of_list_ascii_of_string s), <- (string_of_list_ascii_of_string t).
  fold (join (list_ascii_of_string s)) (join (list_ascii_of_string t)).
  rewrite startswith_join, !length_join. intros [k ->] Hlen.
  rewrite length_app in Hlen. destruct k; [now rewrite app_nil_r | simpl in Hlen; lia].
Qed.

Lemma startswith_length s t :
  startswith t s = true -> (String.length s <= String.length t)%nat.
Proof.
  rewrite <- (string_of_list_ascii_of_string s), <- (string_of_list_ascii_of_string t).
  fold (join (list_ascii_of_string s)) (join (list_ascii_of_string t)).
  rewrite startswith_join, !length_join. apply prefix_length.
Qed.

(** *** Digits *)

Section Numerals.

Variable chars : string.
#[local] Abbreviation K := (str_len chars).
Hypothesis HK : 2 <= K.

Lemma length_to_digits d n : length (to_digits K d n) = d.
Proof.
  revert n. induction d as [|d IH]; intros n; simpl; [reflexivity|].
  rewrite length_app, IH. simpl. lia.
Qed.

Lemma to_digits_zero d : to_digits K d 0 = repeat 0 d.
Proof.
  induction d as [|d IH]; simpl; [reflexivity|].
  rewrite Z.div_0_l, Z.mod_0_l, IH by lia.
  now rewrite repeat_cons.
Qed.

(** Leading zeros: a number below [K ^ m] written with [t + m] digits. *)
Lemma to_digits_pad t m n :
  0 <= n < K ^ Z.of_nat m ->
  to_digits K (t + m) n = repeat 0 t ++ to_digits K m n.
Proof.
  revert n. induction m as [|m IH]; intros n Hn.
  - simpl in Hn. assert (n = 0) as -> by lia.
    rewrite Nat.add_0_r, to_digits_zero. simpl. now rewrite app_nil_r.
  - rewrite Nat.add_succ_r. simpl. rewrite IH, app_assoc; [reflexivity|].
    rewrite Nat2Z.inj_succ, Z.pow_succ_r in Hn by lia.
    split; [apply Z.div_pos; lia | apply Z.div_lt_upper_bound; lia].
Qed.

Lemma to_digits_bound d n x : x ∈ to_digits K d n -> 0 <= x < K.
Proof.
  revert n. induction d as [|d IH]; intros n; simpl.
  - intros H. inversion H.
  - rewrite elem_of_app, list_elem_of_singleton. intros [H | ->]; [eauto|].
    apply Z.mod_pos_bound. lia.
Qed.

(** Horner evaluation of a digit list. *)
Definition of_digits (acc : Z) (ds : list Z) : Z :=
  fold_left (fun acc x => acc * K + x) ds acc.

Lemma of_digits_to_digits d n :
  0 <= n < K ^ Z.of_nat d -> of_digits 0 (to_digits K d n) = n.
Proof.
  unfold of_digits. revert n. induction d as [|d IH]; intros n Hn.
  - simpl in *. lia.
  - simpl. rewrite fold_left_app. simpl.
    rewrite Nat2Z.inj_succ, Z.pow_succ_r in Hn by lia.
    rewrite IH.
    + pose proof (Z.div_mod n K). lia.
    + split; [apply Z.div_pos; lia | apply Z.div_lt_upper_bound; lia].
Qed.

Lemma str_index_digit i :
  0 <= i < K -> str_index chars i = Return (digit_char chars i).
Proof.
  intros Hi. unfold str_index.
  destruct (Z.ltb_spec i 0) as [?|_]; [lia|].
  destruct (Z.ltb_spec i 0) as [?|_]; [lia|].
  destruct (string_get_lt chars (Z.to_nat i)) as [c Hc].
  { unfold str_len in Hi. lia. }
  rewrite Hc. unfold digit_char, alphabet.
  now rewrite (string_get_nth _ _ _ Hc).
Qed.

(** The loop writes the shortest numeral of [n] in front of [hintstr]. *)
Lemma number_loop_spec fuel n hintstr :
  0 <= n -> (Z.to_nat n < fuel)%nat ->
  exists m, (1 <= m)%nat /\ n < K ^ Z.of_nat m /\
            (m = 1%nat \/ K ^ (Z.of_nat m - 1) <= n) /\
            number_loop fuel n chars hintstr
            = Return ((digit_char chars <$> to_digits K m n) ++ hintstr).
Proof.
  revert n hintstr. induction fuel as [|fuel IH]; intros n hintstr Hn Hfuel; [lia|].
  simpl. destruct (Z.eqb_spec K 0) as [?|_]; [lia|].
  assert (Hr : 0 <= n mod K < K) by (apply Z.mod_pos_bound; lia).
  rewrite (str_index_digit _ Hr). simpl.
  assert (Hdiv : (n - n mod K) / K = n / K).
  { rewrite Z.mod_eq by lia.
    replace (n - (n - K * (n / K))) with (n / K * K) by lia.
    apply Z.div_mul. lia. }
  rewrite Hdiv. pose proof (Z.div_mod n K).
  assert (0 <= n / K) by (apply Z.div_pos; lia).
  destruct (Z.leb_spec (n / K) 0) as [Hle|Hgt].
  - exists 1%nat. simpl. split; [lia|]. split; [nia|]. split; [now left | reflexivity].
  - destruct (IH (n / K) (digit_char chars (n mod K) :: hintstr)) as (m & Hm & Hlt & Hmin & ->).
    + lia.
    + assert (n / K < n) by (apply Z.div_lt; lia). lia.
    + exists (S m). split; [lia|]. rewrite Nat2Z.inj_succ, Z.pow_succ_r by lia.
      split; [nia|]. split.
      * right. replace (Z.succ (Z.of_nat m) - 1) with (Z.of_nat m) by lia.
        destruct Hmin as [-> | Hmin]; [simpl; nia|].
        replace (Z.of_nat m) with (Z.succ (Z.of_nat m - 1)) by lia.
        rewrite Z.pow_succ_r by lia. nia.
      * simpl. rewrite fmap_app. simpl. now rewrite <- app_assoc.
Qed.

Lemma pad_loop_spec t hintstr :
  pad_loop t chars hintstr = Return (repeat (digit_char chars 0) t ++ hintstr).
Proof.
  revert hintstr. induction t as [|t IH]; intros hintstr; simpl; [reflexivity|].
  rewrite str_index_digit by lia. simpl. rewrite IH.
  now rewrite app_comm_cons, repeat_cons, <- app_assoc.
Qed.

(** [_number_to_hint_str] returns the numeral of [n] with exactly
    [max 1 digits] characters when [n] fits in that many digits. *)
Lemma number_to_hint_str_spec n digits :
  0 <= n < K ^ Z.max 1 digits ->
  _number_to_hint_str n chars digits
  = Return (encode chars (Z.to_nat (Z.max 1 digits)) n).
Proof.
  intros Hn. unfold _number_to_hint_str.
  destruct (number_loop_spec (S (Z.to_nat n)) n []) as (m & Hm & Hlt & Hmin & ->);
    [lia | lia |].
  simpl. rewrite app_nil_r, pad_loop_spec. simpl. unfold encode. do 2 f_equal.
  unfold range, len. rewrite length_seqZ, length_fmap, length_to_digits.
  assert (Hmd : Z.of_nat m <= Z.max 1 digits).
  { destruct Hmin as [-> | Hmin]; [lia|].
    destruct (Z.le_gt_cases (Z.of_nat m) (Z.max 1 digits)) as [?|Hgt]; [assumption|].
    assert (K ^ Z.max 1 digits <= K ^ (Z.of_nat m - 1)) by (apply Z.pow_le_mono_r; lia).
    lia. }
  replace (Z.to_nat (Z.max 1 digits))
    with ((Z.to_nat (Z.max 1 digits) - m) + m)%nat by lia.
  rewrite to_digits_pad by lia. rewrite fmap_app, fmap_repeat.
  do 2 f_equal. lia.
Qed.

End Numerals.

(** *** Labels of numbers *)

Section Labels.

Variable chars : string.
#[local] Abbreviation K := (str_len chars).
Hypothesis HK : 2 <= K.
Hypothesis Hdistinct : NoDup (alphabet chars).

Lemma length_encode d n : String.length (encode chars d n) = d.
Proof. unfold encode. now rewrite length_join, length_fmap, length_to_digits. Qed.

Lemma char_pos_nth (l : list ascii) (i : nat) :
  NoDup l -> (i < length l)%nat -> char_pos l (nth i l "000"%char) = Z.of_nat i.
Proof.
  revert i. induction l as [|x l IH]; intros i Hnd Hi; simpl in *; [lia|].
  apply NoDup_cons in Hnd as [Hx Hnd].
  destruct i as [|i].
  - now rewrite Ascii.eqb_refl.
  - destruct (Ascii.eqb_spec x (nth i l "000"%char)) as [Heq|_].
    + exfalso. apply Hx. rewrite Heq. apply list_elem_of_In, nth_In. lia.
    + rewrite IH by (assumption || lia). lia.
Qed.

Lemma char_pos_digit i : 0 <= i < K -> char_pos (alphabet chars) (digit_char chars i) = i.
Proof.
  intros Hi. unfold digit_char. rewrite char_pos_nth; [lia | assumption |].
  rewrite str_len_alphabet in Hi. unfold len in Hi. lia.
Qed.

Lemma decode_digits acc ds :
  (forall x, x ∈ ds -> 0 <= x < K) ->
  fold_left (fun acc c => acc * K + char_pos (alphabet chars) c)
            (digit_char chars <$> ds) acc
  = of_digits chars acc ds.
Proof.
  unfold of_digits. revert acc. induction ds as [|x ds IH]; intros acc Hds; [reflexivity|].
  simpl. rewrite char_pos_digit by (apply Hds; left).
  apply IH. intros y Hy. apply Hds. now right.
Qed.

(** Decoding a label gives back its number. *)
Lemma decode_encode d n :
  0 <= n < K ^ Z.of_nat d -> decode chars (encode chars d n) = n.
Proof.
  intros Hn. unfold decode, encode, join.
  rewrite list_ascii_of_string_of_list_ascii, decode_digits.
  - now apply of_digits_to_digits.
  - intros x. now apply to_digits_bound.
Qed.

Lemma encode_inj d n1 n2 :
  0 <= n1 < K ^ Z.of_nat d -> 0 <= n2 < K ^ Z.of_nat d ->
  encode chars d n1 = encode chars d n2 -> n1 = n2.
Proof.
  intros H1 H2 Heq.
  rewrite <- (decode_encode d n1 H1), <- (decode_encode d n2 H2). now rewrite Heq.
Qed.

(** A label of [d] characters starts a label of [d + 1] characters only if
    its number is the other's number without the last digit. *)
Lemma encode_prefix d i j :
  0 <= i < K ^ Z.of_nat d -> 0 <= j < K ^ Z.of_nat (S d) ->
  startswith (encode chars (S d) j) (encode chars d i) = true -> i = j / K.
Proof.
  intros Hi Hj. unfold encode. rewrite startswith_join. simpl. intros [k Hk].
  rewrite fmap_app in Hk. symmetry in Hk.
  apply app_inj_1 in Hk as [Hk _].
  - apply (encode_inj d); [assumption | | unfold encode; now rewrite Hk].
    rewrite Nat2Z.inj_succ, Z.pow_succ_r in Hj by lia.
    split; [apply Z.div_pos; lia | apply Z.div_lt_upper_bound; lia].
  - now rewrite !length_fmap, !length_to_digits.
Qed.

End Labels.

(** *** The shuffle is a rearrangement *)

Lemma mapM_Return {A B} (f : A -> outcome B) (g : A -> B) (l : list A) :
  (forall x, x ∈ l -> f x = Return (g x)) -> mapM f l = Return (g <$> l).
Proof.
  induction l as [|x l IH]; intros Hf; [reflexivity|].
  simpl. rewrite (Hf x) by left. simpl.
  rewrite IH by (intros y Hy; apply Hf; now right). reflexivity.
Qed.

Lemma concat_bucket_append buckets j hint :
  0 <= j < len buckets ->
  concat (bucket_append buckets j hint) ≡ₚ hint :: concat buckets.
Proof.
  unfold bucket_append, len. intros Hj.
  assert (Hlt : (Z.to_nat j < length buckets)%nat) by lia. clear Hj.
  revert Hlt. generalize (Z.to_nat j) as i. clear j.
  induction buckets as [|b buckets IH]; intros i Hi; simpl in *; [lia|].
  destruct i as [|i]; simpl.
  - rewrite <- app_assoc. simpl. symmetry. apply Permutation_middle.
  - specialize (IH i ltac:(lia)). simpl in IH. rewrite IH.
    symmetry. apply Permutation_middle.
Qed.

Lemma length_bucket_append buckets j hint :
  length (bucket_append buckets j hint) = length buckets.
Proof. apply length_alter. Qed.

Lemma shuffle_loop_perm i hints buckets :
  0 <= i -> 0 < len buckets ->
  exists buckets', shuffle_loop i hints buckets = Return buckets' /\
                   length buckets' = length buckets /\
                   concat buckets' ≡ₚ concat buckets ++ hints.
Proof.
  revert i buckets. induction hints as [|hint hints IH]; intros i buckets Hi Hb; simpl.
  - exists buckets. now rewrite app_nil_r.
  - destruct (Z.eqb_spec (len buckets) 0) as [?|_]; [lia|].
    destruct (IH (i + 1) (bucket_append buckets (i mod len buckets) hint))
      as (buckets' & -> & Hlen & Hperm).
    + lia.
    + unfold len. now rewrite length_bucket_append.
    + exists buckets'. split; [reflexivity|]. rewrite length_bucket_append in Hlen.
      split; [assumption|]. rewrite Hperm, concat_bucket_append.
      * simpl. apply Permutation_middle.
      * apply Z.mod_pos_bound. lia.
Qed.

Lemma concat_empty_buckets {A} (l : list A) : concat ((fun _ => @nil string) <$> l) = [].
Proof. induction l as [|x l IH]; simpl; [reflexivity | exact IH]. Qed.

(** [_shuffle_hints] returns a permutation of its input. *)
Lemma shuffle_hints_perm hints k :
  1 <= k -> exists l, _shuffle_hints hints k = Return l /\ l ≡ₚ hints.
Proof.
  intros Hk. unfold _shuffle_hints.
  destruct (shuffle_loop_perm 0 hints ((fun _ => @nil string) <$> range 0 k))
    as (buckets' & -> & _ & Hperm).
  - lia.
  - unfold len, range. rewrite length_fmap, length_seqZ. lia.
  - exists (concat buckets'). split; [reflexivity|].
    now rewrite Hperm, concat_empty_buckets.
Qed.

(** ** The hint strings before the shuffle *)

(** The list [strings] at line 198, written with [encode]: the short hints
    [0 .. short_count - 1], then the long hints from [short_count * K] on. *)
Definition short_count (chars : string) (needed n : Z) : Z :=
  (str_len chars ^ needed - n) / str_len chars.

Definition short_hints (chars : string) (needed n : Z) : list string :=
  if 1 <? needed
  then encode chars (Z.to_nat (needed - 1)) <$> range 0 (short_count chars needed n)
  else [].

Definition long_hints (chars : string) (needed n : Z) : list string :=
  let start := short_count chars needed n * str_len chars in
  encode chars (Z.to_nat (Z.max 1 needed))
    <$> range start (start + (n - short_count chars needed n)).

Definition ordered_hints (chars : string) (needed n : Z) : list string :=
  short_hints chars needed n ++ long_hints chars needed n.

Section Ordered.

Variable chars : string.
#[local] Abbreviation K := (str_len chars).
Hypothesis HK : 2 <= K.

Variables needed n : Z.
Hypothesis Hn : 1 <= n.
(** The digit count is off by less than one: it is the exact one, or one
    more when [n] is a power of [K]. *)
Hypothesis Hneeded : K ^ (needed - 1) <= n <= K ^ needed.

#[local] Abbreviation sc := (short_count chars needed n).

Lemma needed_nonneg : 0 <= needed.
Proof.
  destruct (Z.le_gt_cases 0 needed) as [?|Hneg]; [assumption|].
  rewrite (Z.pow_neg_r K needed) in Hneeded by lia. lia.
Qed.

Lemma pow_needed : 1 <= needed -> K ^ needed = K * K ^ (needed - 1).
Proof.
  intros H. replace needed with (Z.succ (needed - 1)) at 1 by lia.
  apply Z.pow_succ_r. lia.
Qed.

Lemma short_count_bounds :
  0 <= sc /\ sc <= n /\ sc * K + (n - sc) <= K ^ Z.max 1 needed /\
  (1 < needed -> sc <= K ^ (needed - 1)) /\ (needed <= 1 -> sc = 0).
Proof.
  pose proof needed_nonneg as H0. unfold short_count.
  assert (Hsc0 : 0 <= (K ^ needed - n) / K) by (apply Z.div_pos; lia).
  assert (Hmul : (K ^ needed - n) / K * K <= K ^ needed - n).
  { rewrite Z.mul_comm. apply Z.mul_div_le. lia. }
  destruct (Z.eq_dec needed 0) as [->|Hne].
  - simpl in *. assert (n = 1) as -> by lia. simpl.
    rewrite Z.div_0_l by lia. rewrite Z.pow_1_r. repeat split; lia.
  - assert (Hp : K ^ needed = K * K ^ (needed - 1)) by (apply pow_needed; lia).
    assert (Hpos : 0 < K ^ (needed - 1)) by (apply Z.pow_pos_nonneg; lia).
    assert (Hle : (K ^ needed - n) / K <= K ^ (needed - 1)).
    { apply Z.div_le_upper_bound; lia. }
    rewrite Z.max_r by lia. repeat split; try lia.
    intros H1. assert (needed = 1) as Heq by lia. rewrite Heq in *.
    simpl in Hneeded. rewrite Z.pow_1_r in *. apply Z.div_small. lia.
Qed.

(** The body of [_hint_strings] builds [ordered_hints] and shuffles it. *)
Lemma hint_strings_from_ordered :
  hint_strings_from needed n chars = _shuffle_hints (ordered_hints chars needed n) K.
Proof.
  destruct short_count_bounds as (Hsc0 & Hscn & Hlong & Hshort & Hzero).
  unfold hint_strings_from. destruct (Z.eqb_spec K 0) as [?|_]; [lia|].
  fold sc. unfold ordered_hints, short_hints, long_hints.
  destruct (Z.ltb_spec 1 needed) as [H1|H1].
  - rewrite (mapM_Return (fun i => _number_to_hint_str i chars (needed - 1))
               (encode chars (Z.to_nat (needed - 1)))).
    + simpl. rewrite (mapM_Return _ (encode chars (Z.to_nat (Z.max 1 needed)))); [reflexivity|].
      intros i Hi. apply elem_of_seqZ in Hi.
      apply number_to_hint_str_spec; [assumption | lia].
    + intros i Hi. apply elem_of_seqZ in Hi.
      rewrite number_to_hint_str_spec; [| assumption | rewrite Z.max_r by lia; lia].
      now rewrite Z.max_r by lia.
  - simpl. rewrite (mapM_Return _ (encode chars (Z.to_nat (Z.max 1 needed)))); [reflexivity|].
    intros i Hi. apply elem_of_seqZ in Hi.
    apply number_to_hint_str_spec; [assumption | lia].
Qed.

Lemma elem_of_short_hints s :
  s ∈ short_hints chars needed n <->
  1 < needed /\ exists i, 0 <= i < sc /\ s = encode chars (Z.to_nat (needed - 1)) i.
Proof.
  unfold short_hints. destruct (Z.ltb_spec 1 needed) as [H1|H1].
  - rewrite list_elem_of_fmap. unfold range. split.
    + intros (i & -> & Hi). apply elem_of_seqZ in Hi. split; [assumption|].
      exists i. split; [lia | reflexivity].
    + intros (_ & i & Hi & ->). exists i. split; [reflexivity|].
      apply elem_of_seqZ. lia.
  - split; [intros H; inversion H | lia].
Qed.

Lemma elem_of_long_hints s :
  s ∈ long_hints chars needed n <->
  exists i, sc * K <= i < sc * K + (n - sc) /\
            s = encode chars (Z.to_nat (Z.max 1 needed)) i.
Proof.
  unfold long_hints. rewrite list_elem_of_fmap. unfold range. split.
  - intros (i & -> & Hi). apply elem_of_seqZ in Hi.
    exists i. split; [lia | reflexivity].
  - intros (i & Hi & ->). exists i. split; [reflexivity|].
    apply elem_of_seqZ. lia.
Qed.

Lemma length_short_hints : len (short_hints chars needed n) = sc.
Proof.
  destruct short_count_bounds as (Hsc0 & _ & _ & _ & Hzero).
  unfold short_hints, len. destruct (Z.ltb_spec 1 needed) as [H1|H1].
  - unfold range. rewrite length_fmap, length_seqZ. lia.
  - simpl. lia.
Qed.

Lemma length_long_hints : len (long_hints chars needed n) = n - sc.
Proof.
  destruct short_count_bounds as (Hsc0 & Hscn & _).
  unfold long_hints, len, range. rewrite length_fmap, length_seqZ. lia.
Qed.

Lemma length_ordered_hints : len (ordered_hints chars needed n) = n.
Proof.
  pose proof length_short_hints. pose proof length_long_hints.
  unfold ordered_hints, len in *. rewrite length_app. lia.
Qed.

(** Every hint has [needed] characters (one when [needed = 0]), but for the
    short ones, which have [needed - 1]. *)
Lemma length_of_short_hint s :
  s ∈ short_hints chars needed n -> str_len s = needed - 1.
Proof.
  rewrite elem_of_short_hints. intros (H1 & i & _ & ->).
  unfold str_len. rewrite length_encode. lia.
Qed.

Lemma length_of_long_hint s :
  s ∈ long_hints chars needed n -> str_len s = Z.max 1 needed.
Proof.
  rewrite elem_of_long_hints. intros (i & _ & ->).
  unfold str_len. rewrite length_encode. lia.
Qed.

End Ordered.

Section OrderedDistinct.

Variable chars : string.
#[local] Abbreviation K := (str_len chars).
Hypothesis HK : 2 <= K.
Hypothesis Hdistinct : NoDup (alphabet chars).

Variables needed n : Z.
Hypothesis Hn : 1 <= n.
Hypothesis Hneeded : K ^ (needed - 1) <= n <= K ^ needed.

#[local] Abbreviation sc := (short_count chars needed n).

(** The number a hint stands for. *)
Lemma decode_short_hint s :
  s ∈ short_hints chars needed n -> 0 <= decode chars s < sc.
Proof.
  destruct (short_count_bounds chars HK needed n Hn Hneeded) as (_ & _ & _ & Hshort & _).
  rewrite elem_of_short_hints. intros (H1 & i & Hi & ->).
  rewrite decode_encode; [assumption.. |]. rewrite Z2Nat.id by lia. lia.
Qed.

Lemma decode_long_hint s :
  s ∈ long_hints chars needed n ->
  sc * K <= decode chars s < sc * K + (n - sc).
Proof.
  destruct (short_count_bounds chars HK needed n Hn Hneeded) as (Hsc0 & _ & Hlong & _).
  rewrite elem_of_long_hints. intros (i & Hi & ->).
  rewrite decode_encode; [assumption.. |]. rewrite Z2Nat.id by lia. nia.
Qed.

Lemma NoDup_short_hints : NoDup (short_hints chars needed n).
Proof.
  destruct (short_count_bounds chars HK needed n Hn Hneeded) as (_ & _ & _ & Hshort & _).
  unfold short_hints. destruct (Z.ltb_spec 1 needed) as [H1|H1]; [|constructor].
  apply NoDup_fmap_2_strong; [|apply NoDup_seqZ].
  intros i j Hi Hj. apply elem_of_seqZ in Hi, Hj.
  apply (encode_inj chars HK Hdistinct); rewrite Z2Nat.id by lia; lia.
Qed.

Lemma NoDup_long_hints : NoDup (long_hints chars needed n).
Proof.
  destruct (short_count_bounds chars HK needed n Hn Hneeded) as (Hsc0 & _ & Hlong & _).
  unfold long_hints. apply NoDup_fmap_2_strong; [|apply NoDup_seqZ].
  intros i j Hi Hj. apply elem_of_seqZ in Hi, Hj.
  apply (encode_inj chars HK Hdistinct); rewrite Z2Nat.id by lia; nia.
Qed.

Lemma short_long_lengths s t :
  s ∈ short_hints chars needed n -> t ∈ long_hints chars needed n ->
  str_len t = str_len s + 1.
Proof.
  intros Hs Ht. pose proof (length_of_short_hint chars HK _ _ _ Hs).
  pose proof (length_of_long_hint chars HK _ _ _ Ht).
  apply elem_of_short_hints in Hs. lia.
Qed.

Lemma NoDup_ordered_hints : NoDup (ordered_hints chars needed n).
Proof.
  unfold ordered_hints. apply NoDup_app.
  split; [apply NoDup_short_hints|]. split; [|apply NoDup_long_hints].
  intros s Hs Hl. pose proof (short_long_lengths s s Hs Hl). lia.
Qed.

(** A short hint never starts a long one: the long hints begin at
    [short_count * K], so without its last digit a long hint stands for a
    number that is at least [short_count]. *)
Lemma short_not_prefix_of_long s t :
  s ∈ short_hints chars needed n -> t ∈ long_hints chars needed n ->
  startswith t s = false.
Proof.
  destruct (short_count_bounds chars HK needed n Hn Hneeded) as (Hsc0 & _ & Hlong & Hshort & _).
  rewrite elem_of_short_hints, elem_of_long_hints.
  intros (H1 & i & Hi & ->) (j & Hj & ->).
  destruct (startswith _ _) eqn:Hpre; [exfalso | reflexivity].
  rewrite Z.max_r in * by lia.
  replace (Z.to_nat needed) with (S (Z.to_nat (needed - 1))) in Hpre by lia.
  apply (encode_prefix chars HK Hdistinct) in Hpre.
  - assert (sc <= j / K) by (apply Z.div_le_lower_bound; lia). lia.
  - rewrite Z2Nat.id by lia. lia.
  - rewrite Nat2Z.inj_succ, Z2Nat.id by lia.
    replace (Z.succ (needed - 1)) with needed by lia. nia.
Qed.

Lemma prefix_free_ordered_hints : prefix_free (ordered_hints chars needed n).
Proof.
  intros s t Hs Ht Hpre. unfold ordered_hints in Hs, Ht.
  apply elem_of_app in Hs, Ht.
  pose proof (startswith_length _ _ Hpre) as Hlen.
  assert (Hsame : String.length s = String.length t -> s = t)
    by (now apply startswith_same_length).
  destruct Hs as [Hs|Hs], Ht as [Ht|Ht].
  - apply Hsame. pose proof (length_of_short_hint chars HK _ _ _ Hs).
    pose proof (length_of_short_hint chars HK _ _ _ Ht). unfold str_len in *. lia.
  - now rewrite (short_not_prefix_of_long s t Hs Ht) in Hpre.
  - pose proof (short_long_lengths t s Ht Hs). unfold str_len in *. lia.
  - apply Hsame. pose proof (length_of_long_hint chars HK _ _ _ Hs).
    pose proof (length_of_long_hint chars HK _ _ _ Ht). unfold str_len in *. lia.
Qed.

(** Hints that stand for the same number are the same hint. *)
Lemma decode_inj_ordered_hints s t :
  s ∈ ordered_hints chars needed n -> t ∈ ordered_hints chars needed n ->
  decode chars s = decode chars t -> s = t.
Proof.
  destruct (short_count_bounds chars HK needed n Hn Hneeded) as (Hsc0 & _ & Hlong & Hshort & _).
  unfold ordered_hints. rewrite !elem_of_app. intros Hs Ht Heq.
  destruct Hs as [Hs|Hs], Ht as [Ht|Ht].
  - apply elem_of_short_hints in Hs as (_ & i & Hi & ->).
    apply elem_of_short_hints in Ht as (H1 & j & Hj & ->).
    rewrite !decode_encode in Heq by (assumption || rewrite Z2Nat.id by lia; lia).
    now subst.
  - pose proof (decode_short_hint s Hs). pose proof (decode_long_hint t Ht).
    apply elem_of_short_hints in Hs as (H1 & _). nia.
  - pose proof (decode_short_hint t Ht). pose proof (decode_long_hint s Hs).
    apply elem_of_short_hints in Ht as (H1 & _). nia.
  - apply elem_of_long_hints in Hs as (i & Hi & ->).
    apply elem_of_long_hints in Ht as (j & Hj & ->).
    rewrite !decode_encode in Heq by (assumption || rewrite Z2Nat.id by lia; nia).
    now subst.
Qed.

Lemma decode_bound_ordered_hints s :
  s ∈ ordered_hints chars needed n -> 0 <= decode chars s < K ^ Z.max 1 needed.
Proof.
  destruct (short_count_bounds chars HK needed n Hn Hneeded) as (Hsc0 & Hscn & Hlong & Hshort & _).
  unfold ordered_hints. rewrite elem_of_app. intros [Hs|Hs].
  - pose proof (decode_short_hint s Hs). apply elem_of_short_hints in Hs as (H1 & _).
    rewrite Z.max_r by lia.
    assert (K ^ (needed - 1) <= K ^ needed) by (apply Z.pow_le_mono_r; lia). lia.
  - pose proof (decode_long_hint s Hs). nia.
Qed.

End OrderedDistinct.


(** ** The hint strings returned by [_hint_strings] *)

Section HintStrings.

Variable libm_log : float -> float.
Context {A : Type}.
Variable chars : string.
Variable elems : list A.
#[local] Abbreviation K := (str_len chars).
#[local] Abbreviation N := (len elems).
Hypothesis HN : 1 <= N.
Hypothesis HK : 2 <= K.

(** The digit count of line 181, and how far the platform's logarithm may be
    off: by less than one digit. Both the exact count and the count that
    IEEE rounding gives at a power of [K] are within this. *)
Variable needed : Z.
Hypothesis Hlog : needed_digits libm_log N K = Return needed.
Hypothesis Hneeded : K ^ (needed - 1) <= N <= K ^ needed.

(** [_hint_strings] returns, and what it returns is a rearrangement of
    [ordered_hints]. *)
Lemma hint_strings_shuffled :
  exists strings, _hint_strings libm_log chars elems = Return strings /\
                  strings ≡ₚ ordered_hints chars needed N.
Proof.
  unfold _hint_strings. rewrite Hlog. simpl.
  rewrite (hint_strings_from_ordered chars HK needed N HN Hneeded).
  apply shuffle_hints_perm. lia.
Qed.

Lemma hint_strings_length strings :
  _hint_strings libm_log chars elems = Return strings -> length strings = length elems.
Proof.
  destruct hint_strings_shuffled as (l & Hl & Hperm). rewrite Hl. intros [= <-].
  rewrite Hperm. pose proof (length_ordered_hints chars HK needed N HN Hneeded) as H.
  unfold len in *. lia.
Qed.

End HintStrings.

Lemma prefix_free_perm l1 l2 : l1 ≡ₚ l2 -> prefix_free l2 -> prefix_free l1.
Proof.
  intros Hperm Hfree s t Hs Ht. rewrite Hperm in Hs, Ht. now apply Hfree.
Qed.

(** The values the GNU C library's [log] returns at the arguments of the
    examples below (any other argument is not used by them). *)
Definition glibc_log (x : float) : float :=
  if PrimFloat.eqb x 2 then 0x1.62e42fefa39efp-1
  else if PrimFloat.eqb x 3 then 0x1.193ea7aad030bp+0
  else if PrimFloat.eqb x 4 then 0x1.62e42fefa39efp+0
  else if PrimFloat.eqb x 5 then 0x1.9c041f7ed8d33p+0
  else if PrimFloat.eqb x 10 then 0x1.26bb1bbb55516p+1
  else if PrimFloat.eqb x 125 then 0x1.3503179f229e7p+2
  else 0%float.

Example hint_strings_3_ab :
  _hint_strings glibc_log "ab" [1; 2; 3] = Return ["aa"; "ba"; "ab"]%string.
Proof. vm_compute. reflexivity. Qed.

Example hint_strings_1 :
  _hint_strings glibc_log "ab" [1] = Return ["a"]%string.
Proof. vm_compute. reflexivity. Qed.

Example hint_strings_5_abc :
  _hint_strings glibc_log "abc" [1; 2; 3; 4; 5]
  = Return ["a"; "bc"; "ba"; "ca"; "bb"]%string.
Proof. vm_compute. reflexivity. Qed.

(** An alphabet of one character: the base of the logarithm is 1. *)
Example hint_strings_unary :
  _hint_strings glibc_log "a" [1; 2; 3] = Raise ZeroDivisionError.
Proof. vm_compute. reflexivity. Qed.

(** [number_loop] runs out of fuel only in base 1 (for base 2 and more see
    [number_loop_spec]): there [number // 1] never gets smaller. *)
Lemma number_loop_unary fuel number c hintstr :
  0 < number -> number_loop fuel number (String c EmptyString) hintstr = Diverges.
Proof.
  revert hintstr. induction fuel as [|fuel IH]; intros hintstr Hn; [reflexivity|].
  cbn -[Z.modulo Z.div Z.leb]. rewrite Z.mod_1_r. cbn -[Z.div Z.leb].
  rewrite Z.sub_0_r, Z.div_1_r.
  destruct (Z.leb_spec number 0) as [?|_]; [lia|]. now apply IH.
Qed.


(** * The hint manager *)

(** ** Qt objects, as far as the manager looks at them *)

Record QPoint := { point_x : Z; point_y : Z }.

Record QRect := { rect_x : Z; rect_y : Z; rect_width : Z; rect_height : Z }.

Definition topLeft (r : QRect) : QPoint :=
  {| point_x := rect_x r; point_y := rect_y r |}.

Definition isValid (r : QRect) : bool :=
  (0 <? rect_width r) && (0 <? rect_height r).

Definition translate (r : QRect) (p : QPoint) : QRect :=
  {| rect_x := rect_x r + point_x p; rect_y := rect_y r + point_y p;
     rect_width := rect_width r; rect_height := rect_height r |}.

Definition contains (r : QRect) (p : QPoint) : bool :=
  isValid r
  && (rect_x r <=? point_x p) && (point_x p <? rect_x r + rect_width r)
  && (rect_y r <=? point_y p) && (point_y p <? rect_y r + rect_height r).

Definition point_sub (p q : QPoint) : QPoint :=
  {| point_x := point_x p - point_x q; point_y := point_y p - point_y q |}.

(** A [QWebElement] of the page: its attributes and its geometry. *)
Record QWebElement := { attributes : gmap string string; geometry : QRect }.

Definition hasAttribute (e : QWebElement) (name : string) : bool :=
  bool_decide (is_Some (attributes e !! name)).

(** [attribute(name)] is the empty string when the attribute is missing. *)
Definition attribute (e : QWebElement) (name : string) : string :=
  default EmptyString (attributes e !! name).

(** A [QWebFrame]: [findAllElements] maps a CSS selector to the elements it
    selects, in document order. *)
Record QWebFrame := {
  findAllElements : string -> list QWebElement;
  frame_geometry : QRect;
  scrollPosition : QPoint
}.

(** The [<span class="qutehint">] that [_draw_label] appends to the document:
    its position (the [left] and [top] of [HINT_CSS]) and its text. *)
Record HintLabel := { label_left : Z; label_top : Z; label_text : string }.

(** [ElemTuple = namedtuple('ElemTuple', 'elem, label')]. *)
Record ElemTuple := { elem : QWebElement; label : HintLabel }.

(** What the manager needs from outside this file: [urlutils] and [QUrl], the
    C library's logarithm behind [math.log], and the configured hint
    characters [config.get("hints", "chars")]. *)
Class Env := {
  QUrl : Type;
  qurl : string -> QUrl;
  url_scheme : QUrl -> string;
  isRelative : QUrl -> bool;
  resolved : QUrl -> QUrl -> QUrl;
  urlstring : QUrl -> string;
  env_log : float -> float;
  hints_chars : string
}.

Inductive mouse_event_type := MouseMove | MouseButtonPress | MouseButtonRelease.

(** Everything the manager does to the outside: messages, signals, the
    clipboard, the document and the frame's [contentsSizeChanged] signal. *)
Inductive effect :=
| message_error (text : string)
| message_info (text : string)
| message_text (text : string)
| message_clear
| emit_hint_strings_updated (strings : list string)
| emit_set_mode (mode : string)
| emit_set_open_target (target : string)
| emit_mouse_event (type : mouse_event_type) (point : QPoint)
| emit_set_cmd_text (text : string)
| clipboard_setText (text : string) (selection : bool)
| appendInside (span : HintLabel)
| removeFromDocument (span : HintLabel)
| setInnerXml (span : HintLabel) (matched rest : string)
| contentsSizeChanged_connect (frame : QWebFrame)
| contentsSizeChanged_disconnect (frame : QWebFrame).

Section Manager.

Context `{Env}.

(** The attributes of [HintManager]. *)
Record HintManager := {
  _elems : gmap string ElemTuple;
  _frame : option QWebFrame;
  _target : option string;
  _baseurl : option QUrl
}.

(** [__init__]. *)
Definition init : HintManager :=
  {| _elems := ∅; _frame := None; _target := None; _baseurl := None |}.

(** ** Methods: the manager is threaded through, effects are collected *)

Record run (A : Type) := Run {
  result : outcome A;
  manager : HintManager;
  effects : list effect
}.
Arguments Run {A} result manager effects.
Arguments result {A} r.
Arguments manager {A} r.
Arguments effects {A} r.

Definition M (A : Type) : Type := HintManager -> run A.

#[global] Instance M_ret : MRet M := fun A a s => Run (Return a) s [].

(** An exception leaves the manager as the failing statement found it. *)
#[global] Instance M_bind : MBind M := fun A B f m s =>
  let r := m s in
  match result r with
  | Return a =>
      let r' := f a (manager r) in
      Run (result r') (manager r') (effects r ++ effects r')
  | Raise e => Run (Raise e) (manager r) (effects r)
  | Diverges => Run Diverges (manager r) (effects r)
  end.

Definition get : M HintManager := fun s => Run (Return s) s [].
Definition put (s : HintManager) : M unit := fun _ => Run (Return tt) s [].
Definition raise {A} (e : exn) : M A := fun s => Run (Raise e) s [].
Definition tell (l : list effect) : M unit := fun s => Run (Return tt) s l.
Definition lift {A} (o : outcome A) : M A := fun s => Run o s [].

(** [d[key]] on a dict literal. *)
Fixpoint dict_get {V} (d : list (string * V)) (key : string) : option V :=
  match d with
  | [] => None
  | (k, v) :: d' => if String.eqb k key then Some v else dict_get d' key
  end.

(** [x in l] for an attribute that may be [None]. *)
Definition is_in (x : option string) (l : list string) : bool :=
  match x with
  | Some x => existsb (String.eqb x) l
  | None => false
  end.

(** [x == v] for an attribute that may be [None]. *)
Definition is_str (x : option string) (v : string) : bool :=
  match x with
  | Some x => String.eqb x v
  | None => false
  end.

(** [self._frame.m(...)]: on [None], an [AttributeError]. *)
Definition self_frame : M QWebFrame :=
  s ← get;
  match _frame s with
  | Some frame => mret frame
  | None => raise AttributeError
  end.

Definition SELECTORS : list (string * string) :=
  [ ("all", "a, textarea, select, input:not([type=hidden]), button, frame, iframe, [onclick], [onmousedown], [role=link], [role=option], [role=button], img");
    ("links", "a");
    ("images", "img");
    ("editable", "input[type=text], input[type=email], input[type=url],input[type=tel], input[type=number], input[type=password], input[type=search], textarea");
    ("url", "[src], [href]") ]%string.

Definition FILTERS : list (string * (QWebElement -> bool)) :=
  [ ("links"%string,
     fun e => hasAttribute e "href"
              && negb (String.eqb (url_scheme (qurl (attribute e "href"))) "javascript")) ].

(** [_draw_label]. *)
Definition _draw_label (e : QWebElement) (string : string) : M HintLabel :=
  let rect := geometry e in
  _ ← self_frame;
  let span := {| label_left := rect_x rect; label_top := rect_y rect;
                 label_text := string |} in
  tell [appendInside span];;
  mret span.

(** [_click]. *)
Definition _click (e : QWebElement) (target : string) : M unit :=
  tell [emit_set_open_target target];;
  let point := topLeft (geometry e) in
  frame ← self_frame;
  let scrollpos := scrollPosition frame in
  let point := point_sub point scrollpos in
  tell [emit_mouse_event MouseMove point;
        emit_mouse_event MouseButtonPress point;
        emit_mouse_event MouseButtonRelease point].

(** [_yank]. *)
Definition _yank (link : QUrl) (sel : bool) : M unit :=
  tell [clipboard_setText (urlstring link) sel;
        message_info ("URL yanked to " ++
                      (if sel then "primary selection" else "clipboard"))%string].

(** [_set_cmd_text]. *)
Definition _set_cmd_text (link : QUrl) (command : string) : M unit :=
  tell [emit_set_cmd_text (":" ++ command ++ " " ++ urlstring link)%string].

(** [_resolve_link]: [None] for an element without (or with an empty)
    [href]. *)
Definition _resolve_link (e : QWebElement) : M (option QUrl) :=
  let link := attribute e "href" in
  if String.eqb link EmptyString then mret None else
  let link := qurl link in
  if isRelative link then
    s ← get;
    match _baseurl s with
    | Some baseurl => mret (Some (resolved baseurl link))
    | None => raise AttributeError
    end
  else mret (Some link).

(** The elements [start] keeps: those the mode's filter accepts, with a
    plausible geometry, inside the frame. *)
Definition is_visible (frame : QWebFrame) (filterfunc : QWebElement -> bool)
    (e : QWebElement) : bool :=
  if negb (filterfunc e) then false else
  let rect := geometry e in
  if negb (isValid rect) && (rect_x rect =? 0) then false else
  let framegeom := translate (frame_geometry frame) (scrollPosition frame) in
  if negb (contains framegeom (topLeft rect)) then false else
  true.

Definition texts : list (string * string) :=
  [ ("normal", "Follow hint...");
    ("tab", "Follow hint in new tab...");
    ("bgtab", "Follow hint in background tab...");
    ("yank", "Yank hint to clipboard...");
    ("yank_primary", "Yank hint to primary selection...");
    ("cmd", "Set hint in commandline...");
    ("cmd_tab", "Set hint in commandline as new tab...");
    ("cmd_bgtab", "Set hint in commandline as background tab...");
    ("rapid", "Follow hint (rapid mode)...") ]%string.

(** [for e, string in zip(visible_elems, strings): ...]. *)
Fixpoint draw_loop (pairs : list (QWebElement * string)) : M unit :=
  match pairs with
  | [] => mret tt
  | (e, string) :: pairs' =>
      span ← _draw_label e string;
      s ← get;
      put {| _elems := <[string := {| elem := e; label := span |}]> (_elems s);
             _frame := _frame s; _target := _target s; _baseurl := _baseurl s |};;
      draw_loop pairs'
  end.

(** [start]. *)
Definition start (frame : QWebFrame) (baseurl : QUrl) (mode target : string) : M unit :=
  s ← get;
  put {| _elems := _elems s; _frame := Some frame; _target := Some target;
         _baseurl := Some baseurl |};;
  selector ← match dict_get SELECTORS mode with
             | Some sel => mret sel
             | None => raise KeyError
             end;
  let elems := findAllElements frame selector in
  let filterfunc := default (fun _ => true) (dict_get FILTERS mode) in
  let visible_elems := List.filter (is_visible frame filterfunc) elems in
  match visible_elems with
  | [] => tell [message_error "No elements found."]
  | _ :: _ =>
      text ← match dict_get texts target with
             | Some text => mret text
             | None => raise KeyError
             end;
      tell [message_text text];;
      strings ← lift (_hint_strings env_log hints_chars visible_elems);
      draw_loop (zip visible_elems strings);;
      tell [contentsSizeChanged_connect frame;
            emit_hint_strings_updated strings;
            emit_set_mode "hint"]
  end.

(** [stop]. *)
Definition stop : M unit :=
  s ← get;
  tell ((fun t => removeFromDocument (label t.2)) <$> map_to_list (_elems s));;
  frame ← self_frame;
  tell [contentsSizeChanged_disconnect frame];;
  s ← get;
  put {| _elems := ∅; _frame := None; _target := None; _baseurl := _baseurl s |};;
  tell [emit_set_mode "normal"; message_clear].

(** [handle_partial_key]: the effect on one item of [_elems], and whether
    its key goes to [delete]. *)
Definition partial_key_effect (keystr : string) (item : string * ElemTuple) : effect :=
  let '(string, elems) := item in
  if startswith string keystr
  then setInnerXml (label elems)
         (String.substring 0 (String.length keystr) string)
         (String.substring (String.length keystr)
                           (String.length string - String.length keystr) string)
  else removeFromDocument (label elems).

Definition handle_partial_key (keystr : string) : M unit :=
  s ← get;
  let items := map_to_list (_elems s) in
  tell (partial_key_effect keystr <$> items);;
  let delete := (List.filter (fun item => negb (startswith item.1 keystr)) items).*1 in
  put {| _elems := foldl (fun m key => base.delete key m) (_elems s) delete;
         _frame := _frame s; _target := _target s; _baseurl := _baseurl s |}.

Definition require_link : list string :=
  ["yank"; "yank_primary"; "cmd"; "cmd_tab"; "cmd_bgtab"]%string.

(** The [if ... elif ...] chain of [fire] and the final [stop]; [link] is
    bound only when the target requires one. *)
Definition fire_dispatch (e : QWebElement) (link : option QUrl) : M unit :=
  s ← get;
  let target := _target s in
  (if is_in target ["normal"; "tab"; "bgtab"]%string then
     _click e (default EmptyString target)
   else if is_str target "rapid" then
     _click e "bgtab"
   else if is_in target ["yank"; "yank_primary"]%string then
     let sel := is_str target "yank_primary" in
     match link with
     | Some link => _yank link sel
     | None => raise UnboundLocalError
     end
   else if is_in target ["cmd"; "cmd_tab"; "cmd_bgtab"]%string then
     let commands := [("cmd", "open"); ("cmd_tab", "tabopen");
                      ("cmd_bgtab", "backtabopen")]%string in
     match link with
     | Some link =>
         match dict_get commands (default EmptyString target) with
         | Some command => _set_cmd_text link command
         | None => raise KeyError
         end
     | None => raise UnboundLocalError
     end
   else mret tt);;
  if negb (is_str target "rapid") then stop else mret tt.

(** [fire]. *)
Definition fire (keystr : string) : M unit :=
  s ← get;
  e ← match _elems s !! keystr with
      | Some t => mret (elem t)
      | None => raise KeyError
      end;
  if is_in (_target s) require_link then
    link ← _resolve_link e;
    match link with
    | None => tell [message_error "No suitable link found for this element."]
    | Some link => fire_dispatch e (Some link)
    end
  else fire_dispatch e None.

End Manager.

Arguments Run {_ A} result manager effects.
Arguments result {_ A} r.
Arguments manager {_ A} r.
Arguments effects {_ A} r.

(** ** Facts about the manager *)

(** Unfolds the plumbing of [M] and the attribute accesses, and nothing of
    the data. *)
Ltac run_code :=
  cbv beta iota zeta delta
    [mbind M_bind mret M_ret get put tell raise lift result manager effects
     _elems _frame _target _baseurl self_frame].

(** Evaluates the string tests of the code. *)
Ltac run_tests :=
  cbv beta iota delta
    [is_in is_str existsb String.eqb Ascii.eqb Bool.eqb orb negb andb
     require_link default dict_get].

(** Tidies the collected effects. *)
Ltac run_effects :=
  cbn [app]; rewrite ?app_nil_r, <- ?app_assoc; cbn [app].

Section ManagerFacts.

Context `{Env}.

(** The session states of the specification, read off the attributes:
    hinting is going on when [start] has recorded a frame, a target and a
    base URL; after [__init__] and after [stop] there is no frame, no target
    and no element. *)
Definition Active (s : HintManager) : Prop :=
  is_Some (_frame s) /\ is_Some (_target s) /\ is_Some (_baseurl s).

Definition Inactive (s : HintManager) : Prop :=
  _elems s = ∅ /\ _frame s = None /\ _target s = None.

(** What [_click] does on frame [frame]. *)
Definition click_effects (frame : QWebFrame) (e : QWebElement) (target : string)
    : list effect :=
  let point := point_sub (topLeft (geometry e)) (scrollPosition frame) in
  [emit_set_open_target target;
   emit_mouse_event MouseMove point;
   emit_mouse_event MouseButtonPress point;
   emit_mouse_event MouseButtonRelease point].

(** What [stop] does while hinting on [frame]. *)
Definition stop_effects (s : HintManager) (frame : QWebFrame) : list effect :=
  ((fun t => removeFromDocument (label t.2)) <$> map_to_list (_elems s))
  ++ [contentsSizeChanged_disconnect frame; emit_set_mode "normal"; message_clear].

Definition stopped (s : HintManager) : HintManager :=
  {| _elems := ∅; _frame := None; _target := None; _baseurl := _baseurl s |}.

Lemma manager_eta (s : HintManager) :
  {| _elems := _elems s; _frame := _frame s; _target := _target s;
     _baseurl := _baseurl s |} = s.
Proof. now destruct s. Qed.

Lemma stop_hinting s frame :
  _frame s = Some frame ->
  stop s = Run (Return tt) (stopped s) (stop_effects s frame).
Proof.
  destruct s as [els fr tg bu]. cbn [_frame]. intros ->.
  unfold stop, stopped, stop_effects. run_code. run_effects. reflexivity.
Qed.

Lemma stop_without_frame s :
  _frame s = None ->
  stop s = Run (Raise AttributeError) s
             ((fun t => removeFromDocument (label t.2)) <$> map_to_list (_elems s)).
Proof.
  destruct s as [els fr tg bu]. cbn [_frame]. intros ->.
  unfold stop. run_code. run_effects. reflexivity.
Qed.

Lemma click_hinting s frame e target :
  _frame s = Some frame ->
  _click e target s = Run (Return tt) s (click_effects frame e target).
Proof.
  destruct s as [els fr tg bu]. cbn [_frame]. intros ->.
  unfold _click, click_effects. run_code. run_effects. reflexivity.
Qed.

End ManagerFacts.

Section FireFacts.

Context `{Env}.

(** The link [_resolve_link] returns for an element while the base URL is
    [baseurl]. *)
Definition link_of (baseurl : QUrl) (e : QWebElement) : option QUrl :=
  let link := attribute e "href" in
  if String.eqb link EmptyString then None
  else if isRelative (qurl link) then Some (resolved baseurl (qurl link))
  else Some (qurl link).

(** What firing does with an element, by target. *)
Definition action_effects (frame : QWebFrame) (target : string) (e : QWebElement)
    (link : option QUrl) : list effect :=
  if existsb (String.eqb target) ["normal"; "tab"; "bgtab"]%string then
    click_effects frame e target
  else if String.eqb target "rapid" then
    click_effects frame e "bgtab"
  else match link with
       | None => []
       | Some link =>
           if existsb (String.eqb target) ["yank"; "yank_primary"]%string then
             [clipboard_setText (urlstring link) (String.eqb target "yank_primary");
              message_info ("URL yanked to " ++
                            (if String.eqb target "yank_primary"
                             then "primary selection" else "clipboard"))%string]
           else if String.eqb target "cmd" then
             [emit_set_cmd_text (":open " ++ urlstring link)%string]
           else if String.eqb target "cmd_tab" then
             [emit_set_cmd_text (":tabopen " ++ urlstring link)%string]
           else if String.eqb target "cmd_bgtab" then
             [emit_set_cmd_text (":backtabopen " ++ urlstring link)%string]
           else []
       end.

Lemma fire_unknown s keystr :
  _elems s !! keystr = None -> fire keystr s = Run (Raise KeyError) s [].
Proof.
  destruct s as [els fr tg bu]. cbn [_elems]. intros Hk.
  unfold fire. run_code. rewrite Hk. reflexivity.
Qed.

(** In rapid mode [fire] clicks and changes nothing in the manager. *)
Lemma fire_rapid s keystr t frame :
  _target s = Some "rapid"%string -> _frame s = Some frame ->
  _elems s !! keystr = Some t ->
  fire keystr s = Run (Return tt) s (click_effects frame (elem t) "bgtab").
Proof.
  destruct s as [els fr tg bu]. cbn [_elems _frame _target]. intros -> -> Hk.
  unfold fire. run_code. rewrite Hk. run_tests. run_code.
  unfold fire_dispatch. run_code. run_tests. run_code.
  unfold _click, click_effects. run_code. run_effects. reflexivity.
Qed.

(** A target that requires a link, an element without one. *)
Lemma fire_no_link s keystr t :
  _elems s !! keystr = Some t -> is_in (_target s) require_link = true ->
  attribute (elem t) "href" = EmptyString ->
  fire keystr s
  = Run (Return tt) s [message_error "No suitable link found for this element."].
Proof.
  destruct s as [els fr tg bu]. cbn [_elems _target]. intros Hk Hreq Hhref.
  unfold fire, _resolve_link. run_code. rewrite Hk, Hreq, Hhref.
  run_tests. run_code. run_effects. reflexivity.
Qed.

End FireFacts.

Section FireDispatch.

Context `{Env}.

Lemma resolve_link_spec s baseurl e :
  _baseurl s = Some baseurl ->
  _resolve_link e s = Run (Return (link_of baseurl e)) s [].
Proof.
  destruct s as [els fr tg bu]. cbn [_baseurl]. intros ->.
  unfold _resolve_link, link_of.
  destruct (String.eqb _ _); [reflexivity|].
  destruct (isRelative _); reflexivity.
Qed.

(** [fire] on a label of the mapping, unless the target requires a link the
    element does not have: the action of the target, then, but in rapid
    mode, [stop]. *)
Lemma fire_dispatches s keystr t frame target baseurl :
  _frame s = Some frame -> _target s = Some target -> _baseurl s = Some baseurl ->
  _elems s !! keystr = Some t ->
  (is_in (Some target) require_link = true -> attribute (elem t) "href" <> EmptyString) ->
  fire keystr s
  = Run (Return tt)
        (if String.eqb target "rapid" then s else stopped s)
        (action_effects frame target (elem t) (link_of baseurl (elem t))
         ++ (if String.eqb target "rapid" then [] else stop_effects s frame)).
Proof.
  destruct s as [els fr tg bu]. cbn [_elems _frame _target _baseurl].
  intros -> -> -> Hk Hlink.
  assert (Hhref : is_in (Some target) require_link = true ->
                  String.eqb (attribute (elem t) "href") EmptyString = false).
  { intros Hreq. apply String.eqb_neq. auto. }
  clear Hlink.
  assert (Hclick : forall target',
             existsb (String.eqb target') ["normal"; "tab"; "bgtab"; "rapid"]%string = true ->
             target = target' ->
             fire keystr {| _elems := els; _frame := Some frame;
                            _target := Some target; _baseurl := Some baseurl |}
             = Run (Return tt)
                 (if String.eqb target "rapid"
                  then {| _elems := els; _frame := Some frame;
                          _target := Some target; _baseurl := Some baseurl |}
                  else stopped {| _elems := els; _frame := Some frame;
                                  _target := Some target; _baseurl := Some baseurl |})
                 (action_effects frame target (elem t) (link_of baseurl (elem t))
                  ++ (if String.eqb target "rapid" then []
                      else stop_effects {| _elems := els; _frame := Some frame;
                                           _target := Some target;
                                           _baseurl := Some baseurl |} frame))).
  { intros target' Hin ->. cbn in Hin.
    assert (Hcases : target' = "normal"%string \/ target' = "tab"%string \/
                     target' = "bgtab"%string \/ target' = "rapid"%string).
    { repeat (apply orb_prop in Hin as [Hin|Hin];
              [apply String.eqb_eq in Hin; auto|]).
      discriminate Hin. }
    clear Hin.
    destruct Hcases as [->|[->|[->| ->]]];
      unfold fire; run_code; rewrite Hk; run_tests; run_code;
      unfold fire_dispatch; run_code; run_tests; run_code;
      erewrite (click_hinting _ frame) by reflexivity;
      try (erewrite (stop_hinting _ frame) by reflexivity);
      unfold action_effects, stopped, stop_effects; run_tests; run_code;
      run_effects; reflexivity. }
  assert (Hneeds : forall target',
             existsb (String.eqb target') require_link = true -> target = target' ->
             fire keystr {| _elems := els; _frame := Some frame;
                            _target := Some target; _baseurl := Some baseurl |}
             = Run (Return tt)
                 (stopped {| _elems := els; _frame := Some frame;
                             _target := Some target; _baseurl := Some baseurl |})
                 (action_effects frame target (elem t) (link_of baseurl (elem t))
                  ++ stop_effects {| _elems := els; _frame := Some frame;
                                     _target := Some target;
                                     _baseurl := Some baseurl |} frame)).
  { intros target' Hin ->. specialize (Hhref Hin). cbn in Hin.
    assert (Hcases : target' = "yank"%string \/ target' = "yank_primary"%string \/
                     target' = "cmd"%string \/ target' = "cmd_tab"%string \/
                     target' = "cmd_bgtab"%string).
    { repeat (apply orb_prop in Hin as [Hin|Hin];
              [apply String.eqb_eq in Hin; auto 6|]).
      discriminate Hin. }
    clear Hin.
    destruct Hcases as [->|[->|[->|[->| ->]]]];
      unfold fire; run_code; rewrite Hk; run_tests; run_code;
      erewrite (resolve_link_spec _ baseurl) by reflexivity;
      unfold action_effects, link_of; rewrite Hhref;
      destruct (isRelative _);
        (run_code; unfold fire_dispatch; run_code; run_tests; run_code;
         unfold _yank, _set_cmd_text; run_code;
         erewrite (stop_hinting _ frame) by reflexivity;
         unfold stopped, stop_effects; run_code; run_effects; reflexivity). }
  destruct (existsb (String.eqb target) ["normal"; "tab"; "bgtab"; "rapid"]%string) eqn:E1.
  { now apply (Hclick target). }
  destruct (existsb (String.eqb target) require_link) eqn:E2.
  { rewrite (Hneeds target E2 eq_refl).
    assert (String.eqb target "rapid" = false) as ->; [|reflexivity].
    cbn in E1. now repeat (apply orb_false_elim in E1 as [? E1]). }
  clear Hclick Hneeds Hhref.
  unfold fire. run_code. rewrite Hk. unfold is_in. rewrite E2. run_code.
  unfold fire_dispatch, action_effects. run_code.
  cbn [existsb require_link] in E1, E2.
  repeat (apply orb_false_elim in E1 as [? E1]).
  repeat (apply orb_false_elim in E2 as [? E2]).
  cbv beta iota delta [is_in is_str existsb].
  repeat match goal with Heq : String.eqb target _ = false |- _ => rewrite !Heq; clear Heq end.
  cbn [orb negb]. run_code.
  erewrite (stop_hinting _ frame) by reflexivity.
  unfold stopped, stop_effects. run_code.
  destruct (link_of _ _); run_effects; reflexivity.
Qed.

End FireDispatch.

Section PartialKey.

Context `{Env}.

Lemma lookup_foldl_delete {V} (m : gmap string V) (l : list string) (k : string) :
  foldl (fun m key => delete key m) m l !! k
  = if decide (k ∈ l) then None else m !! k.
Proof.
  revert m. induction l as [|x l IH]; intros m; cbn [foldl].
  - destruct (decide (k ∈ [])) as [Hin|_]; [inversion Hin | reflexivity].
  - rewrite IH. destruct (decide (k ∈ l)) as [Hin|Hnin].
    + rewrite decide_True by (now right). reflexivity.
    + destruct (decide (k = x)) as [->|Hne].
      * rewrite decide_True by left. apply lookup_delete_eq.
      * rewrite decide_False by (rewrite elem_of_cons; tauto).
        now apply lookup_delete_ne.
Qed.

(** The keys [handle_partial_key] collects in [delete]. *)
Lemma elem_of_delete_list (m : gmap string ElemTuple) keystr k :
  k ∈ (List.filter (fun item => negb (startswith item.1 keystr)) (map_to_list m)).*1
  <-> is_Some (m !! k) /\ startswith k keystr = false.
Proof.
  rewrite list_elem_of_fmap. split.
  - intros ([k' v] & -> & Hin). apply list_elem_of_In, filter_In in Hin as [Hin Hneg].
    apply list_elem_of_In, elem_of_map_to_list in Hin. cbn [fst] in *.
    split; [eauto | now apply negb_true_iff].
  - intros ([v Hv] & Hneg). exists (k, v). split; [reflexivity|].
    apply list_elem_of_In, filter_In. split.
    + now apply list_elem_of_In, elem_of_map_to_list.
    + cbn [fst]. now rewrite Hneg.
Qed.

(** [handle_partial_key] returns, keeps the items whose key starts with
    [keystr] and deletes the others; nothing else of the manager changes. *)
Lemma handle_partial_key_spec s keystr :
  exists elems',
    handle_partial_key keystr s
    = Run (Return tt)
          {| _elems := elems'; _frame := _frame s; _target := _target s;
             _baseurl := _baseurl s |}
          (partial_key_effect keystr <$> map_to_list (_elems s)) /\
    forall k, elems' !! k = if startswith k keystr then _elems s !! k else None.
Proof.
  destruct s as [els fr tg bu]. eexists. split.
  - unfold handle_partial_key. run_code. run_effects. reflexivity.
  - intros k. rewrite lookup_foldl_delete.
    destruct (decide _) as [Hin|Hnin].
    + apply elem_of_delete_list in Hin as [_ ->]. reflexivity.
    + destruct (startswith k keystr) eqn:Hst; [reflexivity|].
      destruct (els !! k) eqn:Hk; [|reflexivity].
      exfalso. apply Hnin, elem_of_delete_list. eauto.
Qed.

End PartialKey.

Section StartFacts.

Context `{Env}.

(** The elements [start] would give hints to. *)
Definition visible_elems (frame : QWebFrame) (mode : string) : list QWebElement :=
  match dict_get SELECTORS mode with
  | Some selector =>
      List.filter (is_visible frame (default (fun _ => true) (dict_get FILTERS mode)))
                  (findAllElements frame selector)
  | None => []
  end.

(** [start] with no element to hint: a message, and the three attributes
    assigned at its top stay assigned. *)
Lemma start_no_elements s frame baseurl mode target :
  is_Some (dict_get SELECTORS mode) -> visible_elems frame mode = [] ->
  start frame baseurl mode target s
  = Run (Return tt)
        {| _elems := _elems s; _frame := Some frame; _target := Some target;
           _baseurl := Some baseurl |}
        [message_error "No elements found."].
Proof.
  destruct s as [els fr tg bu]. unfold visible_elems. intros [sel Hsel] Hvis.
  rewrite Hsel in Hvis. unfold start. run_code. rewrite Hsel. run_code.
  rewrite Hvis. run_code. run_effects. reflexivity.
Qed.

End StartFacts.

(** ** The exact digit count *)

Lemma ceil_log_loop_spec fuel n k d :
  2 <= k -> 0 <= d -> k ^ (d - 1) < n -> n <= Z.of_nat fuel + d ->
  k ^ (ceil_log_loop fuel n k (k ^ d) d - 1) < n
  <= k ^ ceil_log_loop fuel n k (k ^ d) d.
Proof.
  intros Hk. revert d. induction fuel as [|fuel IH]; intros d Hd Hlow Hfuel.
  - cbn [ceil_log_loop]. split; [assumption|].
    pose proof (Z.pow_gt_lin_r k d ltac:(lia) Hd). lia.
  - cbn [ceil_log_loop]. destruct (Z.leb_spec n (k ^ d)) as [Hle|Hgt]; [lia|].
    replace (k ^ d * k) with (k ^ (d + 1)) by (rewrite Z.pow_add_r; lia).
    apply IH; [lia | | lia]. now replace (d + 1 - 1) with d by lia.
Qed.

(** [ceil_log n k] is the least [d] with [n <= k ^ d]. *)
Lemma ceil_log_spec n k :
  1 <= n -> 2 <= k -> k ^ (ceil_log n k - 1) < n <= k ^ ceil_log n k.
Proof.
  intros Hn Hk. unfold ceil_log.
  pose proof (ceil_log_loop_spec (Z.to_nat n) n k 0 Hk) as Hspec.
  rewrite Z.pow_0_r in Hspec. apply Hspec; [lia | | lia].
  rewrite Z.pow_neg_r; lia.
Qed.

(** ** Lengths of the hint strings *)

Lemma filter_all {B} (P : B -> Prop) `{!forall x, Decision (P x)} (l : list B) :
  Forall P l -> filter P l = l.
Proof.
  induction 1 as [|x l Hx _ IH]; [reflexivity|].
  now rewrite filter_cons_True, IH.
Qed.

Lemma filter_none {B} (P : B -> Prop) `{!forall x, Decision (P x)} (l : list B) :
  Forall (fun x => ~ P x) l -> filter P l = [].
Proof.
  induction 1 as [|x l Hx _ IH]; [reflexivity|].
  now rewrite filter_cons_False.
Qed.

Section HintLengths.

Variable libm_log : float -> float.
Context {A : Type}.
Variable chars : string.
Variable elems : list A.
Hypothesis HN : 1 <= len elems.
Hypothesis HK : 2 <= str_len chars.
Variable needed : Z.
Hypothesis Hlog : needed_digits libm_log (len elems) (str_len chars) = Return needed.
Hypothesis Hneeded : str_len chars ^ (needed - 1) <= len elems <= str_len chars ^ needed.

(** Every hint has [needed] or [needed - 1] characters ([needed] is taken as
    1 for a single element), and [short_count] of them are the shorter
    ones. *)
Lemma hint_strings_lengths strings :
  _hint_strings libm_log chars elems = Return strings ->
  (forall s, s ∈ strings ->
             str_len s = Z.max 1 needed \/ (1 < needed /\ str_len s = needed - 1)) /\
  (1 < needed ->
   len (filter (fun s => str_len s = needed - 1) strings)
   = short_count chars needed (len elems)).
Proof.
  destruct (hint_strings_shuffled libm_log chars elems HN HK needed Hlog Hneeded)
    as (l & Hl & Hperm).
  rewrite Hl. intros [= <-]. split.
  - intros s Hs. rewrite Hperm in Hs. unfold ordered_hints in Hs.
    apply elem_of_app in Hs as [Hs|Hs].
    + right. pose proof (length_of_short_hint chars HK _ _ _ Hs).
      apply elem_of_short_hints in Hs as [H1 _]. tauto.
    + left. now apply (length_of_long_hint chars HK _ (len elems)).
  - intros H1. unfold len. rewrite Hperm. unfold ordered_hints.
    rewrite filter_app, length_app.
    rewrite (filter_all _ (short_hints chars needed (len elems))).
    + rewrite (filter_none _ (long_hints chars needed (len elems))).
      * pose proof (length_short_hints chars HK needed (len elems) HN Hneeded) as Hlen.
        unfold len in *. cbn [length]. lia.
      * apply Forall_forall. intros s Hs.
        pose proof (length_of_long_hint chars HK _ _ _ Hs). lia.
    + apply Forall_forall. intros s Hs.
      now apply (length_of_short_hint chars HK _ (len elems)).
Qed.

End HintLengths.


(** * The claims about the hint strings *)

(** C1. For N >= 1 elements and an alphabet of K >= 2 distinct characters,
    [_hint_strings] returns exactly N hint strings, one for each element in
    order, pairwise distinct and prefix-free: no hint is a proper prefix of
    another one. The digit count of line 181 comes from the platform's
    logarithm; it has to be off by less than one (the exact count, or one
    more at a power of K), which is what the last hypothesis says. *)
Theorem hint_strings_distinct_prefix_free
    (libm_log : float -> float) {A} (chars : string) (elems : list A) (needed : Z) :
  1 <= len elems -> 2 <= str_len chars -> NoDup (alphabet chars) ->
  needed_digits libm_log (len elems) (str_len chars) = Return needed ->
  str_len chars ^ (needed - 1) <= len elems <= str_len chars ^ needed ->
  exists strings,
    _hint_strings libm_log chars elems = Return strings /\
    length strings = length elems /\
    NoDup strings /\
    prefix_free strings.
Proof.
  intros HN HK Hdistinct Hlog Hneeded.
  destruct (hint_strings_shuffled libm_log chars elems HN HK needed Hlog Hneeded)
    as (strings & Hret & Hperm).
  exists strings. split; [assumption|]. split.
  - now apply (hint_strings_length libm_log chars elems HN HK needed).
  - split.
    + rewrite Hperm. now apply NoDup_ordered_hints.
    + apply (prefix_free_perm _ _ Hperm). now apply prefix_free_ordered_hints.
Qed.

Lemma hint_strings_distinct_prefix_free_witness :
  exists strings,
    _hint_strings glibc_log "ab" [1; 2; 3] = Return strings /\
    length strings = length [1; 2; 3] /\
    NoDup strings /\
    prefix_free strings.
Proof.
  apply (hint_strings_distinct_prefix_free glibc_log "ab" [1; 2; 3] 2).
  - vm_compute. discriminate.
  - vm_compute. discriminate.
  - apply (bool_decide_unpack _). vm_compute. exact I.
  - vm_compute. reflexivity.
  - vm_compute. split; discriminate.
Defined.

(** C2. With d = ceil(log_K N) (d = 1 for N = 1) every hint should have d or
    d - 1 characters. For 125 elements and the five characters "abcde",
    d is 3; the quotient of the two logarithms of line 181 is
    3.0000000000000004 in IEEE double precision, [math.ceil] makes it 4, and
    the code returns 100 hints of 3 characters and 25 hints of 4. *)
Theorem hint_strings_float_overshoot (libm_log : float -> float) :
  libm_log (float_of_int 125) = 0x1.3503179f229e7p+2%float ->
  libm_log (float_of_int 5) = 0x1.9c041f7ed8d33p+0%float ->
  spec_digits 125 5 = 3 /\
  needed_digits libm_log 125 5 = Return 4 /\
  exists strings,
    _hint_strings libm_log "abcde" (repeat tt 125) = Return strings /\
    length (filter (fun s => str_len s = 3) strings) = 100%nat /\
    length (filter (fun s => str_len s = 4) strings) = 25%nat.
Proof.
  intros H125 H5.
  assert (Hneeded : needed_digits libm_log 125 5 = Return 4).
  { unfold needed_digits, math_log, loghelper.
    change (125 <=? 0) with false. change (5 <=? 0) with false. cbv iota.
    rewrite H125, H5. vm_compute. reflexivity. }
  split; [vm_compute; reflexivity|]. split; [assumption|].
  unfold _hint_strings.
  change (len (repeat tt 125)) with 125. change (str_len "abcde") with 5.
  rewrite Hneeded.
  eexists. split; [vm_compute; reflexivity|].
  split; vm_compute; reflexivity.
Qed.

Lemma hint_strings_float_overshoot_witness :
  spec_digits 125 5 = 3 /\
  needed_digits glibc_log 125 5 = Return 4 /\
  exists strings,
    _hint_strings glibc_log "abcde" (repeat tt 125) = Return strings /\
    length (filter (fun s => str_len s = 3) strings) = 100%nat /\
    length (filter (fun s => str_len s = 4) strings) = 25%nat.
Proof.
  apply (hint_strings_float_overshoot glibc_log); vm_compute; reflexivity.
Defined.

(** C3, as stated, fails: for 5 elements and the characters "abc" the hint
    "ca" is returned, and it decodes to 6, which is not below 5. *)
Lemma hint_decode_out_of_range :
  exists strings s,
    _hint_strings glibc_log "abc" [1; 2; 3; 4; 5] = Return strings /\
    s ∈ strings /\
    ~ (0 <= decode "abc" s < len [1; 2; 3; 4; 5]).
Proof.
  exists ["a"; "bc"; "ba"; "ca"; "bb"]%string, "ca"%string.
  split; [vm_compute; reflexivity|]. split.
  - do 3 right. left.
  - vm_compute. intros [_ Hlt]. discriminate Hlt.
Qed.

(** C3, amended. Decoding a hint by inverse base-K digit extraction (each
    character's position in the alphabet is a digit, most significant first)
    gives a number in [0, K ^ needed) (K for a single element), and different
    hints give different numbers. The numbers are not all below N: the long
    hints start at [short_count * K]. *)
Theorem hint_strings_decode
    (libm_log : float -> float) {A} (chars : string) (elems : list A) (needed : Z) :
  1 <= len elems -> 2 <= str_len chars -> NoDup (alphabet chars) ->
  needed_digits libm_log (len elems) (str_len chars) = Return needed ->
  str_len chars ^ (needed - 1) <= len elems <= str_len chars ^ needed ->
  exists strings,
    _hint_strings libm_log chars elems = Return strings /\
    (forall s, s ∈ strings -> 0 <= decode chars s < str_len chars ^ Z.max 1 needed) /\
    (forall s t, s ∈ strings -> t ∈ strings ->
                 decode chars s = decode chars t -> s = t).
Proof.
  intros HN HK Hdistinct Hlog Hneeded.
  destruct (hint_strings_shuffled libm_log chars elems HN HK needed Hlog Hneeded)
    as (strings & Hret & Hperm).
  exists strings. split; [assumption|]. split.
  - intros s Hs. rewrite Hperm in Hs.
    now apply (decode_bound_ordered_hints chars HK Hdistinct needed (len elems)).
  - intros s t Hs Ht. rewrite Hperm in Hs, Ht.
    now apply (decode_inj_ordered_hints chars HK Hdistinct needed (len elems)).
Qed.

Lemma hint_strings_decode_witness :
  exists strings,
    _hint_strings glibc_log "abc" [1; 2; 3; 4; 5] = Return strings /\
    (forall s, s ∈ strings -> 0 <= decode "abc" s < str_len "abc" ^ Z.max 1 2) /\
    (forall s t, s ∈ strings -> t ∈ strings ->
                 decode "abc" s = decode "abc" t -> s = t).
Proof.
  apply (hint_strings_decode glibc_log "abc" [1; 2; 3; 4; 5] 2).
  - vm_compute. discriminate.
  - vm_compute. discriminate.
  - apply (bool_decide_unpack _). vm_compute. exact I.
  - vm_compute. reflexivity.
  - vm_compute. split; discriminate.
Defined.


(** * How the shuffle spreads the hints *)

Open Scope nat_scope.

(** ** Where the shuffle puts the hints *)

(** The hints that go to bucket [j] of [k], from a list whose head has
    index [i]: those at the indices congruent to [j]. *)
Fixpoint pick (k i j : nat) (hints : list string) : list string :=
  match hints with
  | [] => []
  | hint :: hints' =>
      if decide (i mod k = j)%nat then hint :: pick k (S i) j hints'
      else pick k (S i) j hints'
  end.

Lemma shuffle_loop_buckets (i : nat) hints buckets :
  (0 < length buckets)%nat ->
  shuffle_loop (Z.of_nat i) hints buckets
  = Return (imap (fun j b => b ++ pick (length buckets) i j hints) buckets).
Proof.
  revert i buckets. induction hints as [|hint hints IH]; intros i buckets Hk.
  - cbn [shuffle_loop pick]. f_equal. apply list_eq. intros j.
    rewrite list_lookup_imap. destruct (buckets !! j); cbn; [now rewrite app_nil_r | reflexivity].
  - cbn [shuffle_loop]. unfold len. destruct (Z.eqb_spec (Z.of_nat (length buckets)) 0%Z) as [?|_]; [lia|].
    replace (Z.of_nat i + 1)%Z with (Z.of_nat (S i)) by lia.
    rewrite IH by (unfold bucket_append; rewrite length_alter; lia).
    f_equal. unfold bucket_append. rewrite length_alter.
    rewrite <- Nat2Z.inj_mod, Nat2Z.id.
    apply list_eq. intros j. rewrite !list_lookup_imap.
    cbn [pick]. destruct (decide (i mod length buckets = j)%nat) as [->|Hne].
    + rewrite list_lookup_alter_eq. destruct (buckets !! _); cbn; [|reflexivity].
      now rewrite <- app_assoc.
    + rewrite list_lookup_alter_ne by assumption. reflexivity.
Qed.

Lemma pick_app k i j l1 l2 :
  pick k i j (l1 ++ l2) = pick k i j l1 ++ pick k (i + length l1) j l2.
Proof.
  revert i. induction l1 as [|x l1 IH]; intros i; cbn [pick app length].
  - now rewrite Nat.add_0_r.
  - rewrite IH, Nat.add_succ_r. destruct (decide _); reflexivity.
Qed.

Section Buckets.

Variables k j : nat.
Hypothesis Hj : (j < k)%nat.

(** Row [t] of bucket [j] exists exactly when index [j + t * k] does. *)
Lemma length_pick hints t :
  (t < length (pick k 0 j hints))%nat <-> (j + t * k < length hints)%nat.
Proof.
  revert t. induction hints as [|hint hints IH] using rev_ind; intros t.
  - cbn. lia.
  - rewrite pick_app, !length_app. cbn [pick length Nat.add].
    pose proof (Nat.div_mod_eq (length hints) k) as Hdiv.
    pose proof (Nat.mod_upper_bound (length hints) k ltac:(lia)) as Hmod.
    destruct (decide (length hints mod k = j)%nat) as [Heq|Hne]; cbn [length].
    + pose proof (IH (length hints / k)%nat) as H1.
      destruct (Nat.eq_dec (length (pick k 0 j hints)) 0) as [H0|H0].
      * pose proof (IH 0%nat) as H2. nia.
      * pose proof (IH (length (pick k 0 j hints) - 1)%nat) as H2.
        pose proof (IH (length (pick k 0 j hints))) as H3.
        split; intros Ht; nia.
    + pose proof (IH t) as H1.
      assert (j + t * k <> length hints)%nat.
      { intros Heq. apply Hne. rewrite <- Heq.
        rewrite Nat.Div0.mod_add. now apply Nat.mod_small. }
      lia.
Qed.

(** Row [t] of bucket [j] is the hint of index [j + t * k]. *)
Lemma lookup_pick hints t :
  pick k 0 j hints !! t = hints !! (j + t * k).
Proof.
  revert t. induction hints as [|hint hints IH] using rev_ind; intros t.
  - cbn. now rewrite !lookup_nil.
  - pose proof (length_pick hints t) as [Hlen1 Hlen2].
    pose proof (length_pick (hints ++ [hint]) t) as [Hlen1' Hlen2'].
    rewrite pick_app in *. rewrite !length_app in *. cbn [length] in *.
    destruct (decide (t < length (pick k 0 j hints))) as [Hlt|Hge].
    + specialize (Hlen1 Hlt).
      rewrite lookup_app_l by assumption. rewrite lookup_app_l by assumption. apply IH.
    + rewrite lookup_app_r by lia.
      destruct (decide (j + t * k < length hints + 1)) as [Hin|Hout].
      * assert (Heq : j + t * k = length hints) by lia.
        specialize (Hlen2' Hin).
        rewrite (lookup_app_r hints) by lia. rewrite Heq, Nat.sub_diag.
        cbn [pick Nat.add] in *. destruct (decide _); cbn [length] in *; [|lia].
        replace (t - length (pick k 0 j hints)) with 0 by lia. reflexivity.
      * rewrite (lookup_ge_None_2 (hints ++ [hint])) by (rewrite length_app; cbn; lia).
        apply lookup_ge_None_2. lia.
Qed.

End Buckets.

(** The result of [_shuffle_hints]: bucket 0, then bucket 1, and so on. *)
Definition buckets_of (k : nat) (hints : list string) : list (list string) :=
  (fun j => pick k 0 j hints) <$> seq 0 k.

Lemma shuffle_hints_buckets hints (k : nat) :
  (0 < k)%nat ->
  _shuffle_hints hints (Z.of_nat k) = Return (concat (buckets_of k hints)).
Proof.
  intros Hk. unfold _shuffle_hints, range.
  rewrite (shuffle_loop_buckets 0%nat) by (rewrite length_fmap, length_seqZ; lia).
  cbn [mbind outcome_bind]. do 2 f_equal. unfold buckets_of.
  rewrite length_fmap, length_seqZ, Z.sub_0_r, Nat2Z.id.
  apply list_eq. intros j.
  rewrite list_lookup_imap, !list_lookup_fmap.
  destruct (decide (j < k)%nat) as [Hlt|Hge].
  - rewrite lookup_seqZ_lt by lia. rewrite lookup_seq_lt by lia. reflexivity.
  - rewrite lookup_seqZ_ge by lia. rewrite lookup_seq_ge by lia. reflexivity.
Qed.

(** *** Positions in the concatenated buckets *)

(** The position at which bucket [j] starts. *)
Definition offset (buckets : list (list string)) (j : nat) : nat :=
  length (concat (take j buckets)).

Lemma offset_S buckets j b :
  buckets !! j = Some b -> offset buckets (S j) = offset buckets j + length b.
Proof.
  intros Hb. unfold offset. rewrite (take_S_r _ _ _ Hb), concat_app, length_app.
  cbn. now rewrite app_nil_r.
Qed.

Lemma offset_mono buckets j j' : j <= j' -> offset buckets j <= offset buckets j'.
Proof.
  unfold offset. revert j j'.
  induction buckets as [|b buckets IH]; intros j j' Hle.
  - now rewrite !take_nil.
  - destruct j as [|j]; [cbn; lia|]. destruct j' as [|j']; [lia|].
    cbn [take concat]. rewrite !length_app. specialize (IH j j'). lia.
Qed.

Lemma lookup_concat_offset buckets j b t :
  buckets !! j = Some b -> concat buckets !! (offset buckets j + t) = b !! t
  \/ (length b <= t).
Proof.
  intros Hb. destruct (decide (t < length b)) as [Hlt|Hge]; [left | right; lia].
  assert (Hsplit : concat buckets
                   = concat (take j buckets) ++ b ++ concat (drop (S j) buckets)).
  { rewrite <- (take_drop_middle _ _ _ Hb) at 1. now rewrite concat_app. }
  rewrite Hsplit. unfold offset. rewrite lookup_app_r by lia.
  rewrite Nat.add_comm, Nat.add_sub. now rewrite lookup_app_l by assumption.
Qed.

Lemma lookup_concat_inv buckets p x :
  concat buckets !! p = Some x ->
  exists j b t, buckets !! j = Some b /\ b !! t = Some x /\ p = offset buckets j + t.
Proof.
  revert p. induction buckets as [|b0 buckets IH]; intros p; cbn [concat].
  - now rewrite lookup_nil.
  - intros Hp. destruct (decide (p < length b0)) as [Hlt|Hge].
    + rewrite lookup_app_l in Hp by assumption.
      exists 0, b0, p. split; [reflexivity|]. split; [assumption|].
      unfold offset. cbn. lia.
    + rewrite lookup_app_r in Hp by lia.
      destruct (IH _ Hp) as (j & b & t & Hb & Ht & Heq).
      exists (S j), b, t. split; [exact Hb|]. split; [exact Ht|].
      unfold offset in *. cbn [take concat]. rewrite length_app. lia.
Qed.

(** *** Hints with a common property that are next to each other *)

Section Spread.

Variable P : string -> Prop.
Context `{!forall x, Decision (P x)}.

(** The element of index [i] exists and has the property. *)
Definition holds_at (l : list string) (i : nat) : Prop :=
  exists x, l !! i = Some x /\ P x.

(** The property holds on a run of consecutive indices only. *)
Definition convex (l : list string) : Prop :=
  forall i1 i2 i3, i1 <= i2 <= i3 -> holds_at l i1 -> holds_at l i3 -> holds_at l i2.

Lemma convex_tail x l : convex (x :: l) -> convex l.
Proof. intros Hc i1 i2 i3 Hle. apply (Hc (S i1) (S i2) (S i3)). lia. Qed.

Lemma convex_interval l :
  convex l ->
  exists s e, s <= e <= length l /\
              (forall i, holds_at l i <-> s <= i < e) /\
              length (filter P l) = e - s.
Proof.
  induction l as [|x l IH]; intros Hc.
  - exists 0, 0. split; [cbn; lia|]. split; [|reflexivity].
    intros i. split; [|lia]. intros (y & Hy & _). now rewrite lookup_nil in Hy.
  - destruct (IH (convex_tail _ _ Hc)) as (s & e & Hse & Hint & Hlen).
    destruct (decide (P x)) as [Hx|Hx].
    + rewrite filter_cons_True by assumption. cbn [length].
      assert (H0 : holds_at (x :: l) 0) by (exists x; split; [reflexivity | assumption]).
      destruct (decide (s = e)) as [->|Hne].
      * exists 0, 1. split; [cbn [length]; lia|]. split; [|lia]. intros [|i].
        -- split; [lia | intros _; exact H0].
        -- split; [| lia]. intros Hi. apply (Hint i) in Hi. lia.
      * assert (s = 0) as ->.
        { assert (Hs : holds_at (x :: l) (S s)) by (apply (Hint s); lia).
          pose proof (Hc 0 1 (S s) ltac:(lia) H0 Hs) as H1.
          apply (Hint 0) in H1. lia. }
        exists 0, (S e). split; [cbn [length]; lia|]. split; [|lia]. intros [|i].
        -- split; [lia | intros _; exact H0].
        -- rewrite <- (Nat.succ_lt_mono i e). specialize (Hint i).
           unfold holds_at in *. cbn [lookup list_lookup] in *. rewrite Hint. lia.
    + rewrite filter_cons_False by assumption.
      exists (S s), (S e). split; [cbn [length]; lia|]. split; [|lia]. intros [|i].
      * split; [|lia]. intros (y & [= <-] & Hy). contradiction.
      * specialize (Hint i). unfold holds_at in *. cbn [lookup list_lookup] in *.
        rewrite Hint. lia.
Qed.

Variable k : nat.
Hypothesis Hk : 0 < k.
Variable hints : list string.

Lemma lookup_buckets_of j :
  j < k -> buckets_of k hints !! j = Some (pick k 0 j hints).
Proof.
  intros Hj. unfold buckets_of. rewrite list_lookup_fmap, lookup_seq_lt by assumption.
  reflexivity.
Qed.

Lemma div_mod_row j t : j < k -> (j + t * k) mod k = j /\ (j + t * k) / k = t.
Proof.
  intros Hj. split.
  - rewrite Nat.Div0.mod_add. now apply Nat.mod_small.
  - rewrite Nat.div_add by lia. rewrite Nat.div_small by assumption. lia.
Qed.

(** Row [t] of bucket [j], when it exists, is at position
    [offset j + t] of the result. *)
Lemma lookup_shuffled j t :
  j < k -> j + t * k < length hints ->
  concat (buckets_of k hints) !! (offset (buckets_of k hints) j + t)
  = hints !! (j + t * k).
Proof.
  intros Hj Hlt.
  destruct (lookup_concat_offset _ j _ t (lookup_buckets_of j Hj)) as [->|Hge].
  - now apply lookup_pick.
  - apply (length_pick k j Hj) in Hlt. lia.
Qed.

Lemma lookup_shuffled_inv p x :
  concat (buckets_of k hints) !! p = Some x ->
  exists j t, j < k /\ j + t * k < length hints /\
              p = offset (buckets_of k hints) j + t /\
              hints !! (j + t * k) = Some x.
Proof.
  intros Hp. apply lookup_concat_inv in Hp as (j & b & t & Hb & Ht & ->).
  assert (Hj : j < k).
  { apply lookup_lt_Some in Hb. unfold buckets_of in Hb.
    now rewrite length_fmap, length_seq in Hb. }
  rewrite (lookup_buckets_of j Hj) in Hb. injection Hb as <-.
  exists j, t. split; [assumption|]. split.
  - apply (length_pick k j Hj). now apply lookup_lt_Some in Ht.
  - split; [reflexivity|]. now rewrite <- (lookup_pick k j Hj).
Qed.

(** A bucket holds at most [ceil(N / k)] hints. *)
Lemma length_bucket j :
  j < k -> length (pick k 0 j hints) <= (length hints + k - 1) / k.
Proof.
  intros Hj. destruct (length (pick k 0 j hints)) as [|m] eqn:Hm; [lia|].
  assert (Hrow : j + m * k < length hints) by (apply (length_pick k j Hj); lia).
  apply Nat.div_le_lower_bound; nia.
Qed.

End Spread.

Section Gap.

Variable P : string -> Prop.
Context `{!forall x, Decision (P x)}.
Variable k : nat.
Hypothesis Hk : 0 < k.
Variable hints : list string.
Hypothesis Hconvex : convex P hints.
Hypothesis Hcount : k <= length (filter P hints).

Lemma holds_at_shuffled j t :
  j < k -> holds_at P hints (j + t * k) ->
  holds_at P (concat (buckets_of k hints)) (offset (buckets_of k hints) j + t).
Proof.
  intros Hj (x & Hx & HP). exists x. split; [|assumption].
  rewrite lookup_shuffled; [assumption.. |]. now apply lookup_lt_Some in Hx.
Qed.

(** When at least [k] hints have the property and they are consecutive
    before the shuffle, two of them that follow each other in the result
    are at most [ceil(N / k)] positions apart. *)
Lemma shuffled_gap p q :
  p < q ->
  holds_at P (concat (buckets_of k hints)) p ->
  holds_at P (concat (buckets_of k hints)) q ->
  (forall r, p < r < q -> ~ holds_at P (concat (buckets_of k hints)) r) ->
  q - p <= (length hints + k - 1) / k.
Proof.
  intros Hpq Hp Hq Hbetween.
  destruct (convex_interval P hints Hconvex) as (s & e & Hse & Hint & Hlen).
  destruct Hp as (x & Hx & HPx).
  apply lookup_shuffled_inv in Hx as (j & t & Hj & Hrow & -> & Hx).
  destruct Hq as (y & Hy & HPy).
  apply lookup_shuffled_inv in Hy as (j' & t' & Hj' & Hrow' & -> & Hy).
  assert (Hi : s <= j + t * k < e) by (apply Hint; exists x; auto).
  assert (Hi' : s <= j' + t' * k < e) by (apply Hint; exists y; auto).
  set (Bs := buckets_of k hints) in *.
  pose proof (length_bucket k Hk hints j Hj) as Hsize.
  pose proof (proj2 (length_pick k j Hj hints t) Hrow) as Ht.
  pose proof (proj2 (length_pick k j' Hj' hints t') Hrow') as Ht'.
  pose proof (offset_S Bs j _ (lookup_buckets_of k hints j Hj)) as Hoff.
  pose proof (offset_S Bs j' _ (lookup_buckets_of k hints j' Hj')) as Hoff'.
  (* a later hint with the property, at most one bucket further *)
  assert (Hnext : forall g, 0 < g -> holds_at P (concat Bs) (offset Bs j + t + g) ->
                            offset Bs j' + t' - (offset Bs j + t) <= g).
  { intros g Hg Hholds.
    destruct (decide (offset Bs j' + t' <= offset Bs j + t + g)) as [?|Hgt]; [lia|].
    exfalso. apply (Hbetween (offset Bs j + t + g)); [lia | assumption]. }
  destruct (decide (j + t * k + k < e)) as [Hsame|Hlast].
  - (* the next row of the same bucket *)
    assert (Hrow1 : holds_at P (concat Bs) (offset Bs j + (t + 1))).
    { apply holds_at_shuffled; [assumption|]. apply Hint. lia. }
    rewrite Nat.add_assoc in Hrow1. specialize (Hnext 1 ltac:(lia) Hrow1).
    assert (1 <= (length hints + k - 1) / k) by (apply Nat.div_le_lower_bound; lia).
    lia.
  - assert (Hjj : j < j').
    { destruct (decide (j < j')) as [?|Hnlt]; [assumption | exfalso].
      destruct (decide (j' = j)) as [->|Hne]; [nia|].
      pose proof (offset_mono Bs (S j') j ltac:(lia)). lia. }
    destruct (decide (j + t * k + 1 < e)) as [Hmore|Hend].
    + (* the same row of the next bucket *)
      assert (Hrow1 : holds_at P (concat Bs) (offset Bs (S j) + t)).
      { apply holds_at_shuffled; [lia|]. apply Hint. lia. }
      rewrite Hoff in Hrow1.
      replace (offset Bs j + length (pick k 0 j hints) + t)
        with (offset Bs j + t + length (pick k 0 j hints)) in Hrow1 by lia.
      specialize (Hnext (length (pick k 0 j hints)) ltac:(lia) Hrow1). lia.
    + (* the row before, in the next bucket *)
      assert (Ht1 : 1 <= t) by nia.
      assert (Hrow1 : holds_at P (concat Bs) (offset Bs (S j) + (t - 1))).
      { apply holds_at_shuffled; [lia|]. apply Hint. nia. }
      rewrite Hoff in Hrow1.
      replace (offset Bs j + length (pick k 0 j hints) + (t - 1))
        with (offset Bs j + t + (length (pick k 0 j hints) - 1)) in Hrow1 by lia.
      specialize (Hnext (length (pick k 0 j hints) - 1) ltac:(lia) Hrow1). lia.
Qed.

End Gap.

Close Scope nat_scope.

(** ** The leading characters of the ordered hints *)

Definition leading (s : string) : option ascii :=
  match s with
  | String c _ => Some c
  | EmptyString => None
  end.

(** The label begins with [c]. *)
Definition begins_with (c : ascii) (s : string) : Prop := leading s = Some c.

#[global] Instance begins_with_dec c s : Decision (begins_with c s).
Proof. unfold begins_with. apply _. Defined.

Section Leading.

Variable chars : string.
#[local] Abbreviation K := (str_len chars).
Hypothesis HK : 2 <= K.
Hypothesis Hdistinct : NoDup (alphabet chars).

Lemma head_to_digits d n :
  0 <= n < K ^ Z.of_nat (S d) ->
  head (to_digits K (S d) n) = Some (n / K ^ Z.of_nat d).
Proof.
  revert n. induction d as [|d IH]; intros n Hn.
  - cbn. rewrite Z.pow_1_r in Hn. rewrite Z.mod_small, Z.div_1_r by lia. reflexivity.
  - cbn [to_digits] in *. rewrite Nat2Z.inj_succ, Z.pow_succ_r in Hn by lia.
    assert (Hdiv : 0 <= n / K < K ^ Z.of_nat (S d)).
    { split; [apply Z.div_pos; lia | apply Z.div_lt_upper_bound; lia]. }
    specialize (IH (n / K) Hdiv).
    destruct (to_digits K d (n / K / K) ++ [(n / K) mod K]) as [|x l] eqn:Heq;
      [discriminate IH|].
    cbn in IH. injection IH as ->. cbn.
    rewrite Nat2Z.inj_succ, Z.pow_succ_r by lia.
    assert (0 < K ^ Z.of_nat d) by (apply Z.pow_pos_nonneg; lia).
    now rewrite Z.div_div by lia.
Qed.

Lemma leading_encode d n :
  0 <= n < K ^ Z.of_nat (S d) ->
  leading (encode chars (S d) n) = Some (digit_char chars (n / K ^ Z.of_nat d)).
Proof.
  intros Hn. unfold encode. pose proof (head_to_digits d n Hn) as Hhead.
  destruct (to_digits K (S d) n) as [|x l]; [discriminate Hhead|].
  cbn in Hhead. injection Hhead as ->. reflexivity.
Qed.

Variables needed n : Z.
Hypothesis Hn : 1 <= n.
Hypothesis Hneeded : K ^ (needed - 1) <= n <= K ^ needed.

#[local] Abbreviation sc := (short_count chars needed n).

(** The value of the first digit of the hint of index [i]. *)
Definition lead_value (i : nat) : Z :=
  if Z.of_nat i <? sc then Z.of_nat i / K ^ (needed - 2)
  else (sc * K + (Z.of_nat i - sc)) / K ^ (Z.max 1 needed - 1).

Lemma lookup_ordered_hints i s :
  ordered_hints chars needed n !! i = Some s ->
  if Z.of_nat i <? sc then 1 < needed /\ s = encode chars (Z.to_nat (needed - 1)) (Z.of_nat i)
  else Z.of_nat i < n /\
       s = encode chars (Z.to_nat (Z.max 1 needed)) (sc * K + (Z.of_nat i - sc)).
Proof.
  destruct (short_count_bounds chars HK needed n Hn Hneeded) as (Hsc0 & Hscn & _ & _ & Hzero).
  pose proof (length_short_hints chars HK needed n Hn Hneeded) as Hlen.
  unfold len in Hlen. unfold ordered_hints.
  destruct (Z.ltb_spec (Z.of_nat i) sc) as [Hlt|Hge].
  - rewrite lookup_app_l by lia. intros Hs. split; [lia|].
    unfold short_hints in Hs. destruct (Z.ltb_spec 1 needed) as [_|?]; [|lia].
    rewrite list_lookup_fmap in Hs. unfold range in Hs.
    rewrite lookup_seqZ_lt in Hs by lia. cbn in Hs. injection Hs as <-. f_equal. 
  - rewrite lookup_app_r by lia. unfold long_hints, range. intros Hs.
    rewrite list_lookup_fmap in Hs.
    destruct (decide (Z.of_nat (i - length (short_hints chars needed n)) < n - sc)) as [Hin|Hout].
    + rewrite lookup_seqZ_lt in Hs by lia. cbn in Hs. injection Hs as <-.
      split; [lia|]. f_equal. lia.
    + rewrite lookup_seqZ_ge in Hs by lia. discriminate Hs.
Qed.

Lemma leading_ordered_hints i s :
  ordered_hints chars needed n !! i = Some s ->
  leading s = Some (digit_char chars (lead_value i)) /\ 0 <= lead_value i < K.
Proof.
  destruct (short_count_bounds chars HK needed n Hn Hneeded) as (Hsc0 & Hscn & Hlong & Hshort & Hzero).
  intros Hs. apply lookup_ordered_hints in Hs. unfold lead_value.
  assert (Hnn : 0 <= needed) by (eapply needed_nonneg; eassumption).
  destruct (Z.ltb_spec (Z.of_nat i) sc) as [Hlt|Hge].
  - destruct Hs as [H1 ->].
    assert (Hpow : K ^ (needed - 1) = K * K ^ (needed - 2)).
    { replace (needed - 1) with (Z.succ (needed - 2)) by lia. apply Z.pow_succ_r. lia. }
    assert (Hpos : 0 < K ^ (needed - 2)) by (apply Z.pow_pos_nonneg; lia).
    replace (Z.to_nat (needed - 1)) with (S (Z.to_nat (needed - 2))) by lia.
    rewrite leading_encode.
    + rewrite Z2Nat.id by lia. split; [reflexivity|].
      split; [apply Z.div_pos; lia | apply Z.div_lt_upper_bound; nia].
    + rewrite Nat2Z.inj_succ, Z2Nat.id by lia.
      replace (Z.succ (needed - 2)) with (needed - 1) by lia. specialize (Hshort H1). lia.
  - destruct Hs as [Hin ->].
    assert (Hpow : K ^ Z.max 1 needed = K * K ^ (Z.max 1 needed - 1)).
    { replace (Z.max 1 needed) with (Z.succ (Z.max 1 needed - 1)) at 1 by lia.
      apply Z.pow_succ_r. lia. }
    assert (Hpos : 0 < K ^ (Z.max 1 needed - 1)) by (apply Z.pow_pos_nonneg; lia).
    replace (Z.to_nat (Z.max 1 needed)) with (S (Z.to_nat (Z.max 1 needed - 1))) by lia.
    rewrite leading_encode.
    + rewrite Z2Nat.id by lia. split; [reflexivity|].
      split; [apply Z.div_pos; nia | apply Z.div_lt_upper_bound; nia].
    + rewrite Nat2Z.inj_succ, Z2Nat.id by lia.
      replace (Z.succ (Z.max 1 needed - 1)) with (Z.max 1 needed) by lia. nia.
Qed.

Lemma lead_value_mono i i' :
  (i <= i')%nat -> Z.of_nat i' < n -> lead_value i <= lead_value i'.
Proof.
  destruct (short_count_bounds chars HK needed n Hn Hneeded) as (Hsc0 & Hscn & Hlong & Hshort & Hzero).
  assert (Hnn : 0 <= needed) by (eapply needed_nonneg; eassumption).
  intros Hle Hin. unfold lead_value.
  destruct (Z.ltb_spec (Z.of_nat i) sc) as [Hlt|Hge];
    destruct (Z.ltb_spec (Z.of_nat i') sc) as [Hlt'|Hge']; try lia.
  - assert (0 < K ^ (needed - 2)) by (apply Z.pow_pos_nonneg; lia).
    apply Z.div_le_mono; lia.
  - assert (H1 : 1 < needed) by lia.
    assert (Hpos : 0 < K ^ (needed - 2)) by (apply Z.pow_pos_nonneg; lia).
    rewrite Z.max_r by lia.
    replace (needed - 1) with (Z.succ (needed - 2)) by lia.
    rewrite Z.pow_succ_r by lia.
    transitivity (sc / K ^ (needed - 2)); [apply Z.div_le_mono; lia|].
    rewrite <- (Z.div_mul_cancel_l sc (K ^ (needed - 2)) K) by lia.
    apply Z.div_le_mono; [nia | nia].
  - assert (0 < K ^ (Z.max 1 needed - 1)) by (apply Z.pow_pos_nonneg; lia).
    apply Z.div_le_mono; lia.
Qed.

(** Before the shuffle, the hints that begin with [c] are consecutive. *)
Lemma convex_ordered_hints c :
  convex (begins_with c) (ordered_hints chars needed n).
Proof.
  intros i1 i2 i3 Hle (s1 & Hs1 & Hc1) (s3 & Hs3 & Hc3).
  pose proof (length_ordered_hints chars HK needed n Hn Hneeded) as Hlen. unfold len in Hlen.
  pose proof (lookup_lt_Some _ _ _ Hs3) as Hi3.
  destruct (lookup_lt_is_Some_2 (ordered_hints chars needed n) i2 ltac:(lia)) as [s2 Hs2].
  exists s2. split; [assumption|].
  destruct (leading_ordered_hints _ _ Hs1) as [Hl1 Hv1].
  destruct (leading_ordered_hints _ _ Hs2) as [Hl2 Hv2].
  destruct (leading_ordered_hints _ _ Hs3) as [Hl3 Hv3].
  unfold begins_with in *. rewrite Hl1 in Hc1. rewrite Hl3 in Hc3. rewrite Hl2.
  injection Hc1 as Hc1. injection Hc3 as Hc3.
  assert (Heq : lead_value i1 = lead_value i3).
  { rewrite <- (char_pos_digit chars Hdistinct (lead_value i1)) by assumption.
    rewrite <- (char_pos_digit chars Hdistinct (lead_value i3)) by assumption.
    now rewrite Hc1, Hc3. }
  pose proof (lead_value_mono i1 i2 ltac:(lia) ltac:(lia)).
  pose proof (lead_value_mono i2 i3 ltac:(lia) ltac:(lia)).
  replace (lead_value i2) with (lead_value i1) by lia. now rewrite Hc1.
Qed.

End Leading.

(** The positions of the hints that begin with [c]. *)
Definition positions (c : ascii) (strings : list string) : list nat :=
  (filter (fun item => begins_with c item.2) (imap pair strings)).*1.

(** C4, as stated, fails on both counts. For 10 elements and the characters
    "abc" the two hints that begin with "c" are at the positions 3 and 9 of
    the result, 6 apart, and ceil(10 / 3) + 1 is 5. For 4 elements (more
    than the 3 characters) the hints that begin with "b" are at the
    positions 1, 2 and 3, next to each other. *)
Lemma hint_spread_counterexample :
  exists strings10 strings4,
    _hint_strings glibc_log "abc" (repeat tt 10) = Return strings10 /\
    positions "c" strings10 = [3; 9]%nat /\
    (10 + 3 - 1) / 3 + 1 < 9 - 3 /\
    _hint_strings glibc_log "abc" (repeat tt 4) = Return strings4 /\
    positions "b" strings4 = [1; 2; 3]%nat /\
    3 < len (repeat tt 4).
Proof.
  eexists. eexists.
  split; [vm_compute; reflexivity|]. split; [vm_compute; reflexivity|].
  split; [vm_compute; reflexivity|].
  split; [vm_compute; reflexivity|]. split; [vm_compute; reflexivity|].
  vm_compute; reflexivity.
Qed.

(** C4, amended. In the final (shuffled) output, for a leading character c
    that at least K of the hints begin with, two hints beginning with c that
    follow each other (no other hint beginning with c between them) are at
    most ceil(N / K) positions apart. A character with fewer than K hints
    can have a larger gap, and the hints of one character can be
    contiguous. *)
Theorem hint_strings_spread
    (libm_log : float -> float) {A} (chars : string) (elems : list A) (needed : Z)
    (strings : list string) (c : ascii) (p q : nat) :
  1 <= len elems -> 2 <= str_len chars -> NoDup (alphabet chars) ->
  needed_digits libm_log (len elems) (str_len chars) = Return needed ->
  str_len chars ^ (needed - 1) <= len elems <= str_len chars ^ needed ->
  _hint_strings libm_log chars elems = Return strings ->
  str_len chars <= len (filter (begins_with c) strings) ->
  (p < q)%nat ->
  holds_at (begins_with c) strings p ->
  holds_at (begins_with c) strings q ->
  (forall r, (p < r < q)%nat -> ~ holds_at (begins_with c) strings r) ->
  Z.of_nat q - Z.of_nat p <= (len elems + str_len chars - 1) / str_len chars.
Proof.
  intros HN HK Hdistinct Hlog Hneeded Hret Hcount Hpq Hp Hq Hbetween.
  unfold _hint_strings in Hret. rewrite Hlog in Hret. cbn [mbind outcome_bind] in Hret.
  rewrite (hint_strings_from_ordered chars HK needed _ HN Hneeded) in Hret.
  destruct (shuffle_hints_perm (ordered_hints chars needed (len elems)) (str_len chars)
              ltac:(lia)) as (l & Hl & Hperm).
  assert (l = strings) as -> by congruence. clear Hl.
  unfold str_len in Hret.
  rewrite shuffle_hints_buckets in Hret by (unfold str_len in HK; lia).
  injection Hret as <-.
  pose proof (length_ordered_hints chars HK needed _ HN Hneeded) as Hlen.
  assert (Hk : (0 < String.length chars)%nat) by (unfold str_len in HK; lia).
  pose proof (shuffled_gap (begins_with c) (String.length chars) Hk
                (ordered_hints chars needed (len elems))
                (convex_ordered_hints chars HK Hdistinct needed _ HN Hneeded c)) as Hgap.
  unfold len, str_len in Hcount, Hlen. rewrite Hperm in Hcount.
  specialize (Hgap ltac:(lia) p q Hpq Hp Hq Hbetween).
  apply Nat2Z.inj_le in Hgap. rewrite Nat2Z.inj_sub in Hgap by lia.
  rewrite Nat2Z.inj_div, Nat2Z.inj_sub, Nat2Z.inj_add in Hgap by lia.
  unfold len, str_len in *. rewrite Hlen in Hgap. exact Hgap.
Qed.

Lemma hint_strings_spread_witness :
  exists strings,
    _hint_strings glibc_log "abc" (repeat tt 10) = Return strings /\
    positions "b" strings = [1; 2; 5; 6; 8]%nat /\
    Z.of_nat 5 - Z.of_nat 2 <= (len (repeat tt 10) + str_len "abc" - 1) / str_len "abc".
Proof.
  exists ["aa"; "ba"; "bcb"; "cab"; "ab"; "bb"; "bcc"; "ac"; "bca"; "caa"]%string.
  split; [vm_compute; reflexivity|]. split; [vm_compute; reflexivity|].
  apply (hint_strings_spread glibc_log "abc" (repeat tt 10) 3
           ["aa"; "ba"; "bcb"; "cab"; "ab"; "bb"; "bcc"; "ac"; "bca"; "caa"]%string "b" 2 5).
  - vm_compute. discriminate.
  - vm_compute. discriminate.
  - apply (bool_decide_unpack _). vm_compute. exact I.
  - vm_compute. reflexivity.
  - vm_compute. split; discriminate.
  - vm_compute. reflexivity.
  - vm_compute. discriminate.
  - lia.
  - eexists. split; [vm_compute; reflexivity | reflexivity].
  - eexists. split; [vm_compute; reflexivity | reflexivity].
  - intros r Hr (x & Hx & Hb).
    assert (r = 3 \/ r = 4)%nat as [->| ->] by lia;
      vm_compute in Hx; injection Hx as <-; discriminate Hb.
Defined.


(** * The claims about the hint manager *)

Section ManagerClaims.

Context `{Env}.

(** C5, amended. For a session that is hinting: [fire] with a string that is
    not a key of the mapping raises [KeyError] and leaves the session as it
    is. With a key of the mapping, if the target requires a link and the
    element has no [href], nothing is dispatched and the session is left as
    it is; otherwise the element is dispatched according to the target, and
    unless the target is "rapid" [stop] clears the mapping and the session
    is inactive, while in rapid mode the session is unchanged. *)
Theorem fire_active (s : HintManager) frame target baseurl keystr :
  _frame s = Some frame -> _target s = Some target -> _baseurl s = Some baseurl ->
  (_elems s !! keystr = None -> fire keystr s = Run (Raise KeyError) s []) /\
  (forall t, _elems s !! keystr = Some t ->
     let missing := is_in (Some target) require_link
                    && String.eqb (attribute (elem t) "href") EmptyString in
     (missing = true ->
      fire keystr s
      = Run (Return tt) s [message_error "No suitable link found for this element."]) /\
     (missing = false ->
      result (fire keystr s) = Return tt /\
      effects (fire keystr s)
      = action_effects frame target (elem t) (link_of baseurl (elem t))
        ++ (if String.eqb target "rapid" then [] else stop_effects s frame) /\
      (target = "rapid"%string -> manager (fire keystr s) = s) /\
      (target <> "rapid"%string -> Inactive (manager (fire keystr s))))).
Proof.
  intros Hf Ht Hb. split; [apply fire_unknown|].
  intros t Hk missing. split; intros Hmiss; subst missing.
  - apply andb_true_iff in Hmiss as [Hreq Hhref].
    apply String.eqb_eq in Hhref. apply (fire_no_link s keystr t Hk); [|assumption].
    now rewrite Ht.
  - rewrite (fire_dispatches s keystr t frame target baseurl Hf Ht Hb Hk).
    + cbn [result effects manager]. split; [reflexivity|]. split; [reflexivity|].
      split.
      * intros ->. reflexivity.
      * intros Hne. apply String.eqb_neq in Hne. rewrite Hne.
        unfold Inactive, stopped. cbn [_elems _frame _target]. tauto.
    + intros Hreq Hhref. rewrite Hreq, Hhref in Hmiss. discriminate Hmiss.
Qed.

(** C6. After [handle_partial_key(typed)] the mapping holds exactly the pairs
    it held before whose label starts with [typed]. The call returns without
    an error and touches nothing else: frame, target and base URL are the
    same and no [set_mode] is emitted, so a hinting session stays a hinting
    session, also when the mapping has become empty. *)
Theorem handle_partial_key_prunes (s : HintManager) (typed : string) :
  let r := handle_partial_key typed s in
  result r = Return tt /\
  (forall k v, _elems (manager r) !! k = Some v
               <-> _elems s !! k = Some v /\ startswith k typed = true) /\
  _frame (manager r) = _frame s /\
  _target (manager r) = _target s /\
  _baseurl (manager r) = _baseurl s /\
  (forall mode, emit_set_mode mode ∉ effects r) /\
  (Active s -> Active (manager r)).
Proof.
  destruct (handle_partial_key_spec s typed) as (elems' & Hrun & Hlookup).
  cbv zeta. rewrite Hrun. cbn [result manager effects _elems _frame _target _baseurl].
  split; [reflexivity|]. split.
  - intros k v. rewrite Hlookup. destruct (startswith k typed).
    + tauto.
    + split; [discriminate | intros [_ Hfalse]; discriminate Hfalse].
  - split; [reflexivity|]. split; [reflexivity|]. split; [reflexivity|]. split.
    + intros mode Hin. apply list_elem_of_fmap in Hin as ([k t] & Heq & _).
      unfold partial_key_effect in Heq. destruct (startswith k typed); discriminate Heq.
    + unfold Active. cbn [_frame _target _baseurl]. tauto.
Qed.

(** C7, amended. [start] on a page where the mode selects no visible element
    reports "No elements found." through [message.error] and returns; it
    raises nothing, emits neither [hint_strings_updated] nor [set_mode], and
    leaves the mapping as it was. The attributes [_frame], [_target] and
    [_baseurl] have been assigned before the elements are looked for, and
    keep the arguments of the call. *)
Theorem start_without_targets (s : HintManager) frame baseurl mode target :
  is_Some (dict_get SELECTORS mode) -> visible_elems frame mode = [] ->
  let r := start frame baseurl mode target s in
  result r = Return tt /\
  effects r = [message_error "No elements found."] /\
  _elems (manager r) = _elems s /\
  _frame (manager r) = Some frame /\
  _target (manager r) = Some target /\
  _baseurl (manager r) = Some baseurl.
Proof.
  intros Hmode Hvis. cbv zeta.
  rewrite (start_no_elements s frame baseurl mode target Hmode Hvis).
  cbn [result manager effects _elems _frame _target _baseurl]. tauto.
Qed.

(** C8, amended. In rapid mode a successful [fire] leaves the manager as it
    is: the mapping after it is the mapping before it, that is the one
    [handle_partial_key] has pruned so far. [handle_partial_key] only
    removes pairs, and the manager has this one mapping only; the mapping
    built at [start] is not kept anywhere. *)
Theorem rapid_fire_keeps_live_mapping (s : HintManager) frame keystr t typed :
  _target s = Some "rapid"%string -> _frame s = Some frame ->
  _elems s !! keystr = Some t ->
  result (fire keystr s) = Return tt /\
  manager (fire keystr s) = s /\
  _elems (manager (handle_partial_key typed s)) ⊆ _elems s /\
  forall k, startswith k typed = false ->
            _elems (manager (handle_partial_key typed s)) !! k = None.
Proof.
  intros Ht Hf Hk. rewrite (fire_rapid s keystr t frame Ht Hf Hk).
  cbn [result manager]. split; [reflexivity|]. split; [reflexivity|].
  destruct (handle_partial_key_spec s typed) as (elems' & Hrun & Hlookup).
  rewrite Hrun. cbn [manager _elems]. split.
  - apply map_subseteq_spec. intros k v. rewrite Hlookup.
    destruct (startswith k typed); [tauto | discriminate].
  - intros k Hst. now rewrite Hlookup, Hst.
Qed.

(** C9, amended. [stop] while a frame is recorded removes the labels, clears
    the mapping, forgets target and frame and emits [set_mode("normal")]: the
    session is inactive. Without a frame, as after [__init__] or after a
    first [stop], it raises [AttributeError] and changes no attribute. *)
Theorem stop_spec (s : HintManager) :
  match _frame s with
  | Some frame =>
      stop s = Run (Return tt) (stopped s) (stop_effects s frame) /\
      Inactive (manager (stop s))
  | None =>
      result (stop s) = Raise AttributeError /\ manager (stop s) = s
  end.
Proof.
  destruct (_frame s) as [frame|] eqn:Hf.
  - rewrite (stop_hinting s frame Hf). split; [reflexivity|].
    unfold Inactive, stopped. cbn [manager _elems _frame _target]. tauto.
  - rewrite (stop_without_frame s Hf). split; reflexivity.
Qed.

(** C10. When the target is one that requires a link ("yank",
    "yank_primary", "cmd", "cmd_tab", "cmd_bgtab") and the fired element
    has no [href], [fire] on a label of the mapping dispatches nothing,
    raises nothing and leaves the manager, mapping included, as it is; it
    reports "No suitable link found for this element.". *)
Theorem fire_requires_link (s : HintManager) keystr t target :
  _target s = Some target -> target ∈ require_link ->
  _elems s !! keystr = Some t -> attribute (elem t) "href" = EmptyString ->
  fire keystr s
  = Run (Return tt) s [message_error "No suitable link found for this element."].
Proof.
  intros Ht Hreq Hk Hhref. apply (fire_no_link s keystr t Hk); [|assumption].
  rewrite Ht. cbn [is_in]. apply existsb_exists. exists target.
  split; [now apply list_elem_of_In | apply String.eqb_refl].
Qed.

End ManagerClaims.


(** * A page, and the sessions of the examples *)

Section Examples.

Open Scope string_scope.

(** URLs as plain strings: absolute when they start with "http". *)
Definition example_env : Env := {|
  QUrl := string;
  qurl := id;
  url_scheme := fun u => if String.prefix "javascript:" u then "javascript" else "http";
  isRelative := fun u => negb (String.prefix "http" u);
  resolved := fun baseurl link => baseurl ++ link;
  urlstring := id;
  env_log := glibc_log;
  hints_chars := "ab"
|}.

#[local] Existing Instance example_env.

Definition box (x y : Z) : QRect :=
  {| rect_x := x; rect_y := y; rect_width := 100; rect_height := 20 |}.

(** [<a href="http://example.org/next">], [<img src="logo.png">] and
    [<a name="top">]. *)
Definition link_elem : QWebElement :=
  {| attributes := {[ "href" := "http://example.org/next" ]}; geometry := box 10 10 |}.

Definition img_elem : QWebElement :=
  {| attributes := {[ "src" := "logo.png" ]}; geometry := box 10 40 |}.

Definition anchor_elem : QWebElement :=
  {| attributes := {[ "name" := "top" ]}; geometry := box 10 70 |}.

(** A frame of 800 x 600 showing the given [a] and [img] elements. *)
Definition page (links imgs : list QWebElement) : QWebFrame := {|
  findAllElements := fun selector =>
    if String.eqb selector "a" then links
    else if String.eqb selector "img" then imgs
    else if String.prefix "a, " selector then (links ++ imgs)%list
    else [];
  frame_geometry := {| rect_x := 0; rect_y := 0; rect_width := 800; rect_height := 600 |};
  scrollPosition := {| point_x := 0; point_y := 0 |}
|}.

(** The manager after [start] on such a page, from [__init__]. *)
Definition hinting (links imgs : list QWebElement) (mode target : string)
    : HintManager :=
  manager (start (page links imgs) "http://example.org/" mode target init).

Example start_link_and_image :
  let r := start (page [link_elem] [img_elem]) "http://example.org/" "all" "normal" init in
  result r = Return tt /\ dom (_elems (manager r)) = {[ "a"; "b" ]} /\
  (elem <$> _elems (manager r) !! "a") = Some link_elem /\
  (elem <$> _elems (manager r) !! "b") = Some img_elem.
Proof. vm_compute. repeat split; reflexivity. Qed.

(** The scenario of the specification. *)
Example prune_then_fire :
  let r0 := start (page [link_elem; anchor_elem] [img_elem]) "http://example.org/"
              "all" "normal" init in
  let r1 := handle_partial_key "a" (manager r0) in
  let r2 := fire "aa" (manager r1) in
  dom (_elems (manager r0)) = {[ "aa"; "ba"; "ab" ]} /\
  dom (_elems (manager r1)) = {[ "aa"; "ab" ]} /\
  (elem <$> _elems (manager r1) !! "aa") = Some link_elem /\
  result r2 = Return tt /\ Inactive (manager r2).
Proof. vm_compute. repeat split; reflexivity. Qed.

End Examples.

Section ManagerWitnesses.

Open Scope string_scope.

#[local] Existing Instance example_env.

(** C5, as stated, fails: with the target "yank" and the element
    [<a name="top">], which has no [href], [fire] on its label returns
    without dispatching anything and without [stop]: the session is still
    hinting, its mapping is not cleared, and the target is not "rapid". *)
Lemma fire_yank_without_href_stays :
  let s := hinting [anchor_elem] [] "all" "yank" in
  Active s /\
  (elem <$> _elems s !! "a") = Some anchor_elem /\
  _target s <> Some "rapid" /\
  fire "a" s
  = Run (Return tt) s [message_error "No suitable link found for this element."] /\
  ~ Inactive (manager (fire "a" s)).
Proof.
  cbv zeta. split.
  { unfold Active. repeat split; vm_compute; eexists; reflexivity. }
  split; [vm_compute; reflexivity|].
  split; [vm_compute; discriminate|].
  split; [vm_compute; reflexivity|].
  intros [Hempty _]. apply (f_equal (fun m => elem <$> m !! "a")) in Hempty.
  vm_compute in Hempty. discriminate Hempty.
Qed.

Lemma fire_active_witness :
  let s := hinting [link_elem] [img_elem] "all" "tab" in
  _frame s = Some (page [link_elem] [img_elem]) /\
  _target s = Some "tab" /\
  _baseurl s = Some "http://example.org/" /\
  fire "zz" s = Run (Raise KeyError) s [] /\
  result (fire "a" s) = Return tt /\
  Inactive (manager (fire "a" s)).
Proof.
  cbv zeta.
  assert (Hf : _frame (hinting [link_elem] [img_elem] "all" "tab")
               = Some (page [link_elem] [img_elem])) by (vm_compute; reflexivity).
  assert (Ht : _target (hinting [link_elem] [img_elem] "all" "tab") = Some "tab")
    by (vm_compute; reflexivity).
  assert (Hb : _baseurl (hinting [link_elem] [img_elem] "all" "tab")
               = Some "http://example.org/") by (vm_compute; reflexivity).
  split; [exact Hf|]. split; [exact Ht|]. split; [exact Hb|]. split.
  - apply (fire_active _ _ _ _ "zz" Hf Ht Hb). vm_compute. reflexivity.
  - destruct (fire_active _ _ _ _ "a" Hf Ht Hb) as [_ Hfire].
    assert (Hk : _elems (hinting [link_elem] [img_elem] "all" "tab") !! "a"
                 = Some {| elem := link_elem;
                           label := {| label_left := 10; label_top := 10;
                                       label_text := "a" |} |})
      by (vm_compute; reflexivity).
    destruct (Hfire _ Hk) as [_ Hdispatch].
    assert (Hlink : is_in (Some "tab") require_link
                    && String.eqb (attribute (elem {| elem := link_elem;
                           label := {| label_left := 10; label_top := 10;
                                       label_text := "a" |} |}) "href") EmptyString = false)
      by (vm_compute; reflexivity).
    destruct (Hdispatch Hlink) as (Hres & _ & _ & Hinactive).
    split; [exact Hres|]. apply Hinactive. discriminate.
Defined.

(** C7, as stated, fails: [start] on a page without elements returns
    normally, and the manager is not the one it was called on: the frame,
    the target and the base URL of the call are in it. *)
Lemma start_no_elements_changes_fields :
  let r := start (page [] []) "http://example.org/" "all" "normal" init in
  visible_elems (page [] []) "all" = [] /\
  result r = Return tt /\
  manager r <> init /\
  _frame (manager r) = Some (page [] []) /\
  _target (manager r) = Some "normal" /\
  _baseurl (manager r) = Some "http://example.org/".
Proof.
  cbv zeta. split; [vm_compute; reflexivity|]. split; [vm_compute; reflexivity|].
  split; [|vm_compute; repeat split; reflexivity].
  intros Heq. apply (f_equal _target) in Heq. vm_compute in Heq. discriminate Heq.
Qed.

Lemma start_without_targets_witness :
  let r := start (page [] []) "http://example.org/" "links" "tab" init in
  is_Some (dict_get SELECTORS "links") /\
  visible_elems (page [] []) "links" = [] /\
  result r = Return tt /\
  effects r = [message_error "No elements found."] /\
  _elems (manager r) = _elems init /\
  _frame (manager r) = Some (page [] []) /\
  _target (manager r) = Some "tab" /\
  _baseurl (manager r) = Some "http://example.org/".
Proof.
  cbv zeta.
  assert (Hmode : is_Some (dict_get SELECTORS "links")) by (vm_compute; eauto).
  assert (Hvis : visible_elems (page [] []) "links" = []) by (vm_compute; reflexivity).
  split; [exact Hmode|]. split; [exact Hvis|].
  exact (start_without_targets init (page [] []) "http://example.org/" "links" "tab"
           Hmode Hvis).
Defined.

(** C8, as stated, fails: the manager keeps no second mapping. Two rapid
    sessions on the same page, one started on all elements and one on the
    links only, build different mappings at [start]; after
    [handle_partial_key("a")] and [fire("a")] the two managers are equal, so
    nothing in the manager tells which mapping was built at [start]: the
    pair for "b" is gone. *)
Lemma rapid_no_full_mapping :
  let all := hinting [link_elem] [img_elem] "all" "rapid" in
  let links := hinting [link_elem] [img_elem] "links" "rapid" in
  let refire s := fire "a" (manager (handle_partial_key "a" s)) in
  dom (_elems all) = {[ "a"; "b" ]} /\
  dom (_elems links) = {[ "a" ]} /\
  result (refire all) = Return tt /\
  result (refire links) = Return tt /\
  manager (refire all) = manager (refire links) /\
  _elems (manager (refire all)) !! "b" = None.
Proof. cbv zeta. vm_compute. repeat split; reflexivity. Qed.

Lemma rapid_fire_keeps_live_mapping_witness :
  let s := hinting [link_elem] [img_elem] "all" "rapid" in
  _target s = Some "rapid" /\
  _frame s = Some (page [link_elem] [img_elem]) /\
  (elem <$> _elems s !! "b") = Some img_elem /\
  result (fire "b" s) = Return tt /\
  manager (fire "b" s) = s /\
  _elems (manager (handle_partial_key "a" s)) ⊆ _elems s /\
  forall k, startswith k "a" = false ->
            _elems (manager (handle_partial_key "a" s)) !! k = None.
Proof.
  cbv zeta.
  assert (Ht : _target (hinting [link_elem] [img_elem] "all" "rapid") = Some "rapid")
    by (vm_compute; reflexivity).
  assert (Hf : _frame (hinting [link_elem] [img_elem] "all" "rapid")
               = Some (page [link_elem] [img_elem])) by (vm_compute; reflexivity).
  assert (Hk : _elems (hinting [link_elem] [img_elem] "all" "rapid") !! "b"
               = Some {| elem := img_elem;
                         label := {| label_left := 10; label_top := 40;
                                     label_text := "b" |} |})
    by (vm_compute; reflexivity).
  split; [exact Ht|]. split; [exact Hf|]. split; [now rewrite Hk|].
  exact (rapid_fire_keeps_live_mapping _ _ "b" _ "a" Ht Hf Hk).
Defined.

(** C9, as stated, fails: [stop] on the manager [__init__] has built, which
    is inactive, is no no-op: [self._frame] is [None] and the call raises
    [AttributeError]. *)
Lemma stop_inactive_raises :
  Inactive init /\ result (stop init) = Raise AttributeError.
Proof. split; [unfold Inactive; cbn; tauto | vm_compute; reflexivity]. Qed.

Lemma fire_requires_link_witness :
  let s := hinting [anchor_elem] [] "all" "cmd_tab" in
  _target s = Some "cmd_tab" /\
  "cmd_tab" ∈ require_link /\
  (elem <$> _elems s !! "a") = Some anchor_elem /\
  attribute anchor_elem "href" = EmptyString /\
  fire "a" s
  = Run (Return tt) s [message_error "No suitable link found for this element."].
Proof.
  cbv zeta.
  assert (Ht : _target (hinting [anchor_elem] [] "all" "cmd_tab") = Some "cmd_tab")
    by (vm_compute; reflexivity).
  assert (Hreq : "cmd_tab" ∈ require_link)
    by (apply (bool_decide_unpack _); vm_compute; exact I).
  assert (Hk : _elems (hinting [anchor_elem] [] "all" "cmd_tab") !! "a"
               = Some {| elem := anchor_elem;
                         label := {| label_left := 10; label_top := 70;
                                     label_text := "a" |} |})
    by (vm_compute; reflexivity).
  assert (Hhref : attribute anchor_elem "href" = EmptyString) by (vm_compute; reflexivity).
  split; [exact Ht|]. split; [exact Hreq|]. split; [now rewrite Hk|].
  split; [exact Hhref|].
  exact (fire_requires_link _ "a" _ "cmd_tab" Ht Hreq Hk Hhref).
Defined.

End ManagerWitnesses.


(** * Further properties of the hint strings *)

(** ** [_number_to_hint_str] on any number *)

Section AnyNumber.

Variable chars : string.
Hypothesis HK : 2 <= str_len chars.

(** The string of a number is its numeral with as many digits as it takes:
    [max 1 digits] of them when the number fits, the shortest numeral
    otherwise. *)
Lemma number_to_hint_str_numeral n digits :
  0 <= n ->
  exists d : nat,
    (1 <= d)%nat /\ digits <= Z.of_nat d /\ n < str_len chars ^ Z.of_nat d /\
    (Z.of_nat d = Z.max 1 digits \/
     (Z.max 1 digits < Z.of_nat d /\ str_len chars ^ (Z.of_nat d - 1) <= n)) /\
    _number_to_hint_str n chars digits = Return (encode chars d n).
Proof.
  intros Hn.
  destruct (Z.lt_ge_cases n (str_len chars ^ Z.max 1 digits)) as [Hfit|Hbig].
  - exists (Z.to_nat (Z.max 1 digits)).
    rewrite Z2Nat.id by lia. repeat split; [lia | lia | assumption | now left |].
    now apply number_to_hint_str_spec.
  - unfold _number_to_hint_str.
    destruct (number_loop_spec chars HK (S (Z.to_nat n)) n []) as (m & Hm & Hlt & Hmin & ->);
      [lia | lia |].
    assert (Hmd : Z.max 1 digits < Z.of_nat m).
    { destruct (Z.lt_ge_cases (Z.max 1 digits) (Z.of_nat m)) as [?|Hle]; [assumption|].
      assert (str_len chars ^ Z.of_nat m <= str_len chars ^ Z.max 1 digits)
        by (apply Z.pow_le_mono_r; lia).
      lia. }
    exists m. repeat split; [assumption | lia | assumption | |].
    + right. split; [assumption|]. destruct Hmin as [-> | Hmin]; [lia | assumption].
    + cbn [mbind outcome_bind]. rewrite app_nil_r.
      unfold range, len. rewrite length_seqZ, length_fmap, (length_to_digits chars).
      replace (Z.to_nat (digits - Z.of_nat m - 0)) with 0%nat by lia.
      reflexivity.
Qed.

End AnyNumber.

Lemma elem_of_encode chars d n c :
  2 <= str_len chars ->
  c ∈ list_ascii_of_string (encode chars d n) -> c ∈ alphabet chars.
Proof.
  intros HK. unfold encode, join. rewrite list_ascii_of_string_of_list_ascii.
  intros (i & -> & Hi)%list_elem_of_fmap.
  apply (to_digits_bound chars HK) in Hi.
  unfold digit_char. apply list_elem_of_In, nth_In.
  rewrite str_len_alphabet in Hi. unfold len in Hi. lia.
Qed.

(** X1. [_number_to_hint_str] returns for every number [n >= 0] and every
    [digits], over an alphabet of at least two distinct characters; decoding
    the string gives [n] back. The string has at least [digits] characters
    and at least one: exactly [max 1 digits] when [n] fits into that many
    digits, and otherwise the length of the shortest numeral of [n]: the
    number is never truncated. *)
Theorem number_to_hint_str_round_trip (chars : string) (n digits : Z) :
  2 <= str_len chars -> NoDup (alphabet chars) -> 0 <= n ->
  exists s,
    _number_to_hint_str n chars digits = Return s /\
    decode chars s = n /\
    digits <= str_len s /\ 1 <= str_len s /\
    (n < str_len chars ^ Z.max 1 digits -> str_len s = Z.max 1 digits) /\
    (str_len chars ^ Z.max 1 digits <= n ->
     str_len chars ^ (str_len s - 1) <= n < str_len chars ^ str_len s).
Proof.
  intros HK Hdistinct Hn.
  destruct (number_to_hint_str_numeral chars HK n digits Hn)
    as (d & Hd & Hdigits & Hlt & Hmin & Hret).
  assert (Hlen : str_len (encode chars d n) = Z.of_nat d)
    by (unfold str_len; now rewrite (length_encode chars)).
  exists (encode chars d n). rewrite !Hlen.
  split; [assumption|]. split; [apply decode_encode; [assumption | assumption | lia]|].
  split; [assumption|]. split; [lia|]. split.
  - intros Hfit. destruct Hmin as [?|[Hgt Hle]]; [assumption|].
    assert (str_len chars ^ Z.max 1 digits <= str_len chars ^ (Z.of_nat d - 1))
      by (apply Z.pow_le_mono_r; lia).
    lia.
  - intros Hbig. destruct Hmin as [Heq|[_ ?]]; [|lia].
    rewrite Heq in Hlt. lia.
Qed.

Lemma number_to_hint_str_round_trip_witness :
  exists s,
    _number_to_hint_str 8 "abc" 1 = Return s /\
    decode "abc" s = 8 /\
    1 <= str_len s /\ 1 <= str_len s /\
    (8 < str_len "abc" ^ Z.max 1 1 -> str_len s = Z.max 1 1) /\
    (str_len "abc" ^ Z.max 1 1 <= 8 ->
     str_len "abc" ^ (str_len s - 1) <= 8 < str_len "abc" ^ str_len s).
Proof.
  apply (number_to_hint_str_round_trip "abc" 8 1).
  - vm_compute. discriminate.
  - apply (bool_decide_unpack _). vm_compute. exact I.
  - lia.
Defined.

(** Padding with the first character, for any alphabet that has one. *)
Lemma pad_loop_first chars c0 t hintstr :
  String.get 0 chars = Some c0 ->
  pad_loop t chars hintstr = Return (repeat c0 t ++ hintstr).
Proof.
  intros Hc0.
  assert (Hindex : str_index chars 0 = Return c0).
  { unfold str_index. cbv zeta. change (0 <? 0) with false. cbv iota.
    change (Z.to_nat 0) with 0%nat. now rewrite Hc0. }
  revert hintstr. induction t as [|t IH]; intros hintstr; [reflexivity|].
  cbn [pad_loop]. rewrite Hindex. cbn [mbind outcome_bind].
  rewrite IH. cbn [repeat]. now rewrite repeat_cons, <- app_assoc.
Qed.

(** X2. A negative number does not raise: the loop runs once and writes the
    digit [n mod K] only. The result is the character of this residue,
    after [digits - 1] times the first character: the string of
    [n mod K]. *)
Theorem number_to_hint_str_negative (chars : string) (n digits : Z) :
  1 <= str_len chars -> n < 0 ->
  exists c0 c,
    String.get 0 chars = Some c0 /\
    String.get (Z.to_nat (n mod str_len chars)) chars = Some c /\
    _number_to_hint_str n chars digits
    = Return (join (repeat c0 (Z.to_nat (digits - 1)) ++ [c])) /\
    _number_to_hint_str (n mod str_len chars) chars digits
    = _number_to_hint_str n chars digits.
Proof.
  intros HK Hn.
  pose proof (Z.mod_pos_bound n (str_len chars) ltac:(lia)) as Hr.
  destruct (string_get_lt chars 0) as [c0 Hc0]; [unfold str_len in HK; lia|].
  destruct (string_get_lt chars (Z.to_nat (n mod str_len chars))) as [c Hc];
    [unfold str_len in *; lia|].
  exists c0, c. split; [assumption|]. split; [assumption|].
  assert (Hindex : str_index chars (n mod str_len chars) = Return c).
  { unfold str_index. cbv zeta.
    assert ((n mod str_len chars <? 0) = false) as -> by (apply Z.ltb_ge; lia).
    cbv iota. assert ((n mod str_len chars <? 0) = false) as -> by (apply Z.ltb_ge; lia).
    rewrite Hc. reflexivity. }
  assert (Hloop : forall fuel m, m mod str_len chars = n mod str_len chars ->
                    (m - m mod str_len chars) / str_len chars <= 0 ->
                    number_loop (S fuel) m chars [] = Return [c]).
  { intros fuel m Hm Hq. cbn [number_loop].
    destruct (Z.eqb_spec (str_len chars) 0) as [?|_]; [lia|].
    rewrite Hm, Hindex. cbn [mbind outcome_bind].
    rewrite <- Hm. now destruct (Z.leb_spec ((m - m mod str_len chars) / str_len chars) 0)
      as [_|?]; [|lia]. }
  assert (Hresult : forall m, m mod str_len chars = n mod str_len chars ->
                      (m - m mod str_len chars) / str_len chars <= 0 ->
                      _number_to_hint_str m chars digits
                      = Return (join (repeat c0 (Z.to_nat (digits - 1)) ++ [c]))).
  { intros m Hm Hq. unfold _number_to_hint_str. rewrite (Hloop _ m Hm Hq).
    cbn [mbind outcome_bind]. rewrite (pad_loop_first chars c0) by assumption.
    cbn [mbind outcome_bind]. unfold range, len. rewrite length_seqZ. cbn [length].
    replace (digits - Z.of_nat 1 - 0) with (digits - 1) by lia. reflexivity. }
  split.
  - apply Hresult; [reflexivity|].
    apply Z.lt_le_incl, Z.div_lt_upper_bound; lia.
  - rewrite (Hresult n); [apply Hresult | reflexivity |].
    + apply Z.mod_mod. lia.
    + rewrite Z.mod_mod by lia. rewrite Z.sub_diag, Z.div_0_l by lia. lia.
    + apply Z.lt_le_incl, Z.div_lt_upper_bound; lia.
Qed.

Lemma number_to_hint_str_negative_witness :
  exists c0 c,
    String.get 0 "abc" = Some c0 /\
    String.get (Z.to_nat ((-1) mod str_len "abc")) "abc" = Some c /\
    _number_to_hint_str (-1) "abc" 2
    = Return (join (repeat c0 (Z.to_nat (2 - 1)) ++ [c])) /\
    _number_to_hint_str ((-1) mod str_len "abc") "abc" 2
    = _number_to_hint_str (-1) "abc" 2.
Proof.
  apply (number_to_hint_str_negative "abc" (-1) 2); vm_compute; [discriminate | reflexivity].
Defined.

(** X3. With a single hint character the loop of [_number_to_hint_str] does not
    end for a positive number, whatever the number of iterations allowed;
    for 0 the string is that character, [max 1 digits] times. *)
Theorem number_to_hint_str_one_char (c : ascii) (n digits : Z) (fuel : nat) :
  0 < n ->
  number_loop fuel n (String c EmptyString) [] = Diverges /\
  _number_to_hint_str n (String c EmptyString) digits = Diverges /\
  _number_to_hint_str 0 (String c EmptyString) digits
  = Return (join (repeat c (Z.to_nat (Z.max 1 digits)))).
Proof.
  intros Hn. split; [now apply number_loop_unary|]. split.
  - unfold _number_to_hint_str. now rewrite number_loop_unary.
  - unfold _number_to_hint_str. cbn [Z.to_nat number_loop].
    change (str_len (String c EmptyString)) with 1.
    change (1 =? 0) with false. cbv iota.
    change (0 mod 1) with 0. change (str_index (String c EmptyString) 0) with (Return c).
    cbn [mbind outcome_bind]. change ((0 - 0) / 1 <=? 0) with true. cbv iota.
    cbn [mbind outcome_bind]. unfold len. cbn [length].
    unfold range. rewrite length_seqZ.
    assert (Hpad : forall t l, pad_loop t (String c EmptyString) l = Return (repeat c t ++ l)).
    { induction t as [|t IH]; intros l; [reflexivity|].
      cbn [pad_loop]. change (str_index (String c EmptyString) 0) with (Return c).
      cbn [mbind outcome_bind]. rewrite IH. cbn [repeat].
      now rewrite repeat_cons, <- app_assoc. }
    rewrite Hpad. cbn [mbind outcome_bind]. do 2 f_equal.
    replace (Z.to_nat (Z.max 1 digits)) with (Z.to_nat (digits - 1 - 0) + 1)%nat by lia.
    now rewrite repeat_app.
Qed.

Lemma number_to_hint_str_one_char_witness :
  number_loop 1000 3 "a" [] = Diverges /\
  _number_to_hint_str 3 "a" 2 = Diverges /\
  _number_to_hint_str 0 "a" 2 = Return (join (repeat "a"%char (Z.to_nat (Z.max 1 2)))).
Proof. apply (number_to_hint_str_one_char "a" 3 2 1000). lia. Defined.

(** ** [_hint_strings] on degenerate input *)

(** X4. [_hint_strings] needs an element and two hint characters. Without
    elements, and with elements but without hint characters, [math.log] has
    a domain error and [_hint_strings] raises [ValueError]; with a single
    hint character the logarithm of the base is zero and it raises
    [ZeroDivisionError]. No hint is built in either case. *)
Theorem hint_strings_degenerate
    (libm_log : float -> float) {A} (chars : string) (elems : list A) :
  PrimFloat.eqb (libm_log (float_of_int 1)) 0 = true ->
  len elems = 0 \/ str_len chars <= 1 ->
  _hint_strings libm_log chars elems
  = Raise (if (len elems =? 0) || (str_len chars =? 0) then ValueError
           else ZeroDivisionError).
Proof.
  intros Hlog Hcases. destruct elems as [|x elems]; [reflexivity|].
  destruct Hcases as [Hlen|HK]; [unfold len in Hlen; cbn [length] in Hlen; lia|].
  unfold _hint_strings, needed_digits, math_log, loghelper.
  destruct (Z.leb_spec (len (x :: elems)) 0) as [Hle|_];
    [unfold len in Hle; cbn [length] in Hle; lia|].
  destruct (Z.eqb_spec (len (x :: elems)) 0) as [Hz|_];
    [unfold len in Hz; cbn [length] in Hz; lia|].
  destruct chars as [|c [|c' chars]].
  - reflexivity.
  - change (str_len (String c EmptyString)) with 1. change (1 <=? 0) with false.
    cbn [mbind outcome_bind orb Z.eqb]. now rewrite Hlog.
  - unfold str_len in HK. cbn [String.length] in HK. lia.
Qed.

Lemma hint_strings_degenerate_witness :
  _hint_strings glibc_log "a" [1; 2; 3] = Raise ZeroDivisionError /\
  _hint_strings glibc_log "ab" (@nil Z) = Raise ValueError.
Proof.
  split.
  - apply (hint_strings_degenerate glibc_log "a" [1; 2; 3]).
    + vm_compute. reflexivity.
    + right. vm_compute. discriminate.
  - apply (hint_strings_degenerate glibc_log "ab" (@nil Z)).
    + vm_compute. reflexivity.
    + left. reflexivity.
Defined.

(** ** [_shuffle_hints] on its own *)

(** With no more hints than buckets, every bucket holds at most one hint. *)
Lemma pick_few (k j : nat) (hints : list string) :
  (j < k)%nat -> (length hints <= k)%nat ->
  pick k 0 j hints = option_list (hints !! j).
Proof.
  intros Hj Hlen. apply list_eq. intros t.
  rewrite (lookup_pick k j Hj).
  destruct t as [|t].
  - rewrite Nat.add_0_r. destruct (hints !! j); reflexivity.
  - rewrite lookup_ge_None_2 by nia.
    destruct (hints !! j); reflexivity.
Qed.

Lemma concat_option_list (hints : list string) (n : nat) :
  (length hints <= n)%nat ->
  concat ((fun j => option_list (hints !! j)) <$> seq 0 n) = hints.
Proof.
  intros Hlen.
  replace n with (length hints + (n - length hints))%nat by lia.
  rewrite seq_app, fmap_app, concat_app.
  assert (Hrest : concat ((fun j => option_list (hints !! j))
                            <$> seq (0 + length hints) (n - length hints)) = []).
  { generalize (n - length hints)%nat as m. intros m.
    assert (Hfrom : forall a, (length hints <= a)%nat ->
              concat ((fun j => option_list (hints !! j)) <$> seq a m) = []).
    { induction m as [|m IH]; intros a Ha; [reflexivity|].
      cbn [seq fmap list_fmap concat]. rewrite lookup_ge_None_2 by lia.
      cbn [option_list app]. apply IH. lia. }
    apply Hfrom. lia. }
  rewrite Hrest, app_nil_r. clear Hrest Hlen n.
  induction hints as [|x hints IH] using rev_ind; [reflexivity|].
  rewrite length_app. cbn [length]. rewrite seq_app, fmap_app, concat_app.
  cbn [seq fmap list_fmap concat]. rewrite Nat.add_0_l.
  rewrite list_lookup_middle by reflexivity. cbn [option_list]. rewrite app_nil_r.
  f_equal. rewrite <- IH at 2. f_equal.
  apply list_fmap_ext. intros i j Hj.
  apply lookup_seq in Hj as [-> Hj]. now rewrite lookup_app_l by lia.
Qed.

(** X5. The shuffle deals the hints out to [length] buckets in turn and returns
    the buckets one after the other: bucket [j] holds the hints of the
    indices [j], [j + length], [j + 2 * length], ... in this order. Nothing
    is lost or repeated. *)
Theorem shuffle_hints_round_robin (hints : list string) (length : Z) :
  1 <= length ->
  exists buckets,
    _shuffle_hints hints length = Return (concat buckets) /\
    len buckets = length /\
    (forall j t : nat, Z.of_nat j < length ->
       buckets !! j ≫= (fun b => b !! t) = hints !! (j + t * Z.to_nat length)%nat) /\
    concat buckets ≡ₚ hints.
Proof.
  intros Hk. exists (buckets_of (Z.to_nat length) hints).
  assert (Hret : _shuffle_hints hints length
                 = Return (concat (buckets_of (Z.to_nat length) hints))).
  { rewrite <- (Z2Nat.id length) at 1 by lia. apply shuffle_hints_buckets. lia. }
  split; [assumption|]. split; [|split].
  - unfold buckets_of, len. rewrite length_fmap, length_seq. lia.
  - intros j t Hj. unfold buckets_of.
    rewrite list_lookup_fmap, lookup_seq_lt by lia. cbn.
    apply lookup_pick. lia.
  - destruct (shuffle_hints_perm hints length Hk) as (l & Hl & Hperm).
    rewrite Hret in Hl. now injection Hl as <-.
Qed.

Lemma shuffle_hints_round_robin_witness :
  exists buckets,
    _shuffle_hints ["a"; "b"; "c"; "d"; "e"]%string 2 = Return (concat buckets) /\
    len buckets = 2 /\
    (forall j t : nat, Z.of_nat j < 2 ->
       buckets !! j ≫= (fun b => b !! t)
       = ["a"; "b"; "c"; "d"; "e"]%string !! (j + t * Z.to_nat 2)%nat) /\
    concat buckets ≡ₚ ["a"; "b"; "c"; "d"; "e"]%string.
Proof. apply (shuffle_hints_round_robin ["a"; "b"; "c"; "d"; "e"]%string 2). lia. Defined.

Lemma shuffle_hints_identity (hints : list string) (k : Z) :
  len hints <= Z.max 0 k -> _shuffle_hints hints k = Return hints.
Proof.
  intros Hlen. destruct (Z.le_gt_cases k 0) as [Hle|Hgt].
  - assert (hints = []) as ->.
    { destruct hints; [reflexivity|]. unfold len in Hlen. cbn [List.length] in Hlen. lia. }
    unfold _shuffle_hints, range. rewrite seqZ_nil by lia. reflexivity.
  - rewrite <- (Z2Nat.id k) at 1 by lia.
    rewrite shuffle_hints_buckets by lia. f_equal.
    unfold buckets_of.
    etransitivity;
      [|apply (concat_option_list hints (Z.to_nat k)); unfold len in Hlen; lia].
    f_equal. apply list_fmap_ext. intros i j Hj.
    apply lookup_seq in Hj as [-> Hj]. apply pick_few; [lia|]. unfold len in Hlen. lia.
Qed.

(** X6. With no more hints than buckets the shuffle changes nothing (and an
    empty list is returned as it is whatever [length] is). *)
Theorem shuffle_hints_few (hints : list string) (length : Z) :
  len hints <= Z.max 0 length ->
  _shuffle_hints hints length = Return hints.
Proof. apply shuffle_hints_identity. Qed.

Lemma shuffle_hints_few_witness :
  _shuffle_hints ["a"; "b"; "c"]%string 5 = Return ["a"; "b"; "c"]%string.
Proof. apply (shuffle_hints_few ["a"; "b"; "c"]%string 5). vm_compute. discriminate. Defined.

(** X7. Without a bucket ([length <= 0]) the first hint raises
    [ZeroDivisionError] at [i % len(buckets)]. *)
Theorem shuffle_hints_no_bucket (hints : list string) (length : Z) :
  length <= 0 -> hints <> [] ->
  _shuffle_hints hints length = Raise ZeroDivisionError.
Proof.
  intros Hle Hne. destruct hints as [|hint hints]; [congruence|].
  unfold _shuffle_hints, range. rewrite seqZ_nil by lia. reflexivity.
Qed.

Lemma shuffle_hints_no_bucket_witness :
  _shuffle_hints ["a"]%string 0 = Raise ZeroDivisionError.
Proof. apply (shuffle_hints_no_bucket ["a"]%string 0); [lia | discriminate]. Defined.

(** ** What the hint strings are made of *)

Lemma encode_nonempty chars d n : (1 <= d)%nat -> encode chars d n <> EmptyString.
Proof.
  intros Hd Heq. pose proof (length_encode chars d n) as Hlen.
  rewrite Heq in Hlen. cbn in Hlen. lia.
Qed.

Lemma filter_ext_Forall {B} (P Q : B -> Prop)
    `{!forall x, Decision (P x), !forall x, Decision (Q x)} (l : list B) :
  Forall (fun x => P x <-> Q x) l -> filter P l = filter Q l.
Proof.
  induction 1 as [|x l Hx _ IH]; [reflexivity|].
  rewrite !filter_cons, IH.
  destruct (decide (P x)), (decide (Q x)); tauto.
Qed.

Section HintCharacters.

Variable libm_log : float -> float.
Context {A : Type}.
Variable chars : string.
Variable elems : list A.
Hypothesis HN : 1 <= len elems.
Hypothesis HK : 2 <= str_len chars.
Variable needed : Z.
Hypothesis Hlog : needed_digits libm_log (len elems) (str_len chars) = Return needed.
Hypothesis Hneeded : str_len chars ^ (needed - 1) <= len elems <= str_len chars ^ needed.

Lemma ordered_hint_characters s :
  s ∈ ordered_hints chars needed (len elems) ->
  s <> EmptyString /\ Forall (fun c => c ∈ alphabet chars) (list_ascii_of_string s).
Proof.
  intros Hs. unfold ordered_hints in Hs. apply elem_of_app in Hs as [Hs|Hs].
  - apply elem_of_short_hints in Hs as (H1 & i & _ & ->).
    split; [apply encode_nonempty; lia|].
    apply Forall_forall. intros c. now apply elem_of_encode.
  - apply elem_of_long_hints in Hs as (i & _ & ->).
    split; [apply encode_nonempty; lia|].
    apply Forall_forall. intros c. now apply elem_of_encode.
Qed.

End HintCharacters.

(** X8. Every hint string is non-empty and is written with the configured hint
    characters only. *)
Theorem hint_strings_characters
    (libm_log : float -> float) {A} (chars : string) (elems : list A) (needed : Z)
    (strings : list string) :
  1 <= len elems -> 2 <= str_len chars ->
  needed_digits libm_log (len elems) (str_len chars) = Return needed ->
  str_len chars ^ (needed - 1) <= len elems <= str_len chars ^ needed ->
  _hint_strings libm_log chars elems = Return strings ->
  Forall (fun s => s <> EmptyString /\
                   Forall (fun c => c ∈ alphabet chars) (list_ascii_of_string s)) strings.
Proof.
  intros HN HK Hlog Hneeded Hret.
  destruct (hint_strings_shuffled libm_log chars elems HN HK needed Hlog Hneeded)
    as (l & Hl & Hperm).
  assert (l = strings) as -> by congruence.
  apply Forall_forall. intros s Hs. rewrite Hperm in Hs.
  eapply ordered_hint_characters; eassumption.
Qed.

Lemma hint_strings_characters_witness :
  Forall (fun s => s <> EmptyString /\
                   Forall (fun c => c ∈ alphabet "abc") (list_ascii_of_string s))
         ["a"; "bc"; "ba"; "ca"; "bb"]%string.
Proof.
  apply (hint_strings_characters glibc_log "abc" [1; 2; 3; 4; 5] 2).
  - vm_compute. discriminate.
  - vm_compute. discriminate.
  - vm_compute. reflexivity.
  - vm_compute. split; discriminate.
  - vm_compute. reflexivity.
Defined.

(** X9. The lengths of the hint strings, by the digit count [needed] that line
    181 computes: every hint has [needed] characters (one, when [needed] is
    0) or [needed - 1]; the shorter ones occur only for [needed > 1], and
    there are [floor((K ^ needed - N) / K)] of them. *)
Theorem hint_strings_length_profile
    (libm_log : float -> float) {A} (chars : string) (elems : list A) (needed : Z)
    (strings : list string) :
  1 <= len elems -> 2 <= str_len chars ->
  needed_digits libm_log (len elems) (str_len chars) = Return needed ->
  str_len chars ^ (needed - 1) <= len elems <= str_len chars ^ needed ->
  _hint_strings libm_log chars elems = Return strings ->
  Forall (fun s => str_len s = Z.max 1 needed \/ (1 < needed /\ str_len s = needed - 1))
         strings /\
  len (filter (fun s => str_len s <> Z.max 1 needed) strings)
  = (if 1 <? needed then (str_len chars ^ needed - len elems) / str_len chars else 0).
Proof.
  intros HN HK Hlog Hneeded Hret.
  destruct (hint_strings_lengths libm_log chars elems HN HK needed Hlog Hneeded strings Hret)
    as [Hall Hshort].
  split; [now apply Forall_forall|].
  destruct (Z.ltb_spec 1 needed) as [H1|H1].
  - specialize (Hshort H1). unfold short_count in Hshort.
    rewrite <- Hshort. unfold len. do 2 f_equal. apply filter_ext_Forall.
    apply Forall_forall. intros s Hs. destruct (Hall s Hs) as [Hl|[_ Hl]]; lia.
  - unfold len. rewrite filter_none; [reflexivity|].
    apply Forall_forall. intros s Hs. destruct (Hall s Hs) as [Hl|[? _]]; lia.
Qed.

Lemma hint_strings_length_profile_witness :
  Forall (fun s => str_len s = Z.max 1 2 \/ (1 < 2 /\ str_len s = 2 - 1))
         ["a"; "bc"; "ba"; "ca"; "bb"]%string /\
  len (filter (fun s => str_len s <> Z.max 1 2) ["a"; "bc"; "ba"; "ca"; "bb"]%string)
  = (if 1 <? 2 then (str_len "abc" ^ 2 - len [1; 2; 3; 4; 5]) / str_len "abc" else 0).
Proof.
  apply (hint_strings_length_profile glibc_log "abc" [1; 2; 3; 4; 5] 2).
  - vm_compute. discriminate.
  - vm_compute. discriminate.
  - vm_compute. reflexivity.
  - vm_compute. split; discriminate.
  - vm_compute. reflexivity.
Defined.

(** ** Fewer elements than hint characters *)

Lemma encode_one_digit chars (i : nat) c :
  2 <= str_len chars -> alphabet chars !! i = Some c ->
  encode chars 1 (Z.of_nat i) = String c EmptyString.
Proof.
  intros HK Hi. unfold encode. cbn [to_digits app].
  pose proof (lookup_lt_Some _ _ _ Hi) as Hlt.
  rewrite str_len_alphabet. unfold len.
  rewrite Z.mod_small by lia. cbn [fmap list_fmap join string_of_list_ascii].
  f_equal. unfold digit_char. rewrite Nat2Z.id.
  now apply nth_lookup_Some.
Qed.

(** X10. With fewer elements than hint characters, the hints are the first [N]
    hint characters, one each, in the order of the setting. *)
Theorem hint_strings_few_elements
    (libm_log : float -> float) {A} (chars : string) (elems : list A) (needed : Z) :
  1 <= len elems < str_len chars ->
  needed_digits libm_log (len elems) (str_len chars) = Return needed ->
  str_len chars ^ (needed - 1) <= len elems <= str_len chars ^ needed ->
  _hint_strings libm_log chars elems
  = Return ((fun c => String c EmptyString) <$> take (length elems) (alphabet chars)).
Proof.
  intros [HN Hlt] Hlog Hneeded.
  assert (HK : 2 <= str_len chars) by lia.
  assert (H0 : 0 <= needed).
  { destruct (Z.le_gt_cases 0 needed) as [?|Hneg]; [assumption|].
    rewrite (Z.pow_neg_r _ needed) in Hneeded by lia. lia. }
  assert (H1 : needed <= 1).
  { destruct (Z.le_gt_cases needed 1) as [?|Hgt]; [assumption|].
    assert (str_len chars ^ 1 <= str_len chars ^ (needed - 1))
      by (apply Z.pow_le_mono_r; lia).
    rewrite Z.pow_1_r in *. lia. }
  unfold _hint_strings. rewrite Hlog. cbn [mbind outcome_bind].
  rewrite (hint_strings_from_ordered chars HK needed _ HN Hneeded).
  destruct (short_count_bounds chars HK needed _ HN Hneeded) as (_ & _ & _ & _ & Hsc).
  specialize (Hsc H1).
  assert (Hord : ordered_hints chars needed (len elems)
                 = (fun c => String c EmptyString) <$> take (length elems) (alphabet chars)).
  { unfold ordered_hints, short_hints, long_hints. rewrite Hsc.
    destruct (Z.ltb_spec 1 needed) as [?|_]; [lia|]. cbn [app].
    replace (Z.max 1 needed) with 1 by lia. change (Z.to_nat 1) with 1%nat.
    rewrite Z.mul_0_l, Z.add_0_l, Z.sub_0_r. unfold range. rewrite Z.sub_0_r.
    apply list_eq. intros i. rewrite !list_lookup_fmap.
    rewrite str_len_alphabet in Hlt. unfold len in *.
    destruct (decide (i < length elems)%nat) as [Hi|Hi].
    - rewrite lookup_seqZ_lt by lia. rewrite lookup_take_lt by lia.
      destruct (lookup_lt_is_Some_2 (alphabet chars) i ltac:(lia)) as [c Hc].
      rewrite Hc. cbn. f_equal. rewrite Z.add_0_l. now apply encode_one_digit.
    - rewrite lookup_seqZ_ge by lia. rewrite lookup_take_ge by lia. reflexivity. }
  rewrite Hord. apply shuffle_hints_identity.
  unfold len. rewrite length_fmap, length_take.
  rewrite str_len_alphabet in Hlt |- *. unfold len in *. lia.
Qed.

Lemma hint_strings_few_elements_witness :
  _hint_strings glibc_log "abcde" [1; 2; 3]
  = Return ((fun c => String c EmptyString) <$> take (length [1; 2; 3]) (alphabet "abcde")).
Proof.
  apply (hint_strings_few_elements glibc_log "abcde" [1; 2; 3] 1).
  - vm_compute. split; [discriminate | reflexivity].
  - vm_compute. reflexivity.
  - vm_compute. split; discriminate.
Defined.

(** * Further properties of the hint manager *)

(** ** [start] on a page with elements *)

Section StartHinting.

Context `{Env}.

(** The label [_draw_label] draws for an element, and the entry of
    [_elems] that [start] makes of it. *)
Definition label_at (e : QWebElement) (string : string) : HintLabel :=
  {| label_left := rect_x (geometry e); label_top := rect_y (geometry e);
     label_text := string |}.

Definition entry_of (pair : QWebElement * string) : ElemTuple :=
  {| elem := pair.1; label := label_at pair.1 pair.2 |}.

Definition with_entries (pairs : list (QWebElement * string))
    (elems : gmap string ElemTuple) : gmap string ElemTuple :=
  foldl (fun m pair => <[pair.2 := entry_of pair]> m) elems pairs.

Lemma draw_loop_spec pairs els frame tg bu :
  draw_loop pairs {| _elems := els; _frame := Some frame; _target := tg; _baseurl := bu |}
  = Run (Return tt)
        {| _elems := with_entries pairs els; _frame := Some frame; _target := tg;
           _baseurl := bu |}
        ((fun pair => appendInside (label_at pair.1 pair.2)) <$> pairs).
Proof.
  revert els. induction pairs as [|[e string] pairs IH]; intros els.
  - reflexivity.
  - cbn [draw_loop]. unfold _draw_label. run_code. rewrite IH. run_code.
    run_effects. reflexivity.
Qed.

Lemma visible_elems_selector frame mode e es :
  visible_elems frame mode = e :: es ->
  exists selector,
    dict_get SELECTORS mode = Some selector /\
    List.filter (is_visible frame (default (fun _ => true) (dict_get FILTERS mode)))
                (findAllElements frame selector) = e :: es.
Proof.
  unfold visible_elems. destruct (dict_get SELECTORS mode) as [selector|]; [|discriminate].
  eauto.
Qed.

(** [start] when there are elements to hint, a known target and hint strings
    for the elements. *)
Lemma start_spec s frame baseurl mode target e es text strings :
  visible_elems frame mode = e :: es ->
  dict_get texts target = Some text ->
  _hint_strings env_log hints_chars (e :: es) = Return strings ->
  start frame baseurl mode target s
  = Run (Return tt)
        {| _elems := with_entries (zip (e :: es) strings) (_elems s);
           _frame := Some frame; _target := Some target; _baseurl := Some baseurl |}
        (message_text text
         :: ((fun pair => appendInside (label_at pair.1 pair.2)) <$> zip (e :: es) strings)
         ++ [contentsSizeChanged_connect frame; emit_hint_strings_updated strings;
             emit_set_mode "hint"]).
Proof.
  destruct s as [els fr tg bu].
  intros (selector & Hsel & Hvis)%visible_elems_selector Htext Hstrings.
  unfold start. run_code. rewrite Hsel. run_code. rewrite Hvis, Htext. run_code.
  rewrite Hstrings. run_code. rewrite draw_loop_spec. run_code. run_effects.
  reflexivity.
Qed.

Lemma lookup_with_entries_ne pairs els k :
  k ∉ pairs.*2 -> with_entries pairs els !! k = els !! k.
Proof.
  unfold with_entries. revert els.
  induction pairs as [|[e string] pairs IH]; intros els Hk; [reflexivity|].
  cbn [foldl]. rewrite fmap_cons in Hk. apply not_elem_of_cons in Hk as [Hne Hk].
  rewrite IH by assumption. cbn [snd] in *. now rewrite lookup_insert_ne.
Qed.

Lemma lookup_with_entries pairs els pair :
  NoDup pairs.*2 -> pair ∈ pairs ->
  with_entries pairs els !! pair.2 = Some (entry_of pair).
Proof.
  unfold with_entries. revert els.
  induction pairs as [|p pairs IH]; intros els Hnd Hin; [inversion Hin|].
  rewrite fmap_cons in Hnd. apply NoDup_cons in Hnd as [Hp Hnd].
  cbn [foldl]. apply elem_of_cons in Hin as [->|Hin].
  - fold (with_entries pairs (<[p.2 := entry_of p]> els)).
    rewrite lookup_with_entries_ne by assumption. apply lookup_insert_eq.
  - now apply IH.
Qed.

Lemma map_to_list_with_entries pairs els :
  NoDup pairs.*2 -> (forall k, k ∈ pairs.*2 -> els !! k = None) ->
  map_to_list (with_entries pairs els)
  ≡ₚ ((fun pair => (pair.2, entry_of pair)) <$> pairs) ++ map_to_list els.
Proof.
  unfold with_entries. revert els.
  induction pairs as [|p pairs IH]; intros els Hnd Hfresh; [reflexivity|].
  rewrite fmap_cons in Hnd. apply NoDup_cons in Hnd as [Hp Hnd].
  cbn [foldl]. rewrite IH.
  - rewrite map_to_list_insert by (apply Hfresh; left).
    rewrite fmap_cons. cbn [app]. now rewrite Permutation_middle.
  - assumption.
  - intros k Hk. rewrite lookup_insert_ne by (intros Heq; apply Hp; now rewrite Heq).
    apply Hfresh. now right.
Qed.

(** What [start] needs of the hint strings: one per element, all different. *)
Lemma hint_strings_distinct {A} (elems : list A) needed :
  1 <= len elems -> 2 <= str_len hints_chars -> NoDup (alphabet hints_chars) ->
  needed_digits env_log (len elems) (str_len hints_chars) = Return needed ->
  str_len hints_chars ^ (needed - 1) <= len elems <= str_len hints_chars ^ needed ->
  exists strings,
    _hint_strings env_log hints_chars elems = Return strings /\
    length strings = length elems /\ NoDup strings /\ prefix_free strings.
Proof.
  intros HN HK Hdistinct Hlog Hneeded.
  destruct (hint_strings_shuffled env_log hints_chars elems HN HK needed Hlog Hneeded)
    as (strings & Hret & Hperm).
  exists strings. split; [assumption|]. split; [|split].
  - now apply (hint_strings_length env_log hints_chars elems HN HK needed Hlog Hneeded).
  - rewrite Hperm. eapply NoDup_ordered_hints; eassumption.
  - eapply prefix_free_perm; [exact Hperm|].
    eapply prefix_free_ordered_hints; eassumption.
Qed.

Lemma fmap_zip {A B C} (f : A -> B -> C) (l : list A) (k : list B) :
  (fun pair => f pair.1 pair.2) <$> zip l k = zip_with f l k.
Proof.
  revert k. induction l as [|x l IH]; intros [|y k]; try reflexivity.
  cbn. now rewrite <- IH.
Qed.

Lemma len_nonempty {A} (l : list A) : l <> [] -> 1 <= len l.
Proof. destruct l; [congruence|]. unfold len. cbn [length]. lia. Qed.

Lemma zip_snd_same_length {A B} (l : list A) (k : list B) :
  length k = length l -> (zip l k).*2 = k.
Proof. intros Hlen. apply snd_zip. lia. Qed.

Lemma with_entries_inv pairs els k t :
  with_entries pairs els !! k = Some t ->
  (exists pair, pair ∈ pairs /\ k = pair.2 /\ t = entry_of pair) \/ els !! k = Some t.
Proof.
  unfold with_entries. revert els.
  induction pairs as [|p pairs IH]; intros els Hk; [now right|].
  cbn [foldl] in Hk. apply IH in Hk as [(pair & Hin & -> & ->)|Hk].
  - left. exists pair. split; [now right | split; reflexivity].
  - destruct (decide (p.2 = k)) as [<-|Hne].
    + rewrite lookup_insert_eq in Hk. injection Hk as <-.
      left. exists p. split; [left | split; reflexivity].
    + rewrite lookup_insert_ne in Hk by assumption. now right.
Qed.

(** The elements [start] keeps are inside the shown part of the frame, and
    pass the filter of the mode. *)
Lemma elem_of_visible_elems frame mode e :
  e ∈ visible_elems frame mode ->
  contains (translate (frame_geometry frame) (scrollPosition frame))
           (topLeft (geometry e)) = true /\
  default (fun _ => true) (dict_get FILTERS mode) e = true.
Proof.
  unfold visible_elems. destruct (dict_get SELECTORS mode) as [selector|];
    [|intros Hin; inversion Hin].
  intros Hin. apply list_elem_of_In, filter_In in Hin as [_ Hvis].
  unfold is_visible in Hvis.
  destruct (default _ _ e); [|discriminate]. cbn [negb] in Hvis.
  destruct (negb (isValid (geometry e)) && (rect_x (geometry e) =? 0)); [discriminate|].
  destruct (contains _ _); [|discriminate]. split; reflexivity.
Qed.

End StartHinting.

Section StartClaims.

Context `{Env}.

(** X11. [start] on a page with elements to hint returns, records the frame, the
    target and the base URL, and enters every element it kept under its hint
    string, the i-th element under the i-th string, with the label drawn for
    it; the entries under other keys stay as they were. *)
Theorem start_maps_elements (s : HintManager) frame baseurl mode target text needed :
  visible_elems frame mode <> [] ->
  dict_get texts target = Some text ->
  2 <= str_len hints_chars -> NoDup (alphabet hints_chars) ->
  needed_digits env_log (len (visible_elems frame mode)) (str_len hints_chars)
  = Return needed ->
  str_len hints_chars ^ (needed - 1) <= len (visible_elems frame mode)
  <= str_len hints_chars ^ needed ->
  exists strings,
    _hint_strings env_log hints_chars (visible_elems frame mode) = Return strings /\
    result (start frame baseurl mode target s) = Return tt /\
    _frame (manager (start frame baseurl mode target s)) = Some frame /\
    _target (manager (start frame baseurl mode target s)) = Some target /\
    _baseurl (manager (start frame baseurl mode target s)) = Some baseurl /\
    (forall i e, visible_elems frame mode !! i = Some e ->
       exists string,
         strings !! i = Some string /\
         _elems (manager (start frame baseurl mode target s)) !! string
         = Some {| elem := e; label := label_at e string |}) /\
    (forall k, k ∉ strings ->
       _elems (manager (start frame baseurl mode target s)) !! k = _elems s !! k).
Proof.
  intros Hvis Htext HK Hdistinct Hlog Hneeded.
  destruct (hint_strings_distinct (visible_elems frame mode) needed
              (len_nonempty _ Hvis) HK Hdistinct Hlog Hneeded)
    as (strings & Hret & Hlen & Hnd & _).
  exists strings. split; [assumption|].
  destruct (visible_elems frame mode) as [|e es] eqn:Helems; [congruence|].
  rewrite (start_spec s frame baseurl mode target e es text strings Helems Htext Hret).
  cbn [result manager _elems _frame _target _baseurl].
  split; [reflexivity|]. split; [reflexivity|]. split; [reflexivity|].
  split; [reflexivity|]. split.
  - intros i e' Hi.
    destruct (lookup_lt_is_Some_2 strings i) as [string Hstring].
    { rewrite Hlen. eapply lookup_lt_Some. exact Hi. }
    exists string. split; [assumption|].
    apply (lookup_with_entries (zip (e :: es) strings) (_elems s) (e', string)).
    + now rewrite zip_snd_same_length.
    + apply list_elem_of_lookup. exists i.
      apply lookup_zip_with_Some. eauto.
  - intros k Hk. apply lookup_with_entries_ne. now rewrite zip_snd_same_length.
Qed.

(** X12. What [start] shows and emits then: the message of the target, one label
    per element, in order, at the element's position and with its hint
    string, the connection to [contentsSizeChanged], the hint strings for
    the key parser, and the mode "hint". *)
Theorem start_draws_and_announces (s : HintManager) frame baseurl mode target text needed :
  visible_elems frame mode <> [] ->
  dict_get texts target = Some text ->
  2 <= str_len hints_chars -> NoDup (alphabet hints_chars) ->
  needed_digits env_log (len (visible_elems frame mode)) (str_len hints_chars)
  = Return needed ->
  str_len hints_chars ^ (needed - 1) <= len (visible_elems frame mode)
  <= str_len hints_chars ^ needed ->
  exists strings,
    _hint_strings env_log hints_chars (visible_elems frame mode) = Return strings /\
    length strings = length (visible_elems frame mode) /\
    effects (start frame baseurl mode target s)
    = message_text text
      :: zip_with (fun e string => appendInside (label_at e string))
                  (visible_elems frame mode) strings
      ++ [contentsSizeChanged_connect frame; emit_hint_strings_updated strings;
          emit_set_mode "hint"].
Proof.
  intros Hvis Htext HK Hdistinct Hlog Hneeded.
  destruct (hint_strings_distinct (visible_elems frame mode) needed
              (len_nonempty _ Hvis) HK Hdistinct Hlog Hneeded)
    as (strings & Hret & Hlen & _).
  exists strings. split; [assumption|]. split; [assumption|].
  destruct (visible_elems frame mode) as [|e es] eqn:Helems; [congruence|].
  rewrite (start_spec s frame baseurl mode target e es text strings Helems Htext Hret).
  cbn [effects]. do 2 f_equal.
  apply (fmap_zip (fun e string => appendInside (label_at e string))).
Qed.

(** X13. [start] then [stop], from a manager without elements: [stop] removes the
    labels [start] has drawn, each one once, and the manager is as after
    [__init__], but for the base URL, which [stop] leaves. *)
Theorem start_stop_round_trip (s : HintManager) frame baseurl mode target text needed :
  _elems s = ∅ ->
  visible_elems frame mode <> [] ->
  dict_get texts target = Some text ->
  2 <= str_len hints_chars -> NoDup (alphabet hints_chars) ->
  needed_digits env_log (len (visible_elems frame mode)) (str_len hints_chars)
  = Return needed ->
  str_len hints_chars ^ (needed - 1) <= len (visible_elems frame mode)
  <= str_len hints_chars ^ needed ->
  exists strings removed,
    _hint_strings env_log hints_chars (visible_elems frame mode) = Return strings /\
    stop (manager (start frame baseurl mode target s))
    = Run (Return tt)
          {| _elems := ∅; _frame := None; _target := None; _baseurl := Some baseurl |}
          ((removeFromDocument <$> removed)
           ++ [contentsSizeChanged_disconnect frame; emit_set_mode "normal";
               message_clear]) /\
    removed ≡ₚ zip_with label_at (visible_elems frame mode) strings.
Proof.
  intros Hempty Hvis Htext HK Hdistinct Hlog Hneeded.
  destruct (hint_strings_distinct (visible_elems frame mode) needed
              (len_nonempty _ Hvis) HK Hdistinct Hlog Hneeded)
    as (strings & Hret & Hlen & Hnd & _).
  destruct (visible_elems frame mode) as [|e es] eqn:Helems; [congruence|].
  rewrite (start_spec s frame baseurl mode target e es text strings Helems Htext Hret).
  cbn [manager]. rewrite Hempty.
  exists strings.
  exists ((fun t => label t.2) <$> map_to_list (with_entries (zip (e :: es) strings) ∅)).
  split; [assumption|]. split.
  - erewrite (stop_hinting _ frame) by reflexivity.
    unfold stopped, stop_effects. cbn [_elems _baseurl].
    rewrite <- list_fmap_compose. reflexivity.
  - rewrite map_to_list_with_entries.
    + rewrite map_to_list_empty, app_nil_r, <- list_fmap_compose.
      now rewrite <- (fmap_zip label_at).
    + now rewrite zip_snd_same_length.
    + intros k _. apply lookup_empty.
Qed.

End StartClaims.

Section StartFailures.

Context `{Env}.

(** X14. A mode without selector, or (on a page with elements to hint) a target
    without message: [start] raises [KeyError]. It has already recorded the
    target, the base URL and the frame; it has shown, drawn and emitted
    nothing. *)
Theorem start_unknown_mode_or_target (s : HintManager) frame baseurl mode target :
  dict_get SELECTORS mode = None \/
  (visible_elems frame mode <> [] /\ dict_get texts target = None) ->
  start frame baseurl mode target s
  = Run (Raise KeyError)
        {| _elems := _elems s; _frame := Some frame; _target := Some target;
           _baseurl := Some baseurl |}
        [].
Proof.
  destruct s as [els fr tg bu]. intros [Hmode|[Hvis Htarget]].
  - unfold start. run_code. rewrite Hmode. reflexivity.
  - destruct (visible_elems frame mode) as [|e es] eqn:Helems; [congruence|].
    apply visible_elems_selector in Helems as (selector & Hsel & Helems).
    unfold start. run_code. rewrite Hsel. run_code. rewrite Helems, Htarget.
    reflexivity.
Qed.

(** X15. When the hint strings cannot be computed -- no hint character
    ([ValueError]) or a single one ([ZeroDivisionError]) -- [start] raises
    after it has shown the message of the target: no label is drawn, the
    mode is not changed, and the target, the base URL and the frame stay
    recorded. *)
Theorem start_few_hint_chars (s : HintManager) frame baseurl mode target text :
  visible_elems frame mode <> [] ->
  dict_get texts target = Some text ->
  str_len hints_chars <= 1 ->
  PrimFloat.eqb (env_log (float_of_int 1)) 0 = true ->
  start frame baseurl mode target s
  = Run (Raise (if str_len hints_chars =? 0 then ValueError else ZeroDivisionError))
        {| _elems := _elems s; _frame := Some frame; _target := Some target;
           _baseurl := Some baseurl |}
        [message_text text].
Proof.
  destruct s as [els fr tg bu]. intros Hvis Htext HK Hlog.
  destruct (visible_elems frame mode) as [|e es] eqn:Helems; [congruence|].
  assert (Hraise : _hint_strings env_log hints_chars (e :: es)
                   = Raise (if str_len hints_chars =? 0 then ValueError
                            else ZeroDivisionError)).
  { destruct hints_chars as [|c [|c' chars]].
    - reflexivity.
    - unfold _hint_strings, needed_digits, math_log, loghelper.
      change (str_len (String c EmptyString)) with 1.
      destruct (Z.leb_spec (len (e :: es)) 0) as [Hle|_];
        [unfold len in Hle; cbn [length] in Hle; lia|].
      change (1 <=? 0) with false. cbn [mbind outcome_bind]. now rewrite Hlog.
    - unfold str_len in HK. cbn [String.length] in HK. lia. }
  apply visible_elems_selector in Helems as (selector & Hsel & Helems).
  unfold start. run_code. rewrite Hsel. run_code. rewrite Helems, Htext. run_code.
  rewrite Hraise. run_code. run_effects. reflexivity.
Qed.

(** X16. Whatever [start] does to a manager without elements, every entry of the
    mapping afterwards is an element whose top left corner is inside the
    shown part of the frame, labelled at its position with its key, and
    which passes the filter of the mode: in the mode "links" it has a
    [href] whose scheme is not "javascript". *)
Theorem start_hints_visible (s : HintManager) frame baseurl mode target k t :
  _elems s = ∅ ->
  _elems (manager (start frame baseurl mode target s)) !! k = Some t ->
  contains (translate (frame_geometry frame) (scrollPosition frame))
           (topLeft (geometry (elem t))) = true /\
  label t = label_at (elem t) k /\
  (mode = "links"%string ->
   hasAttribute (elem t) "href" = true /\
   String.eqb (url_scheme (qurl (attribute (elem t) "href"))) "javascript" = false).
Proof.
  destruct s as [els fr tg bu]. cbn [_elems]. intros -> Hk.
  assert (Hin : elem t ∈ visible_elems frame mode /\ label t = label_at (elem t) k).
  { revert Hk. unfold start. run_code.
    destruct (dict_get SELECTORS mode) as [selector|] eqn:Hsel;
      [|run_code; now rewrite lookup_empty].
    run_code.
    destruct (List.filter _ _) as [|e es] eqn:Helems;
      [run_code; now rewrite lookup_empty|].
    destruct (dict_get texts target) as [text|];
      [|run_code; now rewrite lookup_empty].
    run_code.
    destruct (_hint_strings env_log hints_chars (e :: es)) as [strings| |];
      [|run_code; now rewrite lookup_empty|run_code; now rewrite lookup_empty].
    run_code. rewrite draw_loop_spec. run_code.
    intros [(pair & Hpair & -> & ->)|Hk]%with_entries_inv;
      [|now rewrite lookup_empty in Hk].
    split; [|reflexivity]. cbn [elem entry_of].
    unfold visible_elems. rewrite Hsel, Helems.
    destruct pair as [e' string]. now apply elem_of_zip_l in Hpair. }
  destruct Hin as [Hin Hlabel].
  apply elem_of_visible_elems in Hin as [Hcontains Hfilter].
  split; [assumption|]. split; [assumption|].
  intros ->. cbn in Hfilter. apply andb_prop in Hfilter as [Hhref Hscheme].
  split; [assumption|]. now apply negb_true_iff.
Qed.

End StartFailures.

Section StartWitnesses.

Open Scope string_scope.

#[local] Existing Instance example_env.

Lemma start_maps_elements_witness :
  exists strings,
    _hint_strings glibc_log "ab" [link_elem; anchor_elem; img_elem] = Return strings /\
    strings = ["aa"; "ba"; "ab"] /\
    (_elems (hinting [link_elem; anchor_elem] [img_elem] "all" "tab") !! "ba")
    = Some {| elem := anchor_elem; label := label_at anchor_elem "ba" |}.
Proof.
  destruct (@start_maps_elements example_env init (page [link_elem; anchor_elem] [img_elem])
              "http://example.org/" "all" "tab" "Follow hint in new tab..." 2)
    as (strings & Hret & _ & _ & _ & _ & Hmap & _).
  - vm_compute. discriminate.
  - vm_compute. reflexivity.
  - vm_compute. discriminate.
  - apply (bool_decide_unpack _). vm_compute. exact I.
  - vm_compute. reflexivity.
  - vm_compute. split; discriminate.
  - exists strings. split; [exact Hret|].
    assert (Hstrings : strings = ["aa"; "ba"; "ab"]).
    { vm_compute in Hret. now injection Hret as <-. }
    split; [exact Hstrings|].
    destruct (Hmap 1%nat anchor_elem) as (string & Hstring & Hentry);
      [vm_compute; reflexivity|].
    rewrite Hstrings in Hstring. injection Hstring as <-. exact Hentry.
Defined.

Lemma start_draws_and_announces_witness :
  effects (start (page [link_elem] [img_elem]) "http://example.org/" "all" "tab" init)
  = [message_text "Follow hint in new tab...";
     appendInside {| label_left := 10; label_top := 10; label_text := "a" |};
     appendInside {| label_left := 10; label_top := 40; label_text := "b" |};
     contentsSizeChanged_connect (page [link_elem] [img_elem]);
     emit_hint_strings_updated ["a"; "b"];
     emit_set_mode "hint"].
Proof.
  destruct (@start_draws_and_announces example_env init (page [link_elem] [img_elem])
              "http://example.org/" "all" "tab" "Follow hint in new tab..." 1)
    as (strings & Hret & _ & Heffects).
  - vm_compute. discriminate.
  - vm_compute. reflexivity.
  - vm_compute. discriminate.
  - apply (bool_decide_unpack _). vm_compute. exact I.
  - vm_compute. reflexivity.
  - vm_compute. split; discriminate.
  - rewrite Heffects.
    assert (Hstrings : strings = ["a"; "b"]).
    { vm_compute in Hret. now injection Hret as <-. }
    rewrite Hstrings. reflexivity.
Defined.

Lemma start_stop_round_trip_witness :
  exists removed,
    stop (hinting [link_elem] [img_elem] "all" "tab")
    = Run (Return tt)
          {| _elems := ∅; _frame := None; _target := None;
             _baseurl := Some "http://example.org/" |}
          ((removeFromDocument <$> removed)
           ++ [contentsSizeChanged_disconnect (page [link_elem] [img_elem]);
               emit_set_mode "normal"; message_clear]) /\
    removed ≡ₚ [label_at link_elem "a"; label_at img_elem "b"].
Proof.
  destruct (@start_stop_round_trip example_env init (page [link_elem] [img_elem])
              "http://example.org/" "all" "tab" "Follow hint in new tab..." 1)
    as (strings & removed & Hret & Hstop & Hperm).
  - reflexivity.
  - vm_compute. discriminate.
  - vm_compute. reflexivity.
  - vm_compute. discriminate.
  - apply (bool_decide_unpack _). vm_compute. exact I.
  - vm_compute. reflexivity.
  - vm_compute. split; discriminate.
  - exists removed. split; [exact Hstop|].
    assert (Hstrings : strings = ["a"; "b"]).
    { vm_compute in Hret. now injection Hret as <-. }
    rewrite Hstrings in Hperm. exact Hperm.
Defined.

Lemma start_unknown_mode_or_target_witness :
  start (page [link_elem] []) "http://example.org/" "buttons" "tab" init
  = Run (Raise KeyError)
        {| _elems := ∅; _frame := Some (page [link_elem] []); _target := Some "tab";
           _baseurl := Some "http://example.org/" |} [] /\
  start (page [link_elem] []) "http://example.org/" "links" "window" init
  = Run (Raise KeyError)
        {| _elems := ∅; _frame := Some (page [link_elem] []); _target := Some "window";
           _baseurl := Some "http://example.org/" |} [].
Proof.
  split.
  - apply (@start_unknown_mode_or_target example_env init). left. reflexivity.
  - apply (@start_unknown_mode_or_target example_env init). right.
    split; [vm_compute; discriminate | reflexivity].
Defined.

(** [<a href="javascript:void(0)">]. *)
Definition script_elem : QWebElement :=
  {| attributes := {[ "href" := "javascript:void(0)" ]}; geometry := box 10 100 |}.

Lemma start_hints_visible_witness :
  dom (_elems (hinting [script_elem; link_elem; anchor_elem] [] "links" "tab")) = {[ "a" ]} /\
  hasAttribute link_elem "href" = true /\
  String.eqb (url_scheme (qurl (attribute link_elem "href"))) "javascript" = false.
Proof.
  split; [vm_compute; reflexivity|].
  destruct (@start_hints_visible example_env init (page [script_elem; link_elem; anchor_elem] [])
              "http://example.org/" "links" "tab" "a"
              {| elem := link_elem; label := label_at link_elem "a" |})
    as (_ & _ & Hlinks).
  - reflexivity.
  - vm_compute. reflexivity.
  - exact (Hlinks eq_refl).
Defined.

End StartWitnesses.

Section OneHintChar.

Open Scope string_scope.

(** The setting [hints chars = "a"]. *)
Definition one_char_env : Env := {|
  QUrl := string;
  qurl := id;
  url_scheme := fun u => if String.prefix "javascript:" u then "javascript" else "http";
  isRelative := fun u => negb (String.prefix "http" u);
  resolved := fun baseurl link => baseurl ++ link;
  urlstring := id;
  env_log := glibc_log;
  hints_chars := "a"
|}.

#[local] Existing Instance one_char_env.

Lemma start_few_hint_chars_witness :
  start (page [link_elem] [img_elem]) "http://example.org/" "all" "tab" init
  = Run (Raise ZeroDivisionError)
        {| _elems := ∅; _frame := Some (page [link_elem] [img_elem]);
           _target := Some "tab"; _baseurl := Some "http://example.org/" |}
        [message_text "Follow hint in new tab..."].
Proof.
  apply (@start_few_hint_chars one_char_env init).
  - vm_compute. discriminate.
  - reflexivity.
  - vm_compute. discriminate.
  - vm_compute. reflexivity.
Defined.

End OneHintChar.

(** ** Typing a hint, key by key *)

Lemma join_list_ascii s : join (list_ascii_of_string s) = s.
Proof. apply string_of_list_ascii_of_string. Qed.

Lemma startswith_prefix_of s t :
  startswith t s = true <-> list_ascii_of_string s `prefix_of` list_ascii_of_string t.
Proof. rewrite <- (join_list_ascii s), <- (join_list_ascii t) at 1. apply startswith_join. Qed.

Lemma startswith_refl s : startswith s s = true.
Proof. now apply startswith_prefix_of. Qed.

Lemma startswith_trans s t u :
  startswith t s = true -> startswith u t = true -> startswith u s = true.
Proof. rewrite !startswith_prefix_of. intros Hst Htu. now transitivity (list_ascii_of_string t). Qed.

Lemma startswith_empty s : startswith s EmptyString = true.
Proof. apply startswith_prefix_of. apply prefix_nil. Qed.

Section TypingHints.

Context `{Env}.

Lemma lookup_handle_partial_key s keystr k :
  _elems (manager (handle_partial_key keystr s)) !! k
  = if startswith k keystr then _elems s !! k else None.
Proof.
  destruct (handle_partial_key_spec s keystr) as (elems' & -> & Hlookup).
  apply Hlookup.
Qed.

(** X17. Typing on: after [handle_partial_key] with a string, and then with a
    string that extends it, the mapping is the one that
    [handle_partial_key] with the longer string gives at once; in
    particular the same string twice changes nothing the second time. *)
Theorem handle_partial_key_extends (s : HintManager) (typed typed' : string) :
  startswith typed' typed = true ->
  _elems (manager (handle_partial_key typed' (manager (handle_partial_key typed s))))
  = _elems (manager (handle_partial_key typed' s)).
Proof.
  intros Hext. apply map_eq. intros k. rewrite !lookup_handle_partial_key.
  destruct (startswith k typed') eqn:Hk; [|reflexivity].
  now rewrite (startswith_trans typed typed' k Hext Hk).
Qed.

(** X18. An empty string prunes nothing: the manager is unchanged, and every
    label is rewritten with an empty matched part. *)
Theorem handle_partial_key_empty (s : HintManager) :
  handle_partial_key EmptyString s
  = Run (Return tt) s
        ((fun item => setInnerXml (label item.2) EmptyString item.1)
           <$> map_to_list (_elems s)).
Proof.
  destruct s as [els fr tg bu]. unfold handle_partial_key. run_code. run_effects.
  f_equal.
  - f_equal. assert (List.filter (fun item : string * ElemTuple =>
                                    negb (startswith item.1 EmptyString))
                                 (map_to_list els) = []) as ->; [|reflexivity].
    induction (map_to_list els) as [|item l IH]; [reflexivity|].
    cbn [List.filter]. now rewrite startswith_empty.
  - apply list_fmap_ext. intros i [k t] _. unfold partial_key_effect.
    rewrite startswith_empty. cbn [String.length fst snd]. f_equal.
    + now destruct k.
    + rewrite Nat.sub_0_r. clear. induction k as [|c k IH]; [reflexivity|].
      cbn. now rewrite IH.
Qed.

Lemma handle_partial_key_alone (s : HintManager) (typed : string) (t : ElemTuple) :
  _elems s !! typed = Some t ->
  (forall k, is_Some (_elems s !! k) -> startswith k typed = true -> k = typed) ->
  _elems (manager (handle_partial_key typed s)) = {[ typed := t ]}.
Proof.
  intros Ht Hfree. apply map_eq. intros k. rewrite lookup_handle_partial_key.
  destruct (decide (k = typed)) as [->|Hne].
  - now rewrite startswith_refl, lookup_singleton_eq.
  - rewrite lookup_singleton_ne by congruence.
    destruct (startswith k typed) eqn:Hk; [|reflexivity].
    destruct (_elems s !! k) eqn:Hlookup; [|reflexivity].
    exfalso. apply Hne, Hfree; eauto.
Qed.

(** X19. When a key of the mapping is typed in full, and it is not the beginning
    of another key, the mapping is left with this key alone. *)
Theorem handle_partial_key_full_hint (s : HintManager) (typed : string) (t : ElemTuple) :
  _elems s !! typed = Some t ->
  (forall k, is_Some (_elems s !! k) -> startswith k typed = true -> k = typed) ->
  _elems (manager (handle_partial_key typed s)) = {[ typed := t ]}.
Proof. apply handle_partial_key_alone. Qed.

End TypingHints.

Section StartTypeFire.

Context `{Env}.

Lemma handle_partial_key_fields s keystr :
  _frame (manager (handle_partial_key keystr s)) = _frame s /\
  _target (manager (handle_partial_key keystr s)) = _target s /\
  _baseurl (manager (handle_partial_key keystr s)) = _baseurl s.
Proof.
  destruct (handle_partial_key_spec s keystr) as (elems' & -> & _).
  cbn [manager _frame _target _baseurl]. tauto.
Qed.

(** X20. A whole session: [start] on a page, the hint string of one of its
    elements typed in full, then [fire] with it, for a target that clicks.
    After the typing the mapping holds this element alone; [fire] clicks on
    it, removes its label and ends the session. *)
Theorem start_type_fire (s : HintManager) frame baseurl mode target needed i e :
  _elems s = ∅ ->
  visible_elems frame mode !! i = Some e ->
  target ∈ ["normal"; "tab"; "bgtab"]%string ->
  2 <= str_len hints_chars -> NoDup (alphabet hints_chars) ->
  needed_digits env_log (len (visible_elems frame mode)) (str_len hints_chars)
  = Return needed ->
  str_len hints_chars ^ (needed - 1) <= len (visible_elems frame mode)
  <= str_len hints_chars ^ needed ->
  exists strings string,
    _hint_strings env_log hints_chars (visible_elems frame mode) = Return strings /\
    strings !! i = Some string /\
    _elems (manager (handle_partial_key string
                       (manager (start frame baseurl mode target s))))
    = {[ string := {| elem := e; label := label_at e string |} ]} /\
    fire string (manager (handle_partial_key string
                            (manager (start frame baseurl mode target s))))
    = Run (Return tt)
          {| _elems := ∅; _frame := None; _target := None; _baseurl := Some baseurl |}
          (click_effects frame e target
           ++ [removeFromDocument (label_at e string);
               contentsSizeChanged_disconnect frame; emit_set_mode "normal";
               message_clear]).
Proof.
  intros Hempty Hi Htarget HK Hdistinct Hlog Hneeded.
  assert (Hvis : visible_elems frame mode <> []).
  { intros Hnil. rewrite Hnil in Hi. discriminate Hi. }
  destruct (hint_strings_distinct (visible_elems frame mode) needed
              (len_nonempty _ Hvis) HK Hdistinct Hlog Hneeded)
    as (strings & Hret & Hlen & Hnd & Hfree).
  destruct (lookup_lt_is_Some_2 strings i) as [string Hstring].
  { rewrite Hlen. eapply lookup_lt_Some. exact Hi. }
  exists strings, string. split; [assumption|]. split; [assumption|].
  assert (Htext : exists text, dict_get texts target = Some text).
  { repeat (apply elem_of_cons in Htarget as [->|Htarget]; [eexists; reflexivity|]).
    inversion Htarget. }
  destruct Htext as [text Htext].
  destruct (visible_elems frame mode) as [|e0 es] eqn:Helems; [congruence|].
  pose proof (start_spec s frame baseurl mode target e0 es text strings Helems Htext Hret)
    as Hstart.
  set (started := manager (start frame baseurl mode target s)) in *.
  assert (Hstarted : started
                     = {| _elems := with_entries (zip (e0 :: es) strings) ∅;
                          _frame := Some frame; _target := Some target;
                          _baseurl := Some baseurl |}).
  { unfold started. rewrite Hstart, Hempty. reflexivity. }
  clearbody started. subst started. clear Hstart.
  set (started := {| _elems := with_entries (zip (e0 :: es) strings) ∅;
                     _frame := Some frame; _target := Some target;
                     _baseurl := Some baseurl |}).
  set (entry := {| elem := e; label := label_at e string |}).
  assert (Hentry : _elems started !! string = Some entry).
  { apply (lookup_with_entries (zip (e0 :: es) strings) ∅ (e, string)).
    - now rewrite zip_snd_same_length.
    - apply list_elem_of_lookup. exists i. apply lookup_zip_with_Some. eauto. }
  assert (Hpruned : _elems (manager (handle_partial_key string started))
                    = {[ string := entry ]}).
  { apply handle_partial_key_alone; [assumption|].
    intros k [t Hk] Hprefix. symmetry. apply Hfree; [| |assumption].
    - eapply list_elem_of_lookup_2. exact Hstring.
    - cbn [started _elems] in Hk.
      apply with_entries_inv in Hk as [(pair & Hpair & -> & _)|Hk];
        [|now rewrite lookup_empty in Hk].
      destruct pair as [e' string']. now apply elem_of_zip_r in Hpair. }
  split; [assumption|].
  destruct (handle_partial_key_fields started string) as (Hframe & Htg & Hbase).
  set (typed := manager (handle_partial_key string started)) in *.
  cbn [started _frame _target _baseurl] in Hframe, Htg, Hbase.
  rewrite (fire_dispatches typed string entry frame target baseurl Hframe Htg Hbase).
  - assert (Hstop : stop_effects typed frame
                    = [removeFromDocument (label_at e string);
                       contentsSizeChanged_disconnect frame; emit_set_mode "normal";
                       message_clear]).
    { unfold stop_effects. rewrite Hpruned, map_to_list_singleton. reflexivity. }
    rewrite Hstop. unfold stopped. rewrite Hbase.
    repeat (apply elem_of_cons in Htarget as [->|Htarget]; [reflexivity|]).
    inversion Htarget.
  - rewrite Hpruned. apply lookup_singleton_eq.
  - intros Hreq. exfalso.
    repeat (apply elem_of_cons in Htarget as [->|Htarget]; [discriminate Hreq|]).
    inversion Htarget.
Qed.

End StartTypeFire.

Section RapidMode.

Context `{Env}.

(** [fire] with one key after the other. *)
Fixpoint fire_each (keys : list string) : M unit :=
  match keys with
  | [] => mret tt
  | keystr :: keys' => fire keystr;; fire_each keys'
  end.

(** X21. In rapid mode hints can be fired one after the other: every [fire] with
    a key of the mapping clicks on its element for a background tab, and
    the manager is the same after any number of them. *)
Theorem rapid_fire_each (s : HintManager) frame (keys : list string) :
  _target s = Some "rapid"%string -> _frame s = Some frame ->
  Forall (fun keystr => is_Some (_elems s !! keystr)) keys ->
  fire_each keys s
  = Run (Return tt) s
        (keys ≫= fun keystr =>
                   match _elems s !! keystr with
                   | Some t => click_effects frame (elem t) "bgtab"
                   | None => []
                   end).
Proof.
  intros Htarget Hframe Hkeys.
  induction Hkeys as [|keystr keys [t Hk] _ IH]; [reflexivity|].
  cbn [fire_each]. unfold mbind at 1. unfold M_bind.
  rewrite (fire_rapid s keystr t frame Htarget Hframe Hk).
  cbn [result manager effects]. rewrite IH. cbn [result manager effects].
  cbn [mbind list_bind]. now rewrite Hk.
Qed.

End RapidMode.

Section TypingWitnesses.

Open Scope string_scope.

#[local] Existing Instance example_env.

Lemma handle_partial_key_extends_witness :
  _elems (manager (handle_partial_key "ab"
                     (manager (handle_partial_key "a"
                                 (hinting [link_elem; anchor_elem] [img_elem] "all" "tab")))))
  = _elems (manager (handle_partial_key "ab"
                       (hinting [link_elem; anchor_elem] [img_elem] "all" "tab"))).
Proof. apply (@handle_partial_key_extends example_env). reflexivity. Defined.

Lemma handle_partial_key_full_hint_witness :
  _elems (manager (handle_partial_key "ba"
                     (hinting [link_elem; anchor_elem] [img_elem] "all" "tab")))
  = {[ "ba" := {| elem := anchor_elem; label := label_at anchor_elem "ba" |} ]}.
Proof.
  apply (@handle_partial_key_full_hint example_env).
  - vm_compute. reflexivity.
  - intros k [t Hk] Hprefix.
    apply elem_of_map_to_list in Hk.
    remember (map_to_list (_elems (hinting [link_elem; anchor_elem] [img_elem] "all" "tab")))
      as items eqn:Hitems.
    vm_compute in Hitems. subst items.
    repeat (apply elem_of_cons in Hk as [Hk|Hk];
            [injection Hk as -> _; first [reflexivity | discriminate Hprefix]|]).
    inversion Hk.
Defined.

Lemma start_type_fire_witness :
  fire "ba" (manager (handle_partial_key "ba"
                        (hinting [link_elem; anchor_elem] [img_elem] "all" "tab")))
  = Run (Return tt)
        {| _elems := ∅; _frame := None; _target := None;
           _baseurl := Some "http://example.org/" |}
        (click_effects (page [link_elem; anchor_elem] [img_elem]) anchor_elem "tab"
         ++ [removeFromDocument (label_at anchor_elem "ba");
             contentsSizeChanged_disconnect (page [link_elem; anchor_elem] [img_elem]);
             emit_set_mode "normal"; message_clear]).
Proof.
  destruct (@start_type_fire example_env init (page [link_elem; anchor_elem] [img_elem])
              "http://example.org/" "all" "tab" 2 1%nat anchor_elem)
    as (strings & string & Hret & Hstring & _ & Hfire).
  - reflexivity.
  - vm_compute. reflexivity.
  - right. left.
  - vm_compute. discriminate.
  - apply (bool_decide_unpack _). vm_compute. exact I.
  - vm_compute. reflexivity.
  - vm_compute. split; discriminate.
  - assert (Hstrings : strings = ["aa"; "ba"; "ab"]).
    { vm_compute in Hret. now injection Hret as <-. }
    rewrite Hstrings in Hstring. injection Hstring as <-. exact Hfire.
Defined.

Lemma rapid_fire_each_witness :
  fire_each ["b"; "a"; "b"] (hinting [link_elem] [img_elem] "all" "rapid")
  = Run (Return tt) (hinting [link_elem] [img_elem] "all" "rapid")
        (click_effects (page [link_elem] [img_elem]) img_elem "bgtab"
         ++ click_effects (page [link_elem] [img_elem]) link_elem "bgtab"
         ++ click_effects (page [link_elem] [img_elem]) img_elem "bgtab").
Proof.
  rewrite (@rapid_fire_each example_env _ (page [link_elem] [img_elem])).
  - vm_compute. reflexivity.
  - vm_compute. reflexivity.
  - vm_compute. reflexivity.
  - repeat constructor; eexists; vm_compute; reflexivity.
Defined.

End TypingWitnesses.

(** * The key parser of hint mode *)

(** [HintKeyParser], as far as [hints.py] defines it. The key string typed
    so far and the bindings are attributes it has from [KeyParser]; its two
    signals are collected as a list. *)
Record HintKeyParser := { _keystring : string; bindings : gmap string string }.

Inductive parser_signal :=
| fire_hint (keystr : string)
| abort_hinting.

(** [Qt.Key_Escape]. *)
Definition Key_Escape : Z := 0x01000000.

(** [_handle_modifier_key(e)], on [e.key()]. *)
Definition _handle_modifier_key (key : Z) (p : HintKeyParser)
    : bool * HintKeyParser * list parser_signal :=
  if key =? Key_Escape
  then (true, {| _keystring := EmptyString; bindings := bindings p |}, [abort_hinting])
  else (false, p, []).

(** [execute(cmdstr, count)]. *)
Definition execute (cmdstr : string) (count : option Z) (p : HintKeyParser)
    : HintKeyParser * list parser_signal :=
  (p, [fire_hint cmdstr]).

(** [on_hint_strings_updated(strings)]: [{s: s for s in strings}]. *)
Definition on_hint_strings_updated (strings : list string) (p : HintKeyParser)
    : HintKeyParser :=
  {| _keystring := _keystring p;
     bindings := list_to_map ((fun s => (s, s)) <$> strings) |}.

Lemma lookup_on_hint_strings_updated strings p k :
  bindings (on_hint_strings_updated strings p) !! k
  = if decide (k ∈ strings) then Some k else None.
Proof.
  cbn [on_hint_strings_updated bindings].
  induction strings as [|s strings IH].
  - cbn. rewrite lookup_empty. now rewrite decide_False by (apply not_elem_of_nil).
  - cbn [fmap list_fmap list_to_map foldr uncurry fst snd].
    destruct (decide (s = k)) as [->|Hne].
    + rewrite lookup_insert_eq, decide_True by left. reflexivity.
    + rewrite lookup_insert_ne by assumption. rewrite IH.
      destruct (decide (k ∈ strings)) as [Hin|Hnin].
      * now rewrite decide_True by (now right).
      * rewrite decide_False; [reflexivity|].
        rewrite elem_of_cons. intros [->|?]; congruence.
Qed.

Section ParserAndManager.

Context `{Env}.

(** X22. The hint strings that [start] emits with [hint_strings_updated] are the
    keys of the mapping it has built: when the key parser takes them as its
    bindings, a key string is bound (to itself) exactly when [fire] finds an
    element under it. *)
Theorem hint_strings_updated_binds_hints
    (s : HintManager) frame baseurl mode target text needed (p : HintKeyParser) :
  _elems s = ∅ ->
  visible_elems frame mode <> [] ->
  dict_get texts target = Some text ->
  2 <= str_len hints_chars -> NoDup (alphabet hints_chars) ->
  needed_digits env_log (len (visible_elems frame mode)) (str_len hints_chars)
  = Return needed ->
  str_len hints_chars ^ (needed - 1) <= len (visible_elems frame mode)
  <= str_len hints_chars ^ needed ->
  exists strings,
    emit_hint_strings_updated strings ∈ effects (start frame baseurl mode target s) /\
    forall k,
      bindings (on_hint_strings_updated strings p) !! k
      = (fun _ => k) <$> _elems (manager (start frame baseurl mode target s)) !! k.
Proof.
  intros Hempty Hvis Htext HK Hdistinct Hlog Hneeded.
  destruct (hint_strings_distinct (visible_elems frame mode) needed
              (len_nonempty _ Hvis) HK Hdistinct Hlog Hneeded)
    as (strings & Hret & Hlen & Hnd & _).
  exists strings.
  destruct (visible_elems frame mode) as [|e es] eqn:Helems; [congruence|].
  rewrite (start_spec s frame baseurl mode target e es text strings Helems Htext Hret).
  cbn [effects manager _elems]. split.
  - right. apply elem_of_app. right. right. left.
  - intros k. rewrite lookup_on_hint_strings_updated, Hempty.
    destruct (decide (k ∈ strings)) as [Hin|Hnin].
    + apply list_elem_of_lookup in Hin as [i Hi].
      destruct (lookup_lt_is_Some_2 (e :: es) i) as [e' He'].
      { rewrite <- Hlen. eapply lookup_lt_Some. exact Hi. }
      rewrite (lookup_with_entries (zip (e :: es) strings) ∅ (e', k)).
      * reflexivity.
      * now rewrite zip_snd_same_length.
      * apply list_elem_of_lookup. exists i. apply lookup_zip_with_Some. eauto.
    + rewrite lookup_with_entries_ne by (now rewrite zip_snd_same_length).
      now rewrite lookup_empty.
Qed.

End ParserAndManager.

Section ParserWitnesses.

Open Scope string_scope.

#[local] Existing Instance example_env.

Lemma hint_strings_updated_binds_hints_witness :
  exists strings,
    emit_hint_strings_updated strings
      ∈ effects (start (page [link_elem] [img_elem]) "http://example.org/" "all" "tab" init) /\
    forall k,
      bindings (on_hint_strings_updated strings
                  {| _keystring := ""; bindings := {[ "x" := "y" ]} |}) !! k
      = (fun _ => k) <$> _elems (hinting [link_elem] [img_elem] "all" "tab") !! k.
Proof.
  apply (@hint_strings_updated_binds_hints example_env init (page [link_elem] [img_elem])
           "http://example.org/" "all" "tab" "Follow hint in new tab..." 1).
  - reflexivity.
  - vm_compute. discriminate.
  - vm_compute. reflexivity.
  - vm_compute. discriminate.
  - apply (bool_decide_unpack _). vm_compute. exact I.
  - vm_compute. reflexivity.
  - vm_compute. split; discriminate.
Defined.

End ParserWitnesses.

(** * The global event filter

    A shallow embedding of [qutebrowser/keyinput/eventfilter.py]. What the
    filter asks of Qt, of the window registry and of the mode manager at the
    time of a call is the record [App]; an exception is a value. *)

Module eventfilter.

(** Exceptions: the one [_handle_key_event] catches, and any other. *)
Inductive exception :=
| RegistryUnavailableError
| Exception (name : string).

Inductive raises (A : Type) : Type :=
| Returns (a : A)
| Raises (e : exception).
Arguments Returns {A} a.
Arguments Raises {A} e.

(** [QEvent.Type]. *)
Definition KeyPress : Z := 6.
Definition KeyRelease : Z := 7.
Definition ShortcutOverride : Z := 51.

Record QEvent := { type : Z; key : Z }.

(** The surroundings of a call: [QApplication.instance().activeWindow()]
    ([None] without an active window), the windows of
    [objreg.window_registry], the result of [modeman.instance('current')],
    a mode manager being what its [handle_event] does with an event. *)
Definition ModeManager : Type := QEvent -> raises bool.

Record App := {
  activeWindow : option Z;
  window_registry : list Z;
  modeman_instance : raises ModeManager
}.

Definition Handler : Type := App -> QEvent -> raises bool.

(** [_handle_key_event]. *)
Definition _handle_key_event : Handler := fun app event =>
  let active_window := activeWindow app in
  if negb (match active_window with
           | Some w => bool_decide (w ∈ window_registry app)
           | None => false
           end)
  then Returns false
  else
    (* try: ... except objreg.RegistryUnavailableError: return False *)
    let body := match modeman_instance app with
                | Returns man => man event
                | Raises e => Raises e
                end in
    match body with
    | Raises RegistryUnavailableError => Returns false
    | r => r
    end.

(** The attributes of [EventFilter]. *)
Record EventFilter := {
  _activated : bool;
  _handlers : list (Z * Handler)
}.

(** [__init__]. *)
Definition __init__ : EventFilter :=
  {| _activated := true;
     _handlers := [(KeyPress, _handle_key_event);
                   (KeyRelease, _handle_key_event);
                   (ShortcutOverride, _handle_key_event)] |}.

(** [typ in d] and [d[typ]] on the dict of handlers. *)
Fixpoint handler_of (d : list (Z * Handler)) (typ : Z) : option Handler :=
  match d with
  | [] => None
  | (k, h) :: d' => if k =? typ then Some h else handler_of d' typ
  end.

(** [eventFilter(obj, event)]; [is_window] is [isinstance(obj, QWindow)].
    The result of the call and the filter after it. *)
Definition eventFilter (app : App) (is_window : bool) (event : QEvent)
    (self : EventFilter) : raises bool * EventFilter :=
  if negb is_window then (Returns false, self) else
  let typ := type event in
  match handler_of (_handlers self) typ with
  | None => (Returns false, self)
  | Some handler =>
      if negb (_activated self) then (Returns false, self) else
      match handler app event with
      | Returns b => (Returns b, self)
      | Raises e =>
          (Raises e, {| _activated := false; _handlers := _handlers self |})
      end
  end.

(** A run of calls, one after the other; an exception of one call does not
    keep Qt from making the next. *)
Fixpoint deliver (calls : list (App * bool * QEvent)) (self : EventFilter)
    : list (raises bool) * EventFilter :=
  match calls with
  | [] => ([], self)
  | (app, is_window, event) :: calls' =>
      let '(r, self') := eventFilter app is_window event self in
      let '(rs, self'') := deliver calls' self' in
      (r :: rs, self'')
  end.

(** The filter has the handlers of [__init__]: nothing in the file assigns
    [_handlers] again. *)
Lemma eventFilter_handlers app is_window event self :
  _handlers (eventFilter app is_window event self).2 = _handlers self.
Proof.
  unfold eventFilter. destruct is_window; [|reflexivity]. cbn [negb].
  destruct (handler_of _ _) as [handler|]; [|reflexivity].
  destruct (_activated self); [|reflexivity]. cbn [negb].
  destruct (handler app event); reflexivity.
Qed.

Lemma handler_of_init typ :
  handler_of (_handlers __init__) typ
  = if bool_decide (typ ∈ [KeyPress; KeyRelease; ShortcutOverride])
    then Some _handle_key_event else None.
Proof.
  cbn [__init__ _handlers handler_of].
  destruct (Z.eqb_spec KeyPress typ) as [<-|H1]; [reflexivity|].
  destruct (Z.eqb_spec KeyRelease typ) as [<-|H2]; [reflexivity|].
  destruct (Z.eqb_spec ShortcutOverride typ) as [<-|H3]; [reflexivity|].
  rewrite bool_decide_eq_false_2; [reflexivity|].
  rewrite !elem_of_cons, elem_of_nil. intuition congruence.
Qed.

Lemma handle_key_event_true app event :
  _handle_key_event app event = Returns true ->
  (exists w, activeWindow app = Some w /\ w ∈ window_registry app) /\
  exists man, modeman_instance app = Returns man /\ man event = Returns true.
Proof.
  unfold _handle_key_event.
  destruct (activeWindow app) as [w|]; [|discriminate].
  destruct (bool_decide_reflect (w ∈ window_registry app)) as [Hw|_]; [|discriminate].
  cbn [negb]. intros Hman. split; [eauto|].
  destruct (modeman_instance app) as [man|e].
  - exists man. split; [reflexivity|].
    destruct (man event) as [b|[|name]]; congruence.
  - destruct e; discriminate.
Qed.

Lemma handle_key_event_raises app event e :
  _handle_key_event app event = Raises e -> exists name, e = Exception name.
Proof.
  unfold _handle_key_event.
  destruct (negb _); [discriminate|].
  destruct (modeman_instance app) as [man|[|name]].
  - destruct (man event) as [b|[|name]]; [discriminate | discriminate |].
    intros [= <-]. eauto.
  - discriminate.
  - intros [= <-]. eauto.
Qed.

(** X23. An event is filtered out (the result is [True]) only when the filter is
    activated, the object is a [QWindow], the event is a key press, a key
    release or a shortcut override, the active window is one of the
    registry, and the current mode manager has answered [True] to it. The
    filter itself is then as before. *)
Theorem eventFilter_filters_handled_keys app is_window event (self : EventFilter) :
  _handlers self = _handlers __init__ ->
  (eventFilter app is_window event self).1 = Returns true ->
  (eventFilter app is_window event self).2 = self /\
  _activated self = true /\ is_window = true /\
  type event ∈ [KeyPress; KeyRelease; ShortcutOverride] /\
  (exists w, activeWindow app = Some w /\ w ∈ window_registry app) /\
  exists man, modeman_instance app = Returns man /\ man event = Returns true.
Proof.
  intros Hhandlers. unfold eventFilter. rewrite Hhandlers, handler_of_init.
  destruct is_window; [|discriminate]. cbn [negb].
  destruct (bool_decide_reflect (type event ∈ [KeyPress; KeyRelease; ShortcutOverride]))
    as [Htype|_]; [|discriminate].
  destruct (_activated self); [|discriminate]. cbn [negb].
  destruct (_handle_key_event app event) as [b|e] eqn:Hhandle; [|discriminate].
  cbn [fst snd]. intros [= ->].
  apply handle_key_event_true in Hhandle as [Hwindow Hman].
  repeat split; assumption.
Qed.

(** X24. When a call of [eventFilter] raises, the exception is not a
    [RegistryUnavailableError] (which [_handle_key_event] turns into
    [False]), and the filter is deactivated. *)
Theorem eventFilter_exception_deactivates app is_window event (self : EventFilter) e :
  _handlers self = _handlers __init__ ->
  (eventFilter app is_window event self).1 = Raises e ->
  (exists name, e = Exception name) /\
  (eventFilter app is_window event self).2
  = {| _activated := false; _handlers := _handlers self |}.
Proof.
  intros Hhandlers. unfold eventFilter. rewrite Hhandlers, handler_of_init.
  destruct is_window; [|discriminate]. cbn [negb].
  destruct (bool_decide _); [|discriminate].
  destruct (_activated self); [|discriminate]. cbn [negb].
  destruct (_handle_key_event app event) as [b|e'] eqn:Hhandle; [discriminate|].
  cbn [fst snd]. intros [= ->].
  split; [|reflexivity]. now apply handle_key_event_raises in Hhandle.
Qed.

(** X25. Once deactivated, the filter stays deactivated and lets every event
    through: whatever the calls that follow, each returns [False], and the
    filter does not change. *)
Theorem eventFilter_deactivated_stays (calls : list (App * bool * QEvent))
    (self : EventFilter) :
  _activated self = false ->
  deliver calls self = (repeat (Returns false) (length calls), self).
Proof.
  intros Hoff. induction calls as [|[[app is_window] event] calls IH]; [reflexivity|].
  cbn [deliver].
  assert (eventFilter app is_window event self = (Returns false, self)) as ->.
  { unfold eventFilter. rewrite Hoff. destruct is_window; [|reflexivity].
    cbn [negb]. destruct (handler_of _ _); reflexivity. }
  now rewrite IH.
Qed.

(** X26. While the mode manager is not available ([modeman.instance] raises
    [RegistryUnavailableError]), every event is let through, and the filter
    stays as it is: this exception does not deactivate it. *)
Theorem eventFilter_registry_unavailable app is_window event (self : EventFilter) :
  _handlers self = _handlers __init__ ->
  modeman_instance app = Raises RegistryUnavailableError ->
  eventFilter app is_window event self = (Returns false, self).
Proof.
  intros Hhandlers Hman. unfold eventFilter. rewrite Hhandlers, handler_of_init.
  destruct is_window; [|reflexivity]. cbn [negb].
  destruct (bool_decide _); [|reflexivity].
  destruct (_activated self); [|reflexivity]. cbn [negb].
  unfold _handle_key_event. rewrite Hman.
  destruct (negb _); reflexivity.
Qed.

(** *** Witnesses *)

(** A mode manager that handles the key 74 and raises on the key 75. *)
Definition example_man : ModeManager := fun event =>
  if key event =? 74 then Returns true
  else if key event =? 75 then Raises (Exception "TypeError")
  else Returns false.

Definition example_app : App :=
  {| activeWindow := Some 1; window_registry := [0; 1];
     modeman_instance := Returns example_man |}.

Definition starting_app : App :=
  {| activeWindow := Some 1; window_registry := [0; 1];
     modeman_instance := Raises RegistryUnavailableError |}.

Lemma eventFilter_filters_handled_keys_witness :
  (eventFilter example_app true {| type := KeyPress; key := 74 |} __init__).2 = __init__ /\
  _activated __init__ = true /\ true = true /\
  type {| type := KeyPress; key := 74 |} ∈ [KeyPress; KeyRelease; ShortcutOverride] /\
  (exists w, activeWindow example_app = Some w /\ w ∈ window_registry example_app) /\
  exists man, modeman_instance example_app = Returns man /\
              man {| type := KeyPress; key := 74 |} = Returns true.
Proof.
  apply (eventFilter_filters_handled_keys example_app true
           {| type := KeyPress; key := 74 |} __init__); reflexivity.
Defined.

Lemma eventFilter_exception_deactivates_witness :
  (exists name, Exception "TypeError" = Exception name) /\
  (eventFilter example_app true {| type := KeyRelease; key := 75 |} __init__).2
  = {| _activated := false; _handlers := _handlers __init__ |}.
Proof.
  apply (eventFilter_exception_deactivates example_app true
           {| type := KeyRelease; key := 75 |} __init__ (Exception "TypeError"));
    reflexivity.
Defined.

Lemma eventFilter_deactivated_stays_witness :
  deliver [(example_app, true, {| type := KeyPress; key := 74 |});
           (starting_app, true, {| type := KeyPress; key := 75 |})]
          {| _activated := false; _handlers := _handlers __init__ |}
  = ([Returns false; Returns false],
     {| _activated := false; _handlers := _handlers __init__ |}).
Proof.
  apply (eventFilter_deactivated_stays
           [(example_app, true, {| type := KeyPress; key := 74 |});
            (starting_app, true, {| type := KeyPress; key := 75 |})]
           {| _activated := false; _handlers := _handlers __init__ |}).
  reflexivity.
Defined.

Lemma eventFilter_registry_unavailable_witness :
  eventFilter starting_app true {| type := KeyPress; key := 74 |} __init__
  = (Returns false, __init__).
Proof.
  apply (eventFilter_registry_unavailable starting_app true
           {| type := KeyPress; key := 74 |} __init__); reflexivity.
Defined.

(** ** [IMEEventHandler]

    What the handler asks at the time of a call is the record [Input]. Of
    Qt's rectangles ([QRectF]) it uses the truth value and [contains], and
    these are all that is assumed of them. *)

Section IME.

Variable QRectF : Type.
Variable rect_bool : QRectF -> bool.
Variable rect_contains : QRectF -> QRectF -> bool.

Record Input := {
  cursorRectangle : QRectF;
  anchorRectangle : QRectF;
  last_focused_window : raises Z;
  focusObject : option Z;
  ImEnabled : Z -> bool;
  auto_enter : bool;
  auto_leave : bool
}.

Inductive ime_effect :=
| print (text : string)
| sendEvent_ImEnabled (focusObject : Z)
| log_mouse_debug (text : string)
| modeman_enter_insert (win_id : Z)
| modeman_leave_insert (win_id : Z).

Record IMEEventHandler := { _last_seen_rect : option QRectF }.

(** [cursor_rectangle_changed]: the result, the handler after the call and
    what the call has done. *)
Definition cursor_rectangle_changed (input : Input) (self : IMEEventHandler)
    : raises unit * IMEEventHandler * list ime_effect :=
  let new_rect := cursorRectangle input in
  if match _last_seen_rect self with
     | Some r => rect_bool r && rect_contains r new_rect
     | None => false
     end
  then (Returns tt, self, [print "contains"])
  else
    let self := {| _last_seen_rect := Some new_rect |} in
    let anchor_rect := anchorRectangle input in
    if rect_bool anchor_rect
    then (Returns tt, self, [print "Not handling because anchor rect is set"])
    else
      match last_focused_window input with
      | Raises e => (Raises e, self, [])
      | Returns win_id =>
          let query :=
            if negb (rect_bool new_rect)
            then match focusObject input with
                 | Some obj => Some obj
                 | None => None
                 end
            else None in
          let asked := match query with
                       | Some obj => [sendEvent_ImEnabled obj]
                       | None => []
                       end in
          if rect_bool new_rect
             || match query with
                | Some obj => ImEnabled input obj
                | None => false
                end
          then (Returns tt, self,
                asked ++ log_mouse_debug "Clicked editable element!"
                      :: (if auto_enter input then [modeman_enter_insert win_id] else []))
          else (Returns tt, self,
                asked ++ log_mouse_debug "Clicked non-editable element!"
                      :: (if auto_leave input then [modeman_leave_insert win_id] else []))
      end.

(** X27. A change of the cursor rectangle to a rectangle that is true and
    contains itself is acted upon once: the same rectangle again is
    ignored, whatever else has changed, and also when the first call has
    raised. *)
Theorem cursor_rectangle_changed_again (first again : Input) (self : IMEEventHandler) :
  rect_bool (cursorRectangle first) = true ->
  rect_contains (cursorRectangle first) (cursorRectangle first) = true ->
  cursorRectangle again = cursorRectangle first ->
  cursor_rectangle_changed again (cursor_rectangle_changed first self).1.2
  = (Returns tt, (cursor_rectangle_changed first self).1.2, [print "contains"]).
Proof.
  intros Htrue Hself Hsame.
  assert (Hseen : match _last_seen_rect (cursor_rectangle_changed first self).1.2 with
                  | Some r => rect_bool r && rect_contains r (cursorRectangle first)
                  | None => false
                  end = true).
  { unfold cursor_rectangle_changed.
    destruct (match _last_seen_rect self with Some _ => _ | None => _ end) eqn:Hseen.
    - exact Hseen.
    - destruct (rect_bool (anchorRectangle first)).
      + cbn. now rewrite Htrue, Hself.
      + destruct (last_focused_window first); [|cbn; now rewrite Htrue, Hself].
        rewrite Htrue. cbn. now rewrite Htrue, Hself. }
  unfold cursor_rectangle_changed at 1. rewrite Hsame, Hseen. reflexivity.
Qed.

Lemma cursor_rectangle_changed_effects (input : Input) (self : IMEEventHandler) x :
  x ∈ (cursor_rectangle_changed input self).2 ->
  (exists text, x = print text) \/ (exists obj, x = sendEvent_ImEnabled obj) \/
  (exists text, x = log_mouse_debug text) \/
  (exists win_id,
     last_focused_window input = Returns win_id /\
     rect_bool (anchorRectangle input) = false /\
     (cursor_rectangle_changed input self).1.2
     = {| _last_seen_rect := Some (cursorRectangle input) |} /\
     ((x = modeman_enter_insert win_id /\ auto_enter input = true /\
       (rect_bool (cursorRectangle input) = true \/
        exists obj, focusObject input = Some obj /\ ImEnabled input obj = true) /\
       forall w, modeman_leave_insert w ∉ (cursor_rectangle_changed input self).2) \/
      (x = modeman_leave_insert win_id /\ auto_leave input = true /\
       rect_bool (cursorRectangle input) = false /\
       forall w, modeman_enter_insert w ∉ (cursor_rectangle_changed input self).2))).
Proof.
  unfold cursor_rectangle_changed.
  destruct (match _last_seen_rect self with Some _ => _ | None => _ end).
  { cbn. rewrite elem_of_cons, elem_of_nil. intros [->|[]]. eauto. }
  destruct (rect_bool (anchorRectangle input)).
  { cbn. rewrite elem_of_cons, elem_of_nil. intros [->|[]]. eauto. }
  destruct (last_focused_window input) as [w|e]; [|intros []%elem_of_nil].
  set (query := if negb (rect_bool (cursorRectangle input))
                then match focusObject input with Some obj => Some obj | None => None end
                else None).
  assert (Hquery : forall obj, query = Some obj ->
                     rect_bool (cursorRectangle input) = false /\
                     focusObject input = Some obj).
  { intros obj. unfold query. destruct (rect_bool (cursorRectangle input)); [discriminate|].
    destruct (focusObject input); [|discriminate]. intros [= ->]. tauto. }
  clearbody query.
  set (asked := match query with Some obj => [sendEvent_ImEnabled obj] | None => [] end).
  assert (Hasked : forall y, y ∈ asked -> exists obj, y = sendEvent_ImEnabled obj).
  { intros y. unfold asked. destruct query; [|intros []%elem_of_nil].
    rewrite elem_of_cons, elem_of_nil. intros [->|[]]. eauto. }
  clearbody asked.
  destruct (rect_bool (cursorRectangle input) || _) eqn:Heditable; cbn [fst snd].
  - rewrite elem_of_app, elem_of_cons. intros [Hin|[->|Hin]]; [auto | eauto |].
    destruct (auto_enter input) eqn:Henter; [|inversion Hin].
    apply elem_of_cons in Hin as [->|Hin]; [|inversion Hin].
    right. right. right. exists w. split; [reflexivity|]. split; [reflexivity|].
    split; [reflexivity|]. left. split; [reflexivity|]. split; [reflexivity|]. split.
    + apply orb_prop in Heditable as [?|Hq]; [now left | right].
      destruct query as [obj|]; [|discriminate]. exists obj.
      split; [now apply Hquery | assumption].
    + intros w'. rewrite elem_of_app, !elem_of_cons, elem_of_nil.
      intros [Hin|[?|[?|[]]]]; try discriminate.
      apply Hasked in Hin as [obj ?]. discriminate.
  - apply orb_false_elim in Heditable as [Hrect _].
    rewrite elem_of_app, elem_of_cons. intros [Hin|[->|Hin]]; [auto | eauto |].
    destruct (auto_leave input) eqn:Hleave; [|inversion Hin].
    apply elem_of_cons in Hin as [->|Hin]; [|inversion Hin].
    right. right. right. exists w. split; [reflexivity|]. split; [reflexivity|].
    split; [reflexivity|]. right. split; [reflexivity|]. split; [reflexivity|].
    split; [assumption|].
    intros w'. rewrite elem_of_app, !elem_of_cons, elem_of_nil.
    intros [Hin|[?|[?|[]]]]; try discriminate.
    apply Hasked in Hin as [obj ?]. discriminate.
Qed.

(** X28. The handler enters insert mode only with the setting [auto_enter], on
    the last focused window, when no anchor rectangle is set and the cursor
    rectangle is true or the focus object has an input method enabled; the
    new rectangle is then the last one seen, and the call does not leave
    insert mode as well. *)
Theorem cursor_rectangle_changed_enters (input : Input) (self : IMEEventHandler)
    (win_id : Z) :
  modeman_enter_insert win_id ∈ (cursor_rectangle_changed input self).2 ->
  auto_enter input = true /\
  last_focused_window input = Returns win_id /\
  rect_bool (anchorRectangle input) = false /\
  (rect_bool (cursorRectangle input) = true \/
   exists obj, focusObject input = Some obj /\ ImEnabled input obj = true) /\
  (cursor_rectangle_changed input self).1.2
  = {| _last_seen_rect := Some (cursorRectangle input) |} /\
  forall w, modeman_leave_insert w ∉ (cursor_rectangle_changed input self).2.
Proof.
  intros Hin.
  apply cursor_rectangle_changed_effects in Hin
    as [[? ?]|[[? ?]|[[? ?]|(w & Hw & Hanchor & Hseen & Hcases)]]]; try discriminate.
  destruct Hcases as [(Heq & Henter & Heditable & Hleave)|(Heq & _)]; [|discriminate].
  injection Heq as ->. tauto.
Qed.

(** X29. It leaves insert mode only with the setting [auto_leave], when no
    anchor rectangle is set and the cursor rectangle is not true; the call
    does not enter insert mode as well. *)
Theorem cursor_rectangle_changed_leaves (input : Input) (self : IMEEventHandler)
    (win_id : Z) :
  modeman_leave_insert win_id ∈ (cursor_rectangle_changed input self).2 ->
  auto_leave input = true /\
  last_focused_window input = Returns win_id /\
  rect_bool (anchorRectangle input) = false /\
  rect_bool (cursorRectangle input) = false /\
  (cursor_rectangle_changed input self).1.2
  = {| _last_seen_rect := Some (cursorRectangle input) |} /\
  forall w, modeman_enter_insert w ∉ (cursor_rectangle_changed input self).2.
Proof.
  intros Hin.
  apply cursor_rectangle_changed_effects in Hin
    as [[? ?]|[[? ?]|[[? ?]|(w & Hw & Hanchor & Hseen & Hcases)]]]; try discriminate.
  destruct Hcases as [(Heq & _)|(Heq & Hleave & Hrect & Henter)]; [discriminate|].
  injection Heq as ->. tauto.
Qed.

End IME.

Arguments cursorRectangle {QRectF} i.
Arguments anchorRectangle {QRectF} i.
Arguments last_focused_window {QRectF} i.
Arguments focusObject {QRectF} i.
Arguments ImEnabled {QRectF} i _.
Arguments auto_enter {QRectF} i.
Arguments auto_leave {QRectF} i.
Arguments _last_seen_rect {QRectF} i.

(** *** Witnesses: rectangles as width and height, true when not empty *)

Definition area_bool (r : Z * Z) : bool := (0 <? r.1) && (0 <? r.2).

Definition area_contains (r r' : Z * Z) : bool := (r'.1 <=? r.1) && (r'.2 <=? r.2).

(** The cursor is in a text field of window 3. *)
Definition typing : Input (Z * Z) :=
  {| cursorRectangle := (1, 12); anchorRectangle := (0, 0);
     last_focused_window := Returns 3; focusObject := Some 8;
     ImEnabled := fun _ => true; auto_enter := true; auto_leave := true |}.

(** The focus is on something that takes no input. *)
Definition reading : Input (Z * Z) :=
  {| cursorRectangle := (0, 0); anchorRectangle := (0, 0);
     last_focused_window := Returns 3; focusObject := Some 9;
     ImEnabled := fun _ => false; auto_enter := true; auto_leave := true |}.

Lemma cursor_rectangle_changed_again_witness :
  cursor_rectangle_changed (Z * Z) area_bool area_contains typing
    (cursor_rectangle_changed (Z * Z) area_bool area_contains typing
       {| _last_seen_rect := None |}).1.2
  = (Returns tt,
     (cursor_rectangle_changed (Z * Z) area_bool area_contains typing
        {| _last_seen_rect := None |}).1.2,
     [print "contains"]).
Proof.
  apply (cursor_rectangle_changed_again (Z * Z) area_bool area_contains typing typing
           {| _last_seen_rect := None |}); reflexivity.
Defined.

Lemma cursor_rectangle_changed_enters_witness :
  (cursor_rectangle_changed (Z * Z) area_bool area_contains typing
     {| _last_seen_rect := None |}).2
  = [log_mouse_debug "Clicked editable element!"; modeman_enter_insert 3] /\
  auto_enter typing = true /\
  last_focused_window typing = Returns 3 /\
  area_bool (anchorRectangle typing) = false.
Proof.
  split; [reflexivity|].
  destruct (cursor_rectangle_changed_enters (Z * Z) area_bool area_contains typing
              {| _last_seen_rect := None |} 3) as (Henter & Hwin & Hanchor & _).
  - right. left.
  - auto.
Defined.

Lemma cursor_rectangle_changed_leaves_witness :
  (cursor_rectangle_changed (Z * Z) area_bool area_contains reading
     {| _last_seen_rect := None |}).2
  = [sendEvent_ImEnabled 9; log_mouse_debug "Clicked non-editable element!";
     modeman_leave_insert 3] /\
  auto_leave reading = true /\
  area_bool (cursorRectangle reading) = false.
Proof.
  split; [reflexivity|].
  destruct (cursor_rectangle_changed_leaves (Z * Z) area_bool area_contains reading
              {| _last_seen_rect := None |} 3) as (Hleave & _ & _ & Hrect & _).
  - right. right. left.
  - auto.
Defined.

End eventfilter.
